(** * YouTube0: staged video pipeline and queue service

    A shallow embedding of
    - [src/services/videoEditor.js] (class [VideoEditor]),
    - [src/utils/logger.js] ([ErrorHandler.safeExecute]),
    - [src/modules/automation.js] (the video stage of [createAndPublishVideo]),
    - [src/services/queue.js] (class [QueueService]),
    together with the properties the specification states about them, and
    of further code around them: the whole of [createAndPublishVideo] and
    the scheduler of [YouTubeAutomation], the job route of [src/web/app.js],
    [hashString] and [smartRetry] of [OpenAIService], [CacheService],
    [Config], [YouTubeAccountManager] and [MetricsService].

    JavaScript strings are sequences of UTF-16 code units, numbers are
    modelled by exact rationals, [async] functions by a state-and-exception
    monad over an explicit world (files, ffmpeg invocations, error log). *)

From Stdlib Require Import ZArith NArith QArith Qminmax Lia Lqa String Ascii
  DecimalString DecimalNat Sorted.
From stdpp Require Import base option list gmap sets.

Close Scope Q_scope.
Close Scope string_scope.
Open Scope N_scope.
Open Scope nat_scope.
Open Scope list_scope.

(** ** JavaScript strings *)

Module JsString.

(** A string is the list of its UTF-16 code units. *)
Definition code_unit := N.
Definition jsstring := list code_unit.

(** An ASCII literal of the source, as code units. *)
Definition lit (s : string) : jsstring :=
  map N_of_ascii (list_ascii_of_string s).

(** Template-literal interpolation [`${n}`] of a non-negative integer. *)
Definition of_nat (n : nat) : jsstring :=
  lit (NilEmpty.string_of_uint (Nat.to_uint n)).

Definition code_eqb (a b : code_unit) : bool := (a =? b)%N.

(** [strip_prefix p s] is [Some r] when [s = p ++ r]. *)
Fixpoint strip_prefix (p s : jsstring) : option jsstring :=
  match p, s with
  | [], _ => Some s
  | a :: p', b :: s' => if code_eqb a b then strip_prefix p' s' else None
  | _ :: _, [] => None
  end.

(** [s.replace(pat, rep)] with a string pattern: the first occurrence only. *)
Fixpoint replace_first (pat rep s : jsstring) : jsstring :=
  match strip_prefix pat s with
  | Some rest => rep ++ rest
  | None =>
      match s with
      | [] => []
      | c :: s' => c :: replace_first pat rep s'
      end
  end.

(** [parts.join(sep)]. *)
Fixpoint join (sep : jsstring) (parts : list jsstring) : jsstring :=
  match parts with
  | [] => []
  | [p] => p
  | p :: ps => p ++ sep ++ join sep ps
  end.

(** WhiteSpace and LineTerminator code points, the ones [trim] strips. *)
Definition is_space (c : code_unit) : bool :=
  ((9 <=? c) && (c <=? 13) || (c =? 32) || (c =? 160) || (c =? 5760)
   || (8192 <=? c) && (c <=? 8202) || (c =? 8232) || (c =? 8233)
   || (c =? 8239) || (c =? 8287) || (c =? 12288) || (c =? 65279))%N.

Fixpoint trim_start (s : jsstring) : jsstring :=
  match s with
  | [] => []
  | c :: s' => if is_space c then trim_start s' else s
  end.

Definition trim (s : jsstring) : jsstring :=
  rev (trim_start (rev (trim_start s))).

Definition full_stop : code_unit := 46%N.
Definition space : code_unit := 32%N.

(** The separator of [script.split('. ')]. *)
Definition sentence_sep : jsstring := [full_stop; space].

Definition push_front (c : code_unit) (parts : list jsstring) : list jsstring :=
  match parts with
  | [] => [[c]]
  | p :: ps => (c :: p) :: ps
  end.

(** [s.split('. ')]: cut at every occurrence of the two code units
    full stop, space, scanning left to right; the empty string gives
    one empty piece. *)
Fixpoint split_sentences (s : jsstring) : list jsstring :=
  match s with
  | [] => [[]]
  | c :: s' =>
      match s' with
      | [] => [[c]]
      | c' :: s'' =>
          if code_eqb c full_stop && code_eqb c' space
          then [] :: split_sentences s''
          else push_front c (split_sentences s')
      end
  end.

(** [sub] occurs in [s] as a contiguous substring. *)
Definition occurs (sub s : jsstring) : Prop :=
  ∃ l r, s = l ++ sub ++ r.

End JsString.
Import JsString.

(** ** [sanitizeFilename] *)

(** The character class [[a-z0-9\u4e00-\u9fff]] of the source. *)
Definition in_class (c : code_unit) : bool :=
  ((97 <=? c) && (c <=? 122) || (48 <=? c) && (c <=? 57)
   || (19968 <=? c) && (c <=? 40959))%N.

(** Canonicalisation of the [i] flag without the [u] flag: upper-casing,
    where a code unit outside ASCII never maps into ASCII.  On the members
    of the class and on what can reach them it only moves [a-z] to [A-Z]. *)
Definition canonicalize (c : code_unit) : code_unit :=
  if ((97 <=? c) && (c <=? 122))%N then (c - 32)%N else c.

(** A code unit is matched by the class under [/i] when its canonical form
    is the canonical form of a member: an upper-case letter, a digit or a
    code unit of U+4E00..U+9FFF. *)
Definition class_matches (c : code_unit) : bool :=
  let k := canonicalize c in
  ((65 <=? k) && (k <=? 90) || in_class k)%N.

Definition underscore : code_unit := 95%N.

(** What [replace] does to one code unit: a match of the negated class
    becomes ['_']. *)
Definition sanitize_char (c : code_unit) : code_unit :=
  if class_matches c then c else underscore.

(** [filename.replace(/[^a-z0-9\u4e00-\u9fff]/gi, '_').substring(0, 100)] *)
Definition sanitizeFilename (filename : jsstring) : jsstring :=
  take 100 (map sanitize_char filename).

(** The safe subset of the specification: ASCII letters and digits, the
    CJK block U+4E00..U+9FFF, and the underscore. *)
Definition is_alnum (c : code_unit) : bool :=
  ((48 <=? c) && (c <=? 57) || (65 <=? c) && (c <=? 90)
   || (97 <=? c) && (c <=? 122))%N.
Definition is_cjk (c : code_unit) : bool :=
  ((19968 <=? c) && (c <=? 40959))%N.
Definition safe_char (c : code_unit) : Prop :=
  is_alnum c = true ∨ is_cjk c = true ∨ c = underscore.

(** ** Segmentation: [parseScript] *)

(** A scene descriptor [{ id, text, duration }]. *)
Module Scene.
Record t := mk {
  id : nat;
  text : jsstring;
  duration : Q
}.
End Scene.

(** [Math.random()] is a stream of draws; the [k]-th callback of the
    [map] in [parseScript] consumes draw [k]. *)
Definition RandomSource := nat → Q.

(** The draws the runtime can produce: [0 <= r < 1]. *)
Definition unit_interval (rand : RandomSource) : Prop :=
  ∀ k, (0 <= rand k)%Q ∧ (rand k < 1)%Q.

(** [s.trim().length > 0] *)
Definition nonblank (s : jsstring) : bool :=
  bool_decide (0 < length (trim s)).

Definition sentences (script : jsstring) : list jsstring :=
  List.filter nonblank (split_sentences script).

(** [parseScript(script)]:
    split on ['. '], keep the pieces that are not blank, and map each with
    its index to [{ id: index, text: sentence.trim(),
    duration: 3 + Math.random() * 2 }]. *)
Definition parseScript (script : jsstring) (rand : RandomSource) : list Scene.t :=
  imap (λ index sentence,
          {| Scene.id := index;
             Scene.text := trim sentence;
             Scene.duration := (3 + rand index * 2)%Q |})
       (sentences script).

(** The sum of the scene durations. *)
Definition total_duration (scenes : list Scene.t) : Q :=
  foldr (λ sc acc, (Scene.duration sc + acc)%Q) 0%Q scenes.

(** ** The world of the pipeline *)

Definition path := jsstring.

(** What the pipeline asks of ffmpeg.  The drawtext filter, pixel format
    and codec options do not influence control flow and are left out. *)
Inductive FfmpegJob :=
| SceneJob (scene_text : jsstring) (seconds : Q) (output : path)
| ConcatJob (list_file : path) (list_content : jsstring) (output : path)
| OptimizeJob (input : path) (resolution bitrate : jsstring) (output : path)
| ThumbnailJob (input : path) (timestamp : jsstring) (output : path).

Inductive FileData :=
| Text (content : jsstring)
| Media.

Inductive JsError :=
| Error (message : jsstring)            (* new Error(message) *)
| TypeError (message : jsstring)
| FfmpegError (job : FfmpegJob)         (* the 'error' event of a command *)
| ENOENT (p : path).                    (* fs failure on a missing file *)

(** Entries written by [ErrorHandler.handle] and by [logger.warn] in
    [cleanup]; info and debug lines are not recorded. *)
Inductive LogEntry :=
| Handled (context : jsstring) (e : JsError)
| UnlinkFailed (file : path) (e : JsError).

(** The files are kept under the path that names them in normal form, as
    [path.join] builds it; all paths are read from one working directory,
    and two different normal forms are taken to be two files (no links). *)
Record World := mkWorld {
  files : gmap path FileData;
  calls : list FfmpegJob;
  log : list LogEntry
}.

Inductive Outcome (A : Type) :=
| Ret (a : A)
| Throw (e : JsError).
Arguments Ret {A} a.
Arguments Throw {A} e.

(** An [async] function: runs on a world, ends in a value or an exception. *)
Definition Async (A : Type) : Type := World → Outcome A * World.

Definition ret {A} (a : A) : Async A := λ w, (Ret a, w).
Definition throw {A} (e : JsError) : Async A := λ w, (Throw e, w).
Definition bind {A B} (m : Async A) (k : A → Async B) : Async B :=
  λ w, match m w with
       | (Ret a, w') => k a w'
       | (Throw e, w') => (Throw e, w')
       end.
(** [try { body } catch (error) { handler(error) }] *)
Definition try_catch {A} (body : Async A) (handler : JsError → Async A) : Async A :=
  λ w, match body w with
       | (Ret a, w') => (Ret a, w')
       | (Throw e, w') => handler e w'
       end.

Declare Scope async_scope.
Delimit Scope async_scope with async.
Notation "'let*' x ':=' m 'in' k" := (bind m (λ x, k))
  (at level 10, x name, m at level 100, k at level 200) : async_scope.
Notation "m '>>' k" := (bind m (λ _, k))
  (at level 100, right associativity) : async_scope.
Open Scope async_scope.

Definition log_entry (e : LogEntry) : Async unit :=
  λ w, (Ret (), {| files := files w; calls := calls w; log := log w ++ [e] |}).

(** [ErrorHandler.handle(error, context)]: only logs. *)
Definition handle (e : JsError) (context : jsstring) : Async unit :=
  log_entry (Handled context e).

(** [ErrorHandler.safeExecute(fn, context, fallback)]:
    [try { return await fn(); } catch (error) { this.handle(error, context);
    return fallback; }] *)
Definition safeExecute {A} (fn : Async A) (context : jsstring) (fallback : A) : Async A :=
  try_catch fn (λ e, handle e context >> ret fallback).

(** [fs.writeFile(file, content)] *)
Definition writeFile (file : path) (content : jsstring) : Async unit :=
  λ w, (Ret (), {| files := <[file := Text content]> (files w);
                   calls := calls w; log := log w |}).

(** [fs.unlink(file)]: rejects when the file does not exist. *)
Definition unlink (file : path) : Async unit :=
  λ w, match files w !! file with
       | Some _ => (Ret (), {| files := delete file (files w);
                               calls := calls w; log := log w |})
       | None => (Throw (ENOENT file), w)
       end.

Definition output_of (job : FfmpegJob) : path :=
  match job with
  | SceneJob _ _ o | ConcatJob _ _ o | OptimizeJob _ _ _ o | ThumbnailJob _ _ o => o
  end.

(** A JavaScript value that is a path or [null]; [truthy] is the test of
    [if (p)], [!p], [p || q] and [filter(p => p)]. *)
Definition truthy (p : option path) : bool :=
  match p with
  | Some (_ :: _) => true
  | _ => false
  end.
Definition truthy_paths (ps : list (option path)) : list path :=
  omap (λ p, if truthy p then p else None) ps.

(** ** [VideoEditor] *)

(** [scriptData] and [options] of [createVideoFromScript]; of the merged
    object [{ ...scriptData, ...options }] the code reads [title],
    [script] and [duration] ([resolution] and [fps] are never used). *)
Record ScriptData := mkScriptData {
  title : jsstring;
  script : jsstring;
  sd_duration : option Q
}.
Record Options := mkOptions {
  opt_duration : option Q
}.

(** ** [QueueService] *)

Module Bull.

(** The part of a Bull queue the service touches.  Bull itself is a
    dependency outside the repository: a queue is a table of jobs and a
    pause flag, [getJob] is a lookup that yields [null] on a miss.  A job
    that waits in a paused queue is in the state [paused]. *)
Inductive JobState := waiting | paused | active | completed | failed | delayed.

Inductive BackoffType := fixed | exponential.

(** The options object handed to [queue.add(name, data, opts)]. *)
Record JobOptions := mkOpts {
  priority : Z;
  attempts : nat;
  backoff_type : BackoffType;
  backoff_delay : N;
  removeOnComplete : nat;
  removeOnFail : nat
}.

Inductive JobData :=
| GenerateVideo (scriptData : ScriptData) (options : Options)
| AnalyzeTrends
| UploadVideo (videoPath : path)
| AIProcessing (type : jsstring).

Record Job := mkJob {
  id : jsstring;
  name : jsstring;
  data : JobData;
  opts : JobOptions;
  progress : nat;
  state : JobState;
  timestamp : N;
  processedOn : option N;
  finishedOn : option N;
  failedReason : option jsstring;
  returnvalue : option jsstring
}.

Record Queue := mkQueue {
  jobs : gmap jsstring Job;
  counter : nat;
  is_paused : bool
}.

Definition getJob (q : Queue) (jobId : jsstring) : option Job := jobs q !! jobId.

(** [queue.add(name, data, opts)] at time [now], when the store accepts
    it: a fresh job, waiting, or paused when the queue is. *)
Definition add (q : Queue) (name : jsstring) (data : JobData) (opts : JobOptions)
    (now : N) : Job * Queue :=
  let job := {| id := of_nat (S (counter q)); name := name; data := data;
                opts := opts; progress := 0;
                state := if is_paused q then paused else waiting;
                timestamp := now; processedOn := None; finishedOn := None;
                failedReason := None; returnvalue := None |} in
  (job, {| jobs := <[id job := job]> (jobs q); counter := S (counter q);
           is_paused := is_paused q |}).

(** The jobs [getWaiting], [getActive], [getCompleted], [getFailed] and
    [getDelayed] return; [getWaiting] returns the paused jobs as well. *)
Definition in_state (s : JobState) (j : Job) : bool :=
  match s, state j with
  | waiting, waiting | waiting, paused | paused, paused
  | active, active | completed, completed
  | failed, failed | delayed, delayed => true
  | _, _ => false
  end.

Definition count (s : JobState) (q : Queue) : nat :=
  length (List.filter (λ kj, in_state s kj.2) (map_to_list (jobs q))).

(** [queue.empty()]: drops the jobs that are not yet running or done. *)
Definition empty (q : Queue) : Queue :=
  {| jobs := filter (λ kj, in_state waiting kj.2 = false ∧ in_state delayed kj.2 = false)
                    (jobs q);
     counter := counter q; is_paused := is_paused q |}.

Definition with_state (s : JobState) (j : Job) : Job :=
  {| id := id j; name := name j; data := data j; opts := opts j;
     progress := progress j; state := s; timestamp := timestamp j;
     processedOn := processedOn j; finishedOn := finishedOn j;
     failedReason := failedReason j; returnvalue := returnvalue j |}.

(** [queue.pause()] and [queue.resume()]: the waiting jobs become paused,
    and back. *)
Definition pause (q : Queue) : Queue :=
  {| jobs := (λ j, match state j with
                   | waiting => with_state paused j
                   | _ => j
                   end) <$> jobs q;
     counter := counter q; is_paused := true |}.
Definition resume (q : Queue) : Queue :=
  {| jobs := (λ j, match state j with
                   | paused => with_state waiting j
                   | _ => j
                   end) <$> jobs q;
     counter := counter q; is_paused := false |}.

Definition fresh : Queue := {| jobs := ∅; counter := 0; is_paused := false |}.

End Bull.

(** The object returned by [getJobStatus]. *)
Record JobStatus := mkStatus {
  st_id : jsstring;
  st_data : Bull.JobData;
  st_progress : nat;
  st_state : Bull.JobState;
  st_createdAt : N;
  st_processedAt : option N;
  st_finishedAt : option N;
  st_failedReason : option jsstring;
  st_returnValue : option jsstring
}.

(** [this.queues]: a plain object used as a map from queue name to queue. *)
Record QueueService := mkService {
  queues : gmap jsstring Bull.Queue
}.

(** The properties every plain object inherits from [Object.prototype]. *)
Definition object_prototype_properties : list jsstring :=
  map lit ["constructor"; "__proto__"; "hasOwnProperty"; "isPrototypeOf";
           "propertyIsEnumerable"; "toLocaleString"; "toString"; "valueOf";
           "__defineGetter__"; "__defineSetter__"; "__lookupGetter__";
           "__lookupSetter__"]%string.

(** The value of the property read [this.queues[queueName]].  The object
    is created as [{}], so a name that is not an own property is looked up
    in [Object.prototype] before the read yields [undefined]. *)
Inductive Property :=
| OwnQueue (q : Bull.Queue)
| Inherited (name : jsstring)      (* a member of Object.prototype: truthy *)
| Undefined.

Definition get_queue (svc : QueueService) (queueName : jsstring) : Property :=
  match queues svc !! queueName with
  | Some q => OwnQueue q
  | None =>
      if bool_decide (queueName ∈ object_prototype_properties)
      then Inherited queueName
      else Undefined
  end.

(** The message prefix of [new Error(`...: ${queueName}`)]. *)
Definition queue_missing : jsstring :=
  [38431; 21015; 19981; 23384; 22312; 58; 32]%N.

Definition unknown_queue (queueName : jsstring) : JsError :=
  Error (queue_missing ++ queueName).

(** Calling a method that the looked-up value does not have. *)
Definition not_a_function (method : string) : JsError :=
  TypeError (lit "this.queues[queueName]." ++ lit method ++ lit " is not a function").

(** The same for a call through the local [queue] of [getQueueStats]. *)
Definition queue_not_a_function (method : string) : JsError :=
  TypeError (lit "queue." ++ lit method ++ lit " is not a function").

(** Reading a method off [undefined]. *)
Definition cannot_read (method : string) : JsError :=
  TypeError (lit "Cannot read properties of undefined (reading '" ++ lit method
             ++ lit "')").

(** [init()]: the four queues of the constructor. *)
Definition init : QueueService :=
  {| queues := <[lit "videoGeneration" := Bull.fresh]>
               (<[lit "trendAnalysis" := Bull.fresh]>
               (<[lit "videoUpload" := Bull.fresh]>
               (<[lit "aiProcessing" := Bull.fresh]> ∅))) |}.

Definition registered (svc : QueueService) (queueName : jsstring) : Prop :=
  is_Some (queues svc !! queueName).

Definition videoGenerationOptions (priority : Z) : Bull.JobOptions :=
  {| Bull.priority := priority; Bull.attempts := 3;
     Bull.backoff_type := Bull.exponential; Bull.backoff_delay := 2000;
     Bull.removeOnComplete := 10; Bull.removeOnFail := 5 |}.

Definition trendAnalysisOptions (priority : Z) : Bull.JobOptions :=
  {| Bull.priority := priority; Bull.attempts := 2;
     Bull.backoff_type := Bull.fixed; Bull.backoff_delay := 5000;
     Bull.removeOnComplete := 5; Bull.removeOnFail := 3 |}.

Definition add_to (svc : QueueService) (key : jsstring) (name : jsstring)
    (data : Bull.JobData) (opts : Bull.JobOptions) (now : N)
  : Outcome Bull.Job * QueueService :=
  match get_queue svc key with
  | OwnQueue q =>
      let '(job, q') := Bull.add q name data opts now in
      (Ret job, {| queues := <[key := q']> (queues svc) |})
  | Inherited _ => (Throw (not_a_function "add"), svc)
  | Undefined => (Throw (cannot_read "add"), svc)
  end.

(** [addVideoGenerationJob(scriptData, options = {}, priority = 0)] *)
Definition addVideoGenerationJob (svc : QueueService) (scriptData : ScriptData)
    (options : Options) (priority : Z) (now : N) :=
  add_to svc (lit "videoGeneration") (lit "generateVideo")
         (Bull.GenerateVideo scriptData options) (videoGenerationOptions priority) now.

(** [addTrendAnalysisJob(priority = 0)] *)
Definition addTrendAnalysisJob (svc : QueueService) (priority : Z) (now : N) :=
  add_to svc (lit "trendAnalysis") (lit "analyzeTrends")
         Bull.AnalyzeTrends (trendAnalysisOptions priority) now.

(** [getJobStatus(queueName, jobId)] *)
Definition getJobStatus (svc : QueueService) (queueName jobId : jsstring)
  : Outcome (option JobStatus) :=
  match get_queue svc queueName with
  | Undefined => Throw (unknown_queue queueName)
  | Inherited _ => Throw (not_a_function "getJob")
  | OwnQueue q =>
      match Bull.getJob q jobId with
      | None => Ret None
      | Some job =>
          Ret (Some {| st_id := Bull.id job; st_data := Bull.data job;
                       st_progress := Bull.progress job;
                       st_state := Bull.state job;
                       st_createdAt := Bull.timestamp job;
                       st_processedAt := Bull.processedOn job;
                       st_finishedAt := Bull.finishedOn job;
                       st_failedReason := Bull.failedReason job;
                       st_returnValue := Bull.returnvalue job |})
      end
  end.

Record QueueStats := mkStats {
  n_waiting : nat; n_active : nat; n_completed : nat; n_failed : nat; n_delayed : nat
}.

(** [getQueueStats(queueName)] on a store that answers the five reads;
    [getQueueStats_reading] below has reads that can reject. *)
Definition getQueueStats (svc : QueueService) (queueName : jsstring)
  : Outcome QueueStats :=
  match get_queue svc queueName with
  | Undefined => Throw (unknown_queue queueName)
  | Inherited _ => Throw (queue_not_a_function "getWaiting")
  | OwnQueue q =>
      Ret {| n_waiting := Bull.count Bull.waiting q;
             n_active := Bull.count Bull.active q;
             n_completed := Bull.count Bull.completed q;
             n_failed := Bull.count Bull.failed q;
             n_delayed := Bull.count Bull.delayed q |}
  end.

(** The common shape of [clearQueue], [pauseQueue] and [resumeQueue]:
    the guard, then one method of the queue. *)
Definition queue_command (method : string) (f : Bull.Queue → Bull.Queue)
    (svc : QueueService) (queueName : jsstring) : Outcome unit * QueueService :=
  match get_queue svc queueName with
  | Undefined => (Throw (unknown_queue queueName), svc)
  | Inherited _ => (Throw (not_a_function method), svc)
  | OwnQueue q => (Ret (), {| queues := <[queueName := f q]> (queues svc) |})
  end.

Definition clearQueue := queue_command "empty" Bull.empty.
Definition pauseQueue := queue_command "pause" Bull.pause.
Definition resumeQueue := queue_command "resume" Bull.resume.

(** ** Constants of the file names *)

(** The pattern of [videoPath.replace('.mp4', ...)]. *)
Definition mp4 : jsstring := lit ".mp4".

(** The separator of [path.join]. *)
Definition slash : code_unit := 47%N.

(** ** [path.join] of Node (POSIX) *)

(** [s.split('/')] *)
Fixpoint segments (s : jsstring) : list jsstring :=
  match s with
  | [] => [[]]
  | c :: s' => if code_eqb c slash then [] :: segments s'
               else push_front c (segments s')
  end.









(** ** Replacement patterns *)

Definition dollar : code_unit := 36%N.

(** The replacement text of [s.replace(pat, rep)] for a string pattern:
    in [rep], [$$] stands for a dollar sign, [$&] for the match, [$`] for
    the text before the match and [$'] for the text after it; every other
    dollar sign stands for itself. *)
Fixpoint expand_replacement (matched before after rep : jsstring) : jsstring :=
  match rep with
  | [] => []
  | c :: rep' =>
      if code_eqb c dollar then
        match rep' with
        | [] => [c]
        | c' :: rep'' =>
            if code_eqb c' dollar
            then dollar :: expand_replacement matched before after rep''
            else if code_eqb c' 38%N
            then matched ++ expand_replacement matched before after rep''
            else if code_eqb c' 96%N
            then before ++ expand_replacement matched before after rep''
            else if code_eqb c' 39%N
            then after ++ expand_replacement matched before after rep''
            else c :: expand_replacement matched before after rep'
        end
      else c :: expand_replacement matched before after rep'
  end.

(** [s.replace(pat, rep)] with its patterns, scanning [s] after [before]. *)
Fixpoint replace_from (pat rep before s : jsstring) : jsstring :=
  match strip_prefix pat s with
  | Some rest => expand_replacement pat before rest rep ++ rest
  | None =>
      match s with
      | [] => []
      | c :: s' => c :: replace_from pat rep (before ++ [c]) s'
      end
  end.

Definition replace_expanding (pat rep s : jsstring) : jsstring :=
  replace_from pat rep [] s.

(** What [.size(undefined)] of the encoder wrapper throws. *)
Definition size_of_undefined : JsError :=
  TypeError (lit "Cannot read properties of undefined (reading 'match')").

(** ** [YouTubeAutomation] *)

(** A content idea as [createAndPublishVideo] meets it: the parsed JSON of
    a generated script, the raw text that did not parse ([{ script, raw:
    true }]), or [null].  A parsed script is taken to carry a [title] and a
    [script], as [ScriptData] has them. *)
Inductive Idea :=
| ParsedIdea (scriptData : ScriptData)
| RawIdea (script : jsstring)
| NullIdea.

(** The reply of [optimizeVideoMetadata]: [null] when the text generation
    failed, else a cached object or the generated text. *)
Inductive MetadataReply :=
| ReplyNull
| ReplyObject (optimized_title : option jsstring)
| ReplyText (text : jsstring).

(** What [JSON.parse] makes of a metadata text: it throws, or yields
    [null], or a value whose [optimized_title] is read ([None] when the
    value has no such property). *)
Inductive ParsedMetadata :=
| ParseError
| ParsedNull
| ParsedObject (optimized_title : option jsstring).

Record UploadResult := mkUploadResult {
  videoId : jsstring;
  url : jsstring
}.

(** [uploadVideo] throws when the service is not authenticated, returns
    [null] when the upload failed, else the uploaded video. *)
Inductive UploadOutcome :=
| UploadThrows (e : JsError)
| UploadNull
| Uploaded (r : UploadResult).

(** The arguments of [uploadVideo(videoPath, { title, thumbnailPath, ... })]. *)
Record UploadCall := mkUploadCall {
  upload_file : path;
  upload_title : jsstring;
  upload_thumbnail : option path
}.

(** The collaborators of [createAndPublishVideo] besides the video editor,
    by what they return in the one call each receives; what they log
    themselves is not recorded. *)
Record Collaborators := mkCollaborators {
  (** [generateContentIdeas(1)].ideas: [None] when the property is missing
      (the fallback [[]] of a failed call). *)
  content_ideas : option (list Idea);
  (** [JSON.parse(idea.script)] of a raw idea; [None] when it throws. *)
  parse_script : jsstring → option ScriptData;
  optimizeVideoMetadata : ScriptData → Outcome MetadataReply;
  parse_metadata : jsstring → ParsedMetadata;
  uploadVideo : UploadCall → UploadOutcome
}.

(** The counters of the automation and the uploads it has requested. *)
Record Automation := mkAutomation {
  videoCount : Z;
  maxVideosPerDay : Z;
  uploads : list UploadCall
}.

Definition no_ideas : jsstring :=
  [26080; 27861; 29983; 25104; 20869; 23481; 21019; 24847]%N.
Definition trending_title : jsstring :=
  [28909; 38376; 35805; 39064; 35270; 39057]%N.

Definition null_property (name : string) : JsError :=
  TypeError (lit "Cannot read properties of null (reading '" ++ lit name ++ lit "')").

(** [scriptData] as chosen from the first idea. *)
Definition idea_scriptData (c : Collaborators) (idea : Idea) : Outcome ScriptData :=
  match idea with
  | NullIdea => Throw (null_property "title")
  | ParsedIdea scriptData => Ret scriptData
  | RawIdea text =>
      match parse_script c text with
      | Some scriptData => Ret scriptData
      | None => Ret {| title := trending_title; script := text; sd_duration := None |}
      end
  end.

(** [metadata] after the [typeof]/[JSON.parse] step and its fallback;
    [None] is [null]. *)
Definition upload_metadata (c : Collaborators) (reply : MetadataReply)
    (scriptData : ScriptData) : option (option jsstring) :=
  match reply with
  | ReplyNull => None
  | ReplyObject t => Some t
  | ReplyText text =>
      match parse_metadata c text with
      | ParseError => Some (Some (title scriptData))
      | ParsedNull => None
      | ParsedObject t => Some t
      end
  end.

(** [a || b] on strings. *)
Definition or_else (a : option jsstring) (b : jsstring) : jsstring :=
  match a with
  | Some (c :: s) => c :: s
  | _ => b
  end.

(** What the function that [createAndPublishVideo] passes to
    [safeExecute] has done when it is about to touch the counter: it threw
    before [uploadVideo] was called, or it called [uploadVideo] and that
    call settled.  Up to there it neither reads nor writes [this.videoCount]. *)
Inductive Completion :=
| NoUpload (e : JsError)
| UploadSettled (call : UploadCall) (outcome : UploadOutcome).

(** The guard [this.videoCount >= this.maxVideosPerDay], evaluated when
    the method is called. *)
Definition cap_reached (a : Automation) : bool :=
  (maxVideosPerDay a <=? videoCount a)%Z.

(** The end of the function, on the counters as they are when the upload
    has settled: [this.videoCount++] runs when [uploadVideo] returned, and
    reading [uploadResult.videoId] of [null] throws after the increment. *)
Definition settle (a : Automation) (k : Completion) : Outcome UploadResult * Automation :=
  match k with
  | NoUpload e => (Throw e, a)
  | UploadSettled call outcome =>
      let requested :=
        {| videoCount := videoCount a;
           maxVideosPerDay := maxVideosPerDay a;
           uploads := uploads a ++ [call] |} in
      let counted :=
        {| videoCount := videoCount a + 1;
           maxVideosPerDay := maxVideosPerDay a;
           uploads := uploads a ++ [call] |} in
      match outcome with
      | UploadThrows e => (Throw e, requested)
      | UploadNull => (Throw (null_property "videoId"), counted)
      | Uploaded r => (Ret r, counted)
      end
  end.

(** *** Calls that overlap

    Between the guard and the increment the method awaits the ideas, the
    encoder, the metadata and the upload, and other calls run meanwhile
    (one per publishing task at a two-hour mark, or a request to run once).
    What happens to the counters is a sequence of events: a call starts and
    evaluates the guard, a call that passed the guard reaches the end of
    its function, the midnight task resets the counter. *)
Inductive CallEvent :=
| CallStarts
| CallSettles (k : Completion)
| MidnightReset.

(** The counters, and the number of calls that passed the guard and have
    not settled yet. *)
Record Calls := mkCalls {
  automation : Automation;
  in_flight : nat
}.

Definition call_event (s : Calls) (e : CallEvent) : Calls :=
  match e with
  | CallStarts =>
      if cap_reached (automation s) then s
      else {| automation := automation s; in_flight := S (in_flight s) |}
  | CallSettles k =>
      match in_flight s with
      | O => s
      | S n => {| automation := (settle (automation s) k).2; in_flight := n |}
      end
  | MidnightReset =>
      {| automation := {| videoCount := 0;
                          maxVideosPerDay := maxVideosPerDay (automation s);
                          uploads := uploads (automation s) |};
         in_flight := in_flight s |}
  end.

Definition call_events (s : Calls) (events : list CallEvent) : Calls :=
  foldl call_event s events.

(** The largest number of calls in flight at any moment of the run. *)
Fixpoint peak (s : Calls) (events : list CallEvent) : nat :=
  match events with
  | [] => in_flight s
  | e :: rest => Nat.max (in_flight s) (peak (call_event s e) rest)
  end.

(** No call in flight. *)
Definition idle (a : Automation) : Calls := {| automation := a; in_flight := 0 |}.

(** ** More of [QueueService] *)

Definition videoUploadOptions (priority : Z) : Bull.JobOptions :=
  {| Bull.priority := priority; Bull.attempts := 3;
     Bull.backoff_type := Bull.exponential; Bull.backoff_delay := 3000;
     Bull.removeOnComplete := 10; Bull.removeOnFail := 5 |}.

Definition aiProcessingOptions (priority : Z) : Bull.JobOptions :=
  {| Bull.priority := priority; Bull.attempts := 2;
     Bull.backoff_type := Bull.fixed; Bull.backoff_delay := 1000;
     Bull.removeOnComplete := 20; Bull.removeOnFail := 10 |}.

(** [addVideoUploadJob(videoPath, metadata, priority = 0)] *)
Definition addVideoUploadJob (svc : QueueService) (videoPath : path) (priority : Z)
    (now : N) :=
  add_to svc (lit "videoUpload") (lit "uploadVideo")
         (Bull.UploadVideo videoPath) (videoUploadOptions priority) now.

(** [addAIProcessingJob(type, data, priority = 0)].  The job is named
    [type] and its data is [{ type, ...data }]: the spread comes second, so
    an own [type] property of [data] ([data_type], [None] when there is
    none) replaces the argument. *)
Definition addAIProcessingJob (svc : QueueService) (type : jsstring)
    (data_type : option jsstring) (priority : Z) (now : N) :=
  add_to svc (lit "aiProcessing") type
         (Bull.AIProcessing (default type data_type)) (aiProcessingOptions priority) now.

(** The counts [getQueueStats] reports for a queue. *)
Definition stats_of (q : Bull.Queue) : QueueStats :=
  {| n_waiting := Bull.count Bull.waiting q;
     n_active := Bull.count Bull.active q;
     n_completed := Bull.count Bull.completed q;
     n_failed := Bull.count Bull.failed q;
     n_delayed := Bull.count Bull.delayed q |}.

(** The five reads of [getQueueStats] go to the Redis store of the queue
    and reject when it does not answer; neither [getQueueStats] nor
    [getAllStats] catches that.  [reads name] is the error of the reads of
    the queue registered as [name], [None] when they answer;
    [getQueueStats] above is the method on a store that answers. *)
Definition getQueueStats_reading (reads : jsstring → option JsError)
    (svc : QueueService) (queueName : jsstring) : Outcome QueueStats :=
  match getQueueStats svc queueName, reads queueName with
  | Ret _, Some e => Throw e
  | result, _ => result
  end.

(** [getAllStats()]: [for (const [name, queue] of Object.entries(this.queues))
    stats[name] = await this.getQueueStats(name)], over the entries in the
    order of the table. *)
Definition getAllStats_step (reads : jsstring → option JsError) (svc : QueueService)
    (acc : Outcome (gmap jsstring QueueStats)) (entry : jsstring * Bull.Queue)
  : Outcome (gmap jsstring QueueStats) :=
  match acc with
  | Throw e => Throw e
  | Ret stats =>
      match getQueueStats_reading reads svc entry.1 with
      | Ret s => Ret (<[entry.1 := s]> stats)
      | Throw e => Throw e
      end
  end.

Definition getAllStats_loop (reads : jsstring → option JsError) (svc : QueueService)
    (entries : list (jsstring * Bull.Queue)) (stats : gmap jsstring QueueStats)
  : Outcome (gmap jsstring QueueStats) :=
  foldl (getAllStats_step reads svc) (Ret stats) entries.

Definition getAllStats (reads : jsstring → option JsError) (svc : QueueService)
  : Outcome (gmap jsstring QueueStats) :=
  getAllStats_loop reads svc (map_to_list (queues svc)) ∅.

(** *** The processor of the [aiProcessing] queue *)

Inductive AITask := TaskGenerateScript | TaskOptimizeMetadata | TaskAnalyzeTrends.

(** The [switch (job.data.type)]. *)
Definition ai_task (type : jsstring) : option AITask :=
  if bool_decide (type = lit "generateScript") then Some TaskGenerateScript
  else if bool_decide (type = lit "optimizeMetadata") then Some TaskOptimizeMetadata
  else if bool_decide (type = lit "analyzeTrends") then Some TaskAnalyzeTrends
  else None.

(** [job.data.type]; only the data of an AI job has the property. *)
Definition job_type (job : Bull.Job) : option jsstring :=
  match Bull.data job with
  | Bull.AIProcessing type => Some type
  | _ => None
  end.

(** [new Error(`...: ${job.data.type}`)] of the [default] branch. *)
Definition unknown_ai_task (type : option jsstring) : JsError :=
  Error ([26410; 30693; 30340; 65; 73; 20219; 21153; 31867; 22411; 58; 32]%N
         ++ default (lit "undefined") type).

(** The processor, given what the OpenAI service answers for each task:
    the outcome of the job and the last progress it reported. *)
Definition aiProcessing_processor {R} (openai : AITask → Outcome R) (job : Bull.Job)
  : Outcome R * nat :=
  match job_type job ≫= ai_task with
  | Some task =>
      match openai task with
      | Ret result => (Ret result, 100)
      | Throw e => (Throw e, 10)
      end
  | None => (Throw (unknown_ai_task (job_type job)), 10)
  end.

(** *** The states of the service *)

(** One step of the service: one of its methods, or Bull working on the
    jobs of a registered queue, or a call that Bull rejects (the store
    does not answer) and that changes nothing. *)
Inductive service_step (svc : QueueService) : QueueService → Prop :=
| step_addVideoGenerationJob scriptData options priority now :
    service_step svc (addVideoGenerationJob svc scriptData options priority now).2
| step_addTrendAnalysisJob priority now :
    service_step svc (addTrendAnalysisJob svc priority now).2
| step_addVideoUploadJob videoPath priority now :
    service_step svc (addVideoUploadJob svc videoPath priority now).2
| step_addAIProcessingJob type data_type priority now :
    service_step svc (addAIProcessingJob svc type data_type priority now).2
| step_clearQueue queueName : service_step svc (clearQueue svc queueName).2
| step_pauseQueue queueName : service_step svc (pauseQueue svc queueName).2
| step_resumeQueue queueName : service_step svc (resumeQueue svc queueName).2
| step_bull queueName q q' :
    queues svc !! queueName = Some q →
    service_step svc {| queues := <[queueName := q']> (queues svc) |}
| step_rejected : service_step svc svc.

(** The states the service can be in after its constructor. *)
Inductive reachable : QueueService → Prop :=
| reachable_init : reachable init
| reachable_step svc svc' : reachable svc → service_step svc svc' → reachable svc'.

(** *** The job route of the web application *)




(** ** [OpenAIService.hashString] and the cache keys *)

(** [ToInt32]: the signed 32-bit integer congruent to [z]. *)
Definition to_int32 (z : Z) : Z := ((z + 2 ^ 31) mod 2 ^ 32 - 2 ^ 31)%Z.

(** One round of the loop: [hash = ((hash << 5) - hash) + char; hash = hash & hash]. *)
Definition hash_round (hash : Z) (char : code_unit) : Z :=
  to_int32 (to_int32 (Z.shiftl (to_int32 hash) 5) - hash + Z.of_N char)%Z.

(** The value of [hash] after the loop. *)
Definition hash_value (str : jsstring) : Z := foldl hash_round 0%Z str.

(** [Number.prototype.toString()] of an integer. *)
Definition of_Z (z : Z) : jsstring :=
  if (z <? 0)%Z then lit "-" ++ of_nat (Z.to_nat (- z)) else of_nat (Z.to_nat z).

(** What [hashString] returns: the number [0] for the empty string, else
    the decimal string of the hash. *)
Inductive HashResult :=
| HashNumber (hash : Z)
| HashText (text : jsstring).

Definition hashString (str : jsstring) : HashResult :=
  match str with
  | [] => HashNumber 0
  | _ => HashText (of_Z (hash_value str))
  end.

(** A hash inside a template literal or [join]. *)
Definition hash_text (h : HashResult) : jsstring :=
  match h with
  | HashNumber hash => of_Z hash
  | HashText text => text
  end.

(** [CacheService.getCacheKey(prefix, ...parts)] *)
Definition getCacheKey (prefix : jsstring) (parts : list jsstring) : jsstring :=
  prefix ++ lit ":" ++ join (lit ":") parts.

(** The key of [optimizeVideoMetadata(title, description, tags)]. *)
Definition metadata_cache_key (title description : jsstring) : jsstring :=
  getCacheKey (lit "metadata_optimization")
    [hash_text (hashString (title ++ lit "_" ++ description))].

(** The key of [generateVideoScript(topic, duration)] for a whole number
    of seconds. *)
Definition script_cache_key (topic : jsstring) (duration : nat) : jsstring :=
  getCacheKey (lit "video_script")
    [hash_text (hashString (topic ++ lit "_" ++ of_nat duration))].

(** The hash as a formula: the polynomial in 31 over the code units. *)
Definition polynomial (str : jsstring) : Z :=
  foldl (λ h char, 31 * h + Z.of_N char)%Z 0%Z str.

(** ** [OpenAIService.smartRetry] *)

Section SmartRetry.

(** The results of [fn] and the errors it throws, taken to be objects;
    [response_status] is [error.response?.status], a whole number, or
    [None] when there is no response or no status. *)
Variables (A E : Type).
Variable response_status : E → option Z.

(** What [smartRetry] does after a failed attempt number [i] (counted
    from 0): wait that many milliseconds and go on, or give up. *)
Definition retry_delay (i : nat) (error : E) : option Z :=
  match response_status error with
  | Some status =>
      if (status =? 429)%Z then Some (Z.min (1000 * 2 ^ Z.of_nat i) 10000)
      else if (500 <=? status)%Z then Some (1000 * (Z.of_nat i + 1))%Z
      else None
  | None => None
  end.

(** How a call of [smartRetry] ends; [lastError] is still [undefined]
    when the loop body never ran. *)
Inductive RetryResult :=
| Returned (value : A)
| Rethrown (lastError : option E).

Record RetryRun := mkRetryRun {
  retry_result : RetryResult;
  retry_calls : nat;           (* how often [fn] was called *)
  retry_waits : list Z         (* the delays waited, in order *)
}.

(** The loop from attempt [i] on with [remaining] attempts left; [fn k]
    is the outcome of the call of [fn] in attempt [k]. *)
Fixpoint retry_loop (fn : nat → A + E) (i remaining : nat) (lastError : option E)
    (waits : list Z) : RetryRun :=
  match remaining with
  | 0 => {| retry_result := Rethrown lastError; retry_calls := i; retry_waits := waits |}
  | S remaining =>
      match fn i with
      | inl value =>
          {| retry_result := Returned value; retry_calls := S i; retry_waits := waits |}
      | inr error =>
          match retry_delay i error with
          | Some delay => retry_loop fn (S i) remaining (Some error) (waits ++ [delay])
          | None =>
              {| retry_result := Rethrown (Some error); retry_calls := S i;
                 retry_waits := waits |}
          end
      end
  end.

(** [smartRetry(fn, maxRetries = 3)] for a whole number of retries. *)
Definition smartRetry (fn : nat → A + E) (maxRetries : nat) : RetryRun :=
  retry_loop fn 0 maxRetries None [].

(** Attempt [k] failed with an error that is retried. *)
Definition retried (fn : nat → A + E) (k : nat) : Prop :=
  ∃ error delay, fn k = inr error ∧ retry_delay k error = Some delay.

End SmartRetry.

Arguments retry_delay {E} response_status i error.
Arguments Returned {A E} value.
Arguments Rethrown {A E} lastError.
Arguments mkRetryRun {A E} _ _ _.
Arguments retry_result {A E} _.
Arguments retry_calls {A E} _.
Arguments retry_waits {A E} _.
Arguments retry_loop {A E} response_status fn i remaining lastError waits.
Arguments smartRetry {A E} response_status fn maxRetries.
Arguments retried {A E} response_status fn k.

(** ** [YouTubeAccountManager] *)

Definition token_prefix : jsstring := lit "youtube_token_".
Definition token_suffix : jsstring := lit ".json".

(** [`youtube_token_${name}.json`], the file name inside [getTokenPath]. *)
Definition token_file (name : jsstring) : jsstring :=
  token_prefix ++ name ++ token_suffix.

(** [f.startsWith(p)] *)
Definition startsWith (p f : jsstring) : bool :=
  bool_decide (take (length p) f = p).

(** [f.endsWith(s)] *)
Definition endsWith (s f : jsstring) : bool :=
  bool_decide (drop (length f - length s) f = s).

(** [f.slice(from, -from_end)] for positive [from_end]. *)
Definition slice (from from_end : nat) (f : jsstring) : jsstring :=
  take (length f - from_end - from) (drop from f).

(** [listAccounts()], as a function of what [fs.readdir] returns. *)
Definition listAccounts (files : list jsstring) : list jsstring :=
  map (slice (length token_prefix) (length token_suffix))
      (filter (λ f, startsWith token_prefix f && endsWith token_suffix f = true) files).

(** ** [Config] *)

(** [process.env] *)
Definition Env : Type := gmap jsstring jsstring.

(** [process.env.NODE_ENV || 'production'] *)
Definition config_env (env : Env) : jsstring :=
  match env !! lit "NODE_ENV" with
  | Some (c :: s) => c :: s
  | _ => lit "production"
  end.

Definition required_variables : list jsstring :=
  map lit ["OPENAI_API_KEY"; "YOUTUBE_CLIENT_ID"; "YOUTUBE_CLIENT_SECRET"]%string.

(** [required.filter(key => !process.env[key])] *)
Definition missing_variables (env : Env) : list jsstring :=
  filter (λ key, truthy (env !! key) = false) required_variables.

(** [this.web.sessionSecret] and [this.web.jwtSecret]. *)
Record WebSecrets := mkWebSecrets {
  sessionSecret : option jsstring;
  jwtSecret : option jsstring
}.

Definition default_session_secret : jsstring :=
  lit "default-session-secret-change-in-production".
Definition default_jwt_secret : jsstring :=
  lit "default-jwt-secret-change-in-production".

(** [validate()], run at the end of the constructor: it throws, or leaves
    the two secrets of the web application as returned here. *)
Definition validate (env : Env) : Outcome WebSecrets :=
  let production := bool_decide (config_env env = lit "production") in
  let missing := missing_variables env in
  if (0 <? length missing) && production
  then Throw (Error (lit "Missing required environment variables: "
                     ++ join (lit ", ") missing))
  else
    Ret {| sessionSecret :=
             if negb (truthy (env !! lit "SESSION_SECRET")) && production
             then Some default_session_secret
             else env !! lit "SESSION_SECRET";
           jwtSecret :=
             if negb (truthy (env !! lit "JWT_SECRET")) && production
             then Some default_jwt_secret
             else env !! lit "JWT_SECRET" |}.

(** ** [CacheService] *)

(** The Redis client: the stored strings, and whether commands reach the
    server (a command on a lost connection rejects).  Expiry is not
    modelled. *)
Record Redis := mkRedis {
  store : gmap jsstring jsstring;
  online : bool
}.

Definition connection_lost : JsError := Error (lit "Connection is closed.").

(** [this.redis.get(key)] *)
Definition redis_get (r : Redis) (key : jsstring) : Outcome (option jsstring) :=
  if online r then Ret (store r !! key) else Throw connection_lost.

(** [this.redis.setex(key, ttl, value)] and [this.redis.set(key, value)] *)
Definition redis_set (r : Redis) (key value : jsstring) : Outcome unit * Redis :=
  if online r then (Ret (), {| store := <[key := value]> (store r); online := true |})
  else (Throw connection_lost, r).

(** [try { body } catch (error) { handler }] without a state change in
    the handler. *)
Definition attempt {A} (body : Outcome A) (handler : JsError → Outcome A) : Outcome A :=
  match body with
  | Ret a => Ret a
  | Throw e => handler e
  end.

Section Cache.

(** The cached values other than [null], with [JSON.parse] and
    [JSON.stringify]; [None] is [null] in a value and a thrown error in
    the result of the two functions. *)
Variable V : Type.
Variable JSON_parse : jsstring → Outcome (option V).
Variable JSON_stringify : option V → Outcome jsstring.

(** [get(key)] *)
Definition cache_get (r : Redis) (key : jsstring) : Outcome (option V) :=
  attempt
    match redis_get r key with
    | Throw e => Throw e
    | Ret value => if truthy value then JSON_parse (default [] value) else Ret None
    end
    (λ _, Ret None).

(** [set(key, value, ttl)] *)
Definition cache_set (r : Redis) (key : jsstring) (value : option V)
  : Outcome bool * Redis :=
  match JSON_stringify value with
  | Throw _ => (Ret false, r)
  | Ret serialized =>
      match redis_set r key serialized with
      | (Ret _, r') => (Ret true, r')
      | (Throw _, r') => (Ret false, r')
      end
  end.

(** A run of [getOrSet]: its outcome, the client afterwards and the
    number of calls of [fetchFunction]. *)
Record CacheRun := mkCacheRun {
  cache_result : Outcome (option V);
  cache_redis : Redis;
  cache_fetches : nat
}.

(** [getOrSet(key, fetchFunction, ttl)]; [fetch k] is the outcome of call
    number [k] of [fetchFunction]. *)
Definition getOrSet (r : Redis) (key : jsstring) (fetch : nat → Outcome (option V))
  : CacheRun :=
  match cache_get r key with
  | Throw _ => {| cache_result := fetch 0; cache_redis := r; cache_fetches := 1 |}
  | Ret (Some value) =>
      {| cache_result := Ret (Some value); cache_redis := r; cache_fetches := 0 |}
  | Ret None =>
      match fetch 0 with
      | Throw _ => {| cache_result := fetch 1; cache_redis := r; cache_fetches := 2 |}
      | Ret value =>
          match cache_set r key value with
          | (Throw _, r') =>
              {| cache_result := fetch 1; cache_redis := r'; cache_fetches := 2 |}
          | (Ret _, r') =>
              {| cache_result := Ret value; cache_redis := r'; cache_fetches := 1 |}
          end
      end
  end.

End Cache.

Arguments cache_get {V} JSON_parse r key.
Arguments cache_set {V} JSON_stringify r key value.
Arguments mkCacheRun {V} _ _ _.
Arguments cache_result {V} _.
Arguments cache_redis {V} _.
Arguments cache_fetches {V} _.
Arguments getOrSet {V} JSON_parse JSON_stringify r key fetch.

(** ** The scheduler of [YouTubeAutomation] *)

(** [isRunning] and the cron tasks registered so far.  [startAutomation]
    registers a publishing task (every two hours) and a task that resets
    the daily counter (at midnight) with [cron.schedule]; the tasks are
    not kept, and nothing in the class stops one. *)
Record Scheduler := mkScheduler {
  isRunning : bool;
  publish_tasks : nat;
  reset_tasks : nat
}.

(** The constructor. *)
Definition new_scheduler : Scheduler :=
  {| isRunning := false; publish_tasks := 0; reset_tasks := 0 |}.

(** [startAutomation()] *)
Definition startAutomation (s : Scheduler) : Scheduler :=
  if isRunning s then s
  else {| isRunning := true; publish_tasks := S (publish_tasks s);
          reset_tasks := S (reset_tasks s) |}.

(** [stopAutomation()] *)
Definition stopAutomation (s : Scheduler) : Scheduler :=
  {| isRunning := false; publish_tasks := publish_tasks s;
     reset_tasks := reset_tasks s |}.

Inductive SchedulerCommand := Start | Stop.

Definition scheduler_command (s : Scheduler) (c : SchedulerCommand) : Scheduler :=
  match c with
  | Start => startAutomation s
  | Stop => stopAutomation s
  end.

Definition scheduler_commands (s : Scheduler) (cs : list SchedulerCommand) : Scheduler :=
  foldl scheduler_command s cs.

(** How often [createAndPublishVideo] is called at a two-hour mark: once
    by every registered publishing task; the callback does not look at
    [isRunning]. *)
Definition publications_per_tick (s : Scheduler) : nat := publish_tasks s.

(** ** [MetricsService] *)

(** *** Local time *)

Definition ms_per_hour : Z := 3600000.
Definition ms_per_day : Z := 24 * 60 * 60 * 1000.

Section LocalTime.

(** The offset of local time from UTC in milliseconds, taken as constant
    (no daylight saving change in the period looked at). *)
Variable offset : Z.

(** [new Date(t).getHours()] *)
Definition getHours (t : Z) : Z := (((t + offset) / ms_per_hour) mod 24)%Z.

(** The local day number of [t], counted from 1 January 1970. *)
Definition local_day (t : Z) : Z := ((t + offset) / ms_per_day)%Z.

(** [new Date(t).getDay()]: 0 is Sunday; 1 January 1970 was a Thursday. *)
Definition getDay (t : Z) : Z := ((local_day t + 4) mod 7)%Z.

Definition weekday_name (d : Z) : jsstring :=
  match d with
  | 0%Z => lit "Sun" | 1%Z => lit "Mon" | 2%Z => lit "Tue" | 3%Z => lit "Wed"
  | 4%Z => lit "Thu" | 5%Z => lit "Fri" | _ => lit "Sat"
  end.

(** The rest of a date string, [Mmm dd yyyy], as a function of the local
    day. *)
Variable month_day_year : Z → jsstring.

(** [new Date(t).toDateString()], e.g. [Thu Jan 01 1970]. *)
Definition toDateString (t : Z) : jsstring :=
  weekday_name (getDay t) ++ lit " " ++ month_day_year (local_day t).

End LocalTime.

(** [a < b] on strings: the order of the first code unit that differs,
    a proper prefix being smaller. *)
Fixpoint string_lt (a b : jsstring) : bool :=
  match a, b with
  | _, [] => false
  | [], _ :: _ => true
  | x :: a', y :: b' => if (x <? y)%N then true else if (y <? x)%N then false
                        else string_lt a' b'
  end.

(** *** The tables *)

(** An entry of [metrics.hourly]. *)
Record HourStats := mkHourStats {
  h_requests : nat;
  h_errors : nat;
  averageResponseTime : Q
}.

(** The entry [collectSystemMetrics] creates for a new hour. *)
Definition new_hour : HourStats :=
  {| h_requests := 0; h_errors := 0; averageResponseTime := 0%Q |}.

(** The update of the hourly entry in [recordRequest(endpoint,
    responseTime, statusCode)]. *)
Definition record_hourly (stats : HourStats) (responseTime : Q) (statusCode : Z)
  : HourStats :=
  let requests := S (h_requests stats) in
  let totalTime :=
    (averageResponseTime stats * inject_Z (Z.of_nat (requests - 1)) + responseTime)%Q in
  {| h_requests := requests;
     h_errors := if (400 <=? statusCode)%Z then S (h_errors stats) else h_errors stats;
     averageResponseTime := (totalTime / inject_Z (Z.of_nat requests))%Q |}.

(** The two loops of [cleanupOldMetrics()] at time [now], on the keys of
    the hourly and of the daily table. *)
Definition cleanup_hourly {A} (offset : Z) (now : Z) (hourly : gmap Z A) : gmap Z A :=
  let cutoffHour := getHours offset (now - ms_per_day) in
  filter (λ entry, ¬ (entry.1 < cutoffHour)%Z) hourly.

Definition cleanup_daily {A} (offset : Z) (month_day_year : Z → jsstring) (now : Z)
    (daily : gmap jsstring A) : gmap jsstring A :=
  let cutoffDay := toDateString offset month_day_year (now - 30 * ms_per_day) in
  filter (λ entry, string_lt entry.1 cutoffDay = false) daily.

(** ** A concrete setting

    The default directories of the configuration, a three-sentence
    script, and three encoders: one that always succeeds, one that fails on
    the second scene, one that fails on the concatenation. *)

Definition temp : path := lit "temp".
Definition videos_output : path := lit "videos/output".

Definition empty_world : World := {| files := ∅; calls := []; log := [] |}.

Definition demo : ScriptData :=
  {| title := lit "Demo video"; script := lit "One. Two. Three."; sd_duration := None |}.

Definition hello : ScriptData :=
  {| title := lit "Hello"; script := lit "Hello"; sd_duration := None |}.

Definition sixty : Options := {| opt_duration := Some 60%Q |}.

Definition half : RandomSource := λ _, (1 # 2)%Q.

Definition always_ok : list FfmpegJob → FfmpegJob → bool := λ _ _, true.

Definition scene_1_fails : list FfmpegJob → FfmpegJob → bool :=
  λ _ job, negb (bool_decide (output_of job = lit "temp/video/scene_1.mp4")).

Definition concat_fails : list FfmpegJob → FfmpegJob → bool :=
  λ _ job, match job with ConcatJob _ _ _ => false | _ => true end.

(** An automation whose idea is [demo], whose metadata reply has no
    optimized title and whose upload fails ([uploadVideo] returns [null]);
    the counters at the start of a day and at the cap. *)
Definition upload_returns_null : Collaborators :=
  {| content_ideas := Some [ParsedIdea demo];
     parse_script := λ _, None;
     optimizeVideoMetadata := λ _, Ret (ReplyObject None);
     parse_metadata := λ _, ParseError;
     uploadVideo := λ _, UploadNull |}.

Definition new_day : Automation :=
  {| videoCount := 0; maxVideosPerDay := 5; uploads := [] |}.

Definition at_cap : Automation :=
  {| videoCount := 5; maxVideosPerDay := 5; uploads := [] |}.

(** ** The pipeline of [VideoEditor] *)

Section VideoEditor.

(** [config.paths.temp] and [config.paths.videoOutput], as [path.join]
    writes them in front of a name: the [directory] of the configured
    strings ([temp] for the default [./temp]). *)
Variables tempDir outputDir : path.

(** The encoder is a collaborator: given the invocations made so far and
    the next one, it ends with ['end'] ([true]) or ['error'] ([false]). *)
Variable ffmpeg_ok : list FfmpegJob → FfmpegJob → bool.

(** [path.join(dir, name)] for a directory in normal form and a file
    name; [node_join] is the function itself. *)
Definition path_join (dir name : path) : path := dir ++ lit "/" ++ name.

(** [new Promise((resolve, reject) => ffmpeg()....on('end', resolve(out))
    .on('error', reject).run())]: on success the output file exists; a
    command that fails is taken to leave no output file (the encoder may
    in fact leave a partial one behind). *)
Definition ffmpeg_run (job : FfmpegJob) : Async path :=
  λ w, if ffmpeg_ok (calls w) job
       then (Ret (output_of job),
             {| files := <[output_of job := Media]> (files w);
                calls := calls w ++ [job]; log := log w |})
       else (Throw (FfmpegError job),
             {| files := files w; calls := calls w ++ [job]; log := log w |}).

(** [ensureDirectories()]: [mkdir -p] of the working directories, errors
    caught and logged; directories are not part of the file table. *)
Definition ensureDirectories : Async unit := ret ().

Definition scenePath (index : nat) : path :=
  path_join tempDir
    (path_join (lit "video") (lit "scene_" ++ of_nat index ++ lit ".mp4")).

(** [createSceneVideo(scene, index, maxDuration)] *)
Definition createSceneVideo (scene : Scene.t) (index : nat) (maxDuration : Q)
  : Async (option path) :=
  safeExecute
    (let* p := ffmpeg_run
                 (SceneJob (Scene.text scene)
                           (Qmin (Scene.duration scene) maxDuration)
                           (scenePath index)) in
     ret (Some p))
    (lit "createSceneVideo-" ++ of_nat index) None.

Definition listFile : path := path_join tempDir (lit "concat_list.txt").

Definition newline : jsstring := [10%N].

(** [videoPaths.filter(p => p).map(p => `file '${p}'`).join('\n')] *)
Definition listContent (videoPaths : list (option path)) : jsstring :=
  join newline (map (λ p, lit "file '" ++ p ++ lit "'") (truthy_paths videoPaths)).

(** The concat demuxer reads the list file it is given as input. *)
Definition ffmpeg_concat (list_file outputPath : path) : Async path :=
  λ w, match files w !! list_file with
       | Some (Text content) => ffmpeg_run (ConcatJob list_file content outputPath) w
       | _ => (Throw (ENOENT list_file), w)
       end.

(** [concatenateVideos(videoPaths, outputPath)] *)
Definition concatenateVideos (videoPaths : list (option path)) (outputPath : path)
  : Async (option path) :=
  safeExecute
    (writeFile listFile (listContent videoPaths) >>
     let* p := ffmpeg_concat listFile outputPath in
     ret (Some p))
    (lit "concatenateVideos") None.

(** [cleanup(filePaths)]: each path is unlinked in its own [try]. *)
Fixpoint cleanup (filePaths : list (option path)) : Async unit :=
  match filePaths with
  | [] => ret ()
  | filePath :: rest =>
      try_catch
        (if truthy filePath then unlink (default [] filePath) else ret ())
        (λ e, log_entry (UnlinkFailed (default [] filePath) e)) >>
      cleanup rest
  end.

(** The loop [for (let i = 0; i < scenes.length; i++)] of
    [createVideoFromScript], entered at index [i] with the scenes from
    [i] on and the segments pushed so far. *)
Fixpoint render_scenes (scenes : list Scene.t) (i : nat) (maxDuration : Q)
    (videoSegments : list (option path)) : Async (list (option path)) :=
  match scenes with
  | [] => ret videoSegments
  | scene :: rest =>
      let* segmentPath := createSceneVideo scene i maxDuration in
      render_scenes rest (S i) maxDuration (videoSegments ++ [segmentPath])
  end.

(** [duration = 60] when neither object carries one; [options] wins. *)
Definition requested_duration (scriptData : ScriptData) (options : Options) : Q :=
  match opt_duration options with
  | Some d => d
  | None => default 60%Q (sd_duration scriptData)
  end.

Definition outputPath_of (title : jsstring) : path :=
  path_join outputDir (sanitizeFilename title ++ lit ".mp4").

(** [createVideoFromScript(scriptData, options)] *)
Definition createVideoFromScript (scriptData : ScriptData) (options : Options)
    (rand : RandomSource) : Async (option path) :=
  safeExecute
    (ensureDirectories >>
     let duration := requested_duration scriptData options in
     let outputPath := outputPath_of (title scriptData) in
     let scenes := parseScript (script scriptData) rand in
     let* videoSegments :=
       render_scenes scenes 0 (duration / inject_Z (Z.of_nat (length scenes)))%Q [] in
     let* finalVideo := concatenateVideos videoSegments outputPath in
     cleanup videoSegments >>
     ret finalVideo)
    (lit "createVideoFromScript") None.

(** [settings.resolution] and [settings.bitrate] for [settings =
    platforms[platform] || platforms.youtube].  [platforms] is a plain
    object: for a name inherited from [Object.prototype] the lookup is
    truthy, the fallback is not taken, and the value has neither property
    ([None]). *)
Definition platform_settings (platform : jsstring) : option (jsstring * jsstring) :=
  if decide (platform = lit "youtube") then Some (lit "1920x1080", lit "8000k")
  else if decide (platform = lit "shorts") then Some (lit "1080x1920", lit "6000k")
  else if decide (platform = lit "tiktok") then Some (lit "1080x1920", lit "4000k")
  else if bool_decide (platform ∈ object_prototype_properties) then None
  else Some (lit "1920x1080", lit "8000k").

(** [optimizeForPlatform(videoPath, platform)]; [.size(undefined)] throws
    before any encoder runs. *)
Definition optimizeForPlatform (videoPath platform : jsstring) : Async (option path) :=
  safeExecute
    (let settings := platform_settings platform in
     let outputPath :=
       replace_expanding (lit ".mp4") (lit "_" ++ platform ++ lit ".mp4") videoPath in
     match settings with
     | None => throw size_of_undefined
     | Some (resolution, bitrate) =>
         let* p := ffmpeg_run (OptimizeJob videoPath resolution bitrate outputPath) in
         ret (Some p)
     end)
    (lit "optimizeForPlatform-" ++ platform) None.

(** [createThumbnail(videoPath, timestamp = '00:00:01')] *)
Definition createThumbnail (videoPath : jsstring) : Async (option path) :=
  safeExecute
    (let thumbnailPath := replace_first (lit ".mp4") (lit "_thumbnail.jpg") videoPath in
     let* p := ffmpeg_run (ThumbnailJob videoPath (lit "00:00:01") thumbnailPath) in
     ret (Some p))
    (lit "createThumbnail") None.

(** The message of [new Error('...')] thrown when no video was made. *)
Definition video_creation_failed : jsstring :=
  [35270; 39057; 21019; 24314; 22833; 36133]%N.

(** The video stage of [createAndPublishVideo] (automation.js, from the
    call of [createVideoFromScript] to [createThumbnail]); it yields the
    concatenated, the optimized and the thumbnail path. *)
Definition createAndPublishVideo_video (scriptData : ScriptData) (rand : RandomSource)
  : Async (path * option path * option path) :=
  let* videoPath :=
    createVideoFromScript scriptData {| opt_duration := Some 60%Q |} rand in
  if negb (truthy videoPath) then throw (Error video_creation_failed)
  else
    let videoPath := default [] videoPath in
    let* optimizedVideoPath := optimizeForPlatform videoPath (lit "shorts") in
    let* thumbnailPath :=
      createThumbnail (if truthy optimizedVideoPath
                       then default [] optimizedVideoPath else videoPath) in
    ret (videoPath, optimizedVideoPath, thumbnailPath).

(** *** What a run does, as pure functions of the encoder's answers *)

Definition scene_job (scene : Scene.t) (index : nat) (maxDuration : Q) : FfmpegJob :=
  SceneJob (Scene.text scene) (Qmin (Scene.duration scene) maxDuration)
           (scenePath index).

Definition scene_context (index : nat) : jsstring :=
  lit "createSceneVideo-" ++ of_nat index.

(** The invocations of the render loop, in the order they are issued. *)
Fixpoint scene_jobs (scenes : list Scene.t) (i : nat) (maxDuration : Q)
  : list FfmpegJob :=
  match scenes with
  | [] => []
  | scene :: rest => scene_job scene i maxDuration :: scene_jobs rest (S i) maxDuration
  end.

(** The segment pushed for each scene, after [history]. *)
Fixpoint scene_results (history : list FfmpegJob) (scenes : list Scene.t) (i : nat)
    (maxDuration : Q) : list (option path) :=
  match scenes with
  | [] => []
  | scene :: rest =>
      let job := scene_job scene i maxDuration in
      (if ffmpeg_ok history job then Some (scenePath i) else None)
      :: scene_results (history ++ [job]) rest (S i) maxDuration
  end.

(** The indices of the scenes whose render succeeded, after [history]. *)
Fixpoint rendered_indices (history : list FfmpegJob) (scenes : list Scene.t) (i : nat)
    (maxDuration : Q) : list nat :=
  match scenes with
  | [] => []
  | scene :: rest =>
      let job := scene_job scene i maxDuration in
      (if ffmpeg_ok history job then [i] else [])
      ++ rendered_indices (history ++ [job]) rest (S i) maxDuration
  end.

(** The entries [ErrorHandler.handle] writes for the scenes that failed. *)
Fixpoint scene_log (history : list FfmpegJob) (scenes : list Scene.t) (i : nat)
    (maxDuration : Q) : list LogEntry :=
  match scenes with
  | [] => []
  | scene :: rest =>
      let job := scene_job scene i maxDuration in
      (if ffmpeg_ok history job then []
       else [Handled (scene_context i) (FfmpegError job)])
      ++ scene_log (history ++ [job]) rest (S i) maxDuration
  end.

Definition create_all (ps : list path) (m : gmap path FileData) : gmap path FileData :=
  foldl (λ m p, <[p := Media]> m) m ps.
Definition delete_all (ps : list path) (m : gmap path FileData) : gmap path FileData :=
  foldl (λ m p, delete p m) m ps.

(** [duration / scenes.length] *)
Definition budget (scriptData : ScriptData) (options : Options) (rand : RandomSource) : Q :=
  (requested_duration scriptData options
   / inject_Z (Z.of_nat (length (parseScript (script scriptData) rand))))%Q.

(** The function passed to [safeExecute] in [createAndPublishVideo], up
    to the moment [uploadVideo] has settled. *)
Definition createAndPublishVideo_body (c : Collaborators) (rand : RandomSource)
    (w : World) : Completion * World :=
  match content_ideas c with
  | None | Some [] => (NoUpload (Error no_ideas), w)
  | Some (idea :: _) =>
      match idea_scriptData c idea with
      | Throw e => (NoUpload e, w)
      | Ret scriptData =>
          match createAndPublishVideo_video scriptData rand w with
          | (Throw e, w1) => (NoUpload e, w1)
          | (Ret (videoPath, optimizedVideoPath, thumbnailPath), w1) =>
              match optimizeVideoMetadata c scriptData with
              | Throw e => (NoUpload e, w1)
              | Ret reply =>
                  match upload_metadata c reply scriptData with
                  | None => (NoUpload (null_property "optimized_title"), w1)
                  | Some optimized_title =>
                      let call :=
                        {| upload_file := or_else optimizedVideoPath videoPath;
                           upload_title := or_else optimized_title (title scriptData);
                           upload_thumbnail := thumbnailPath |} in
                      (UploadSettled call (uploadVideo c call), w1)
                  end
              end
          end
      end
  end.

(** [createAndPublishVideo()], for a call that no other call overlaps:
    the counters are the same at the guard and at the end. *)
Definition createAndPublishVideo (c : Collaborators) (a : Automation)
    (rand : RandomSource) (w : World) : option UploadResult * Automation * World :=
  if cap_reached a then (None, a, w)
  else
    let '(k, w') := createAndPublishVideo_body c rand w in
    match settle a k with
    | (Ret r, a') => (Some r, a', w')
    | (Throw e, a') =>
        (None, a', (handle e (lit "createAndPublishVideo") w').2)
    end.

(** * Properties *)

(** ** Strings *)

Lemma expand_replacement_plain (matched before after rep : jsstring) :
  dollar ∉ rep → expand_replacement matched before after rep = rep.
Proof.
  induction rep as [|c rep IH]; intros H; [reflexivity|].
  apply not_elem_of_cons in H as [Hc Hr]. cbn [expand_replacement].
  unfold code_eqb at 1. destruct (N.eqb_spec c dollar) as [->|_]; [contradiction|].
  rewrite (IH Hr). reflexivity.
Qed.

(** Without a dollar sign in the replacement, [replace] inserts it as it is. *)
Lemma replace_expanding_plain (pat rep s : jsstring) :
  dollar ∉ rep → replace_expanding pat rep s = replace_first pat rep s.
Proof.
  intros H. unfold replace_expanding. generalize (@nil code_unit) as before.
  induction s as [|c s IH]; intros before.
  - cbn [replace_from replace_first].
    destruct (strip_prefix pat []); [rewrite expand_replacement_plain by exact H|];
      reflexivity.
  - cbn [replace_from replace_first].
    destruct (strip_prefix pat (c :: s));
      [rewrite expand_replacement_plain by exact H; reflexivity|].
    rewrite IH. reflexivity.
Qed.


Lemma truthy_inv (p : option path) :
  truthy p = true → ∃ c s, p = Some (c :: s).
Proof. destruct p as [[|c s]|]; simpl; try discriminate. eauto. Qed.

Lemma truthy_paths_cons_true (p : option path) (ps : list (option path)) :
  truthy p = true → truthy_paths (p :: ps) = default [] p :: truthy_paths ps.
Proof.
  intros H. destruct (truthy_inv _ H) as (c & s & ->).
  unfold truthy_paths. simpl. reflexivity.
Qed.

Lemma truthy_paths_cons_false (p : option path) (ps : list (option path)) :
  truthy p = false → truthy_paths (p :: ps) = truthy_paths ps.
Proof.
  intros H. unfold truthy_paths. simpl. rewrite H. reflexivity.
Qed.

(** Dropping the [null] entries keeps the order of the others. *)
Lemma truthy_paths_sublist (ps : list (option path)) :
  sublist (Some <$> truthy_paths ps) ps.
Proof.
  induction ps as [|p ps IH]; [constructor|].
  destruct (truthy p) eqn:T.
  - rewrite (truthy_paths_cons_true _ _ T).
    destruct (truthy_inv _ T) as (c & s & ->). simpl. constructor. exact IH.
  - rewrite (truthy_paths_cons_false _ _ T). constructor. exact IH.
Qed.

Lemma lit_inj (s t : string) : lit s = lit t → s = t.
Proof.
  unfold lit. intros H.
  apply (f_equal (map ascii_of_N)) in H. rewrite !map_map in H.
  assert (R : ∀ l, map (λ x, ascii_of_N (N_of_ascii x)) l = l).
  { induction l as [|a l IH]; [reflexivity|].
    simpl. rewrite ascii_N_embedding, IH. reflexivity. }
  rewrite !R in H.
  apply (f_equal string_of_list_ascii) in H.
  rewrite !string_of_list_ascii_of_string in H. exact H.
Qed.

Lemma of_nat_inj (i j : nat) : of_nat i = of_nat j → i = j.
Proof.
  unfold of_nat. intros H%lit_inj.
  apply (f_equal NilEmpty.uint_of_string) in H.
  rewrite !NilEmpty.usu in H. injection H as H.
  apply DecimalNat.Unsigned.to_uint_inj, H.
Qed.




(** ** Paths *)
















(** ** The sanitizer *)

Lemma sanitizeFilename_unfold (s : jsstring) :
  sanitizeFilename s = take 100 (map sanitize_char s).
Proof. reflexivity. Qed.

Lemma class_matches_safe (c : code_unit) :
  class_matches c = true → is_alnum c = true ∨ is_cjk c = true.
Proof.
  unfold class_matches, canonicalize, in_class, is_alnum, is_cjk.
  intros H.
  destruct ((97 <=? c) && (c <=? 122))%N eqn:Hlow.
  - left. apply orb_true_r.
  - rewrite Hlow in H. rewrite !orb_true_iff in *. intuition congruence.
Qed.

Lemma sanitize_char_safe (c : code_unit) : safe_char (sanitize_char c).
Proof.
  unfold sanitize_char, safe_char.
  destruct (class_matches c) eqn:H.
  - destruct (class_matches_safe c H); auto.
  - auto.
Qed.

Lemma sanitize_char_idem (c : code_unit) :
  sanitize_char (sanitize_char c) = sanitize_char c.
Proof.
  unfold sanitize_char.
  destruct (class_matches c) eqn:H.
  - rewrite H. reflexivity.
  - reflexivity.
Qed.

Lemma sanitizeFilename_length (s : jsstring) : length (sanitizeFilename s) ≤ 100.
Proof. rewrite sanitizeFilename_unfold, length_take. lia. Qed.

Lemma sanitizeFilename_safe (s : jsstring) : Forall safe_char (sanitizeFilename s).
Proof.
  rewrite sanitizeFilename_unfold.
  apply Forall_take, Forall_forall.
  intros c Hc. apply list_elem_of_In, in_map_iff in Hc as (c0 & <- & _).
  apply sanitize_char_safe.
Qed.


(** C10. [sanitizeFilename] is idempotent: applying it to its own result
    changes nothing, because the first application already leaves only
    code units the class accepts or underscores, and at most 100 of them. *)
Theorem sanitizeFilename_idempotent (s : jsstring) :
  sanitizeFilename (sanitizeFilename s) = sanitizeFilename s.
Proof.
  rewrite !sanitizeFilename_unfold.
  rewrite <- firstn_map, take_take, Nat.min_id.
  f_equal. rewrite map_map.
  apply map_ext. intros c. apply sanitize_char_idem.
Qed.

(** ** Segmentation *)

Lemma jsstring_pair_ind (P : jsstring → Prop) :
  P [] → (∀ c, P [c]) → (∀ c c' s, P s → P (c' :: s) → P (c :: c' :: s)) →
  ∀ s, P s.
Proof.
  intros Hnil Hone Hstep s.
  enough (P s ∧ ∀ c, P (c :: s)) by tauto.
  induction s as [|a s [IH1 IH2]]; split; auto.
Qed.

Lemma split_sentences_step (c c' : code_unit) (s : jsstring) :
  split_sentences (c :: c' :: s) =
  if code_eqb c full_stop && code_eqb c' space
  then [] :: split_sentences s
  else push_front c (split_sentences (c' :: s)).
Proof. reflexivity. Qed.

Lemma split_sentences_nonempty (s : jsstring) : split_sentences s ≠ [].
Proof.
  destruct s as [|c [|c' s]]; try discriminate.
  rewrite split_sentences_step.
  destruct (code_eqb c full_stop && code_eqb c' space); [discriminate|].
  destruct (split_sentences (c' :: s)); discriminate.
Qed.

Lemma join_push_front (sep : jsstring) (c : code_unit) (parts : list jsstring) :
  parts ≠ [] → join sep (push_front c parts) = c :: join sep parts.
Proof. destruct parts as [|p [|q ps]]; [easy|reflexivity|reflexivity]. Qed.

Lemma join_cons (sep p : jsstring) (parts : list jsstring) :
  parts ≠ [] → join sep (p :: parts) = p ++ sep ++ join sep parts.
Proof. destruct parts; [easy|reflexivity]. Qed.

Lemma sep_test_true (c c' : code_unit) :
  code_eqb c full_stop && code_eqb c' space = true ↔ c = full_stop ∧ c' = space.
Proof. unfold code_eqb. rewrite andb_true_iff, !N.eqb_eq. tauto. Qed.

(** Joining the pieces with the separator gives the script back. *)
Lemma join_split_sentences (s : jsstring) :
  join sentence_sep (split_sentences s) = s.
Proof.
  induction s as [|c|c c' s IH1 IH2] using jsstring_pair_ind; [reflexivity..|].
  rewrite split_sentences_step.
  destruct (code_eqb c full_stop && code_eqb c' space) eqn:E.
  - apply sep_test_true in E as [-> ->].
    rewrite join_cons by apply split_sentences_nonempty.
    rewrite IH1. reflexivity.
  - rewrite join_push_front by apply split_sentences_nonempty.
    rewrite IH2. reflexivity.
Qed.

Lemma occurs_sep_cons (c : code_unit) (p : jsstring) :
  occurs sentence_sep (c :: p) →
  (c = full_stop ∧ ∃ r, p = space :: r) ∨ occurs sentence_sep p.
Proof.
  intros (l & r & H). destruct l as [|a l]; simpl in H.
  - injection H as -> ->. left. eauto.
  - injection H as -> ->. right. exists l, r. reflexivity.
Qed.

Lemma occurs_sep_short (p : jsstring) : length p < 2 → ¬ occurs sentence_sep p.
Proof.
  intros Hlen (l & r & ->). rewrite !length_app in Hlen. simpl in Hlen. lia.
Qed.

Lemma split_head_prefix (s p : jsstring) (ps : list jsstring) :
  split_sentences s = p :: ps → ∃ rest, s = p ++ rest.
Proof.
  intros H. pose proof (join_split_sentences s) as J. rewrite H in J.
  destruct ps as [|q ps].
  - exists []. rewrite app_nil_r. symmetry. exact J.
  - eexists. symmetry. exact J.
Qed.

(** No piece contains the separator. *)
Lemma split_sentences_pieces (s : jsstring) :
  Forall (λ p, ¬ occurs sentence_sep p) (split_sentences s).
Proof.
  induction s as [|c|c c' s IH1 IH2] using jsstring_pair_ind.
  - constructor; [|constructor]. apply occurs_sep_short. simpl. lia.
  - constructor; [|constructor]. apply occurs_sep_short. simpl. lia.
  - rewrite split_sentences_step.
    destruct (code_eqb c full_stop && code_eqb c' space) eqn:E.
    + constructor; [|exact IH1]. apply occurs_sep_short. simpl. lia.
    + destruct (split_sentences (c' :: s)) as [|p ps] eqn:Hs.
      { exfalso. eapply split_sentences_nonempty. exact Hs. }
      inversion IH2 as [|? ? Hp Hps]; subst. simpl.
      constructor; [|exact Hps].
      intros Hocc. apply occurs_sep_cons in Hocc as [[-> [r ->]]|Hocc]; [|auto].
      apply split_head_prefix in Hs as [rest Hs]. injection Hs as -> _.
      discriminate E.
Qed.

(** A piece without separator in front of a separator is cut off whole. *)
Lemma split_sentences_app (a rest : jsstring) :
  ¬ occurs sentence_sep a →
  split_sentences (a ++ sentence_sep ++ rest) = a :: split_sentences rest.
Proof.
  induction a as [|c a IH]; intros Ha; [reflexivity|].
  assert (Ha' : ¬ occurs sentence_sep a).
  { intros (l & r & ->). apply Ha. exists (c :: l), r. reflexivity. }
  destruct a as [|c' a].
  - change ([c] ++ sentence_sep ++ rest) with (c :: full_stop :: space :: rest).
    rewrite split_sentences_step.
    destruct (code_eqb c full_stop && code_eqb full_stop space) eqn:E.
    + apply sep_test_true in E as [_ E]. discriminate E.
    + change (split_sentences (full_stop :: space :: rest))
        with ([] :: split_sentences rest). reflexivity.
  - change ((c :: c' :: a) ++ sentence_sep ++ rest)
      with (c :: c' :: (a ++ sentence_sep ++ rest)).
    rewrite split_sentences_step.
    destruct (code_eqb c full_stop && code_eqb c' space) eqn:E.
    + apply sep_test_true in E as [-> ->]. exfalso. apply Ha.
      exists [], a. reflexivity.
    + change (c' :: a ++ sentence_sep ++ rest)
        with ((c' :: a) ++ sentence_sep ++ rest).
      rewrite (IH Ha'). reflexivity.
Qed.

(** A script without separator is one piece. *)
Lemma split_sentences_whole (a : jsstring) :
  ¬ occurs sentence_sep a → split_sentences a = [a].
Proof.
  induction a as [|c|c c' s IH1 IH2] using jsstring_pair_ind; intros Ha;
    [reflexivity..|].
  rewrite split_sentences_step.
  destruct (code_eqb c full_stop && code_eqb c' space) eqn:E.
  - apply sep_test_true in E as [-> ->]. exfalso. apply Ha.
    exists [], s. reflexivity.
  - rewrite IH2; [reflexivity|].
    intros (l & r & H). apply Ha. exists (c :: l), r. simpl. rewrite H. reflexivity.
Qed.

Lemma parseScript_lookup (script : jsstring) (rand : RandomSource) (i : nat) :
  parseScript script rand !! i =
  (λ sentence, {| Scene.id := i; Scene.text := trim sentence;
                  Scene.duration := (3 + rand i * 2)%Q |})
    <$> sentences script !! i.
Proof. unfold parseScript. apply list_lookup_imap. Qed.

Lemma parseScript_length (script : jsstring) (rand : RandomSource) :
  length (parseScript script rand) = length (sentences script).
Proof. unfold parseScript. apply length_imap. Qed.

Lemma map_imap {A B C} (f : B → C) (g : nat → A → B) (l : list A) :
  map f (imap g l) = imap (λ i x, f (g i x)) l.
Proof.
  revert g. induction l as [|x l IH]; intros g; [reflexivity|].
  simpl. f_equal. apply IH.
Qed.

Lemma imap_index_seq {A} (l : list A) (k : nat) :
  imap (λ i _, k + i) l = seq k (length l).
Proof.
  revert k. induction l as [|x l IH]; intros k; [reflexivity|].
  simpl. f_equal; [lia|].
  rewrite <- IH. apply imap_ext. intros i y _. simpl. lia.
Qed.

Lemma imap_const {A B} (f : A → B) (l : list A) :
  imap (λ _ x, f x) l = map f l.
Proof. induction l as [|x l IH]; [reflexivity|]. simpl. f_equal. exact IH. Qed.

Lemma parseScript_ids (script : jsstring) (rand : RandomSource) :
  map Scene.id (parseScript script rand) = seq 0 (length (parseScript script rand)).
Proof.
  rewrite parseScript_length. unfold parseScript. rewrite map_imap. simpl.
  apply (imap_index_seq (sentences script) 0).
Qed.

Lemma parseScript_texts (script : jsstring) (rand : RandomSource) :
  map Scene.text (parseScript script rand) = map trim (sentences script).
Proof. unfold parseScript. rewrite map_imap. simpl. apply imap_const. Qed.

Lemma nonblank_text (s : jsstring) : nonblank s = true → trim s ≠ [].
Proof.
  unfold nonblank. intros H%bool_decide_eq_true E. rewrite E in H. simpl in H. lia.
Qed.

Lemma no_separator_check (a : jsstring) :
  split_sentences a = [a] → ¬ occurs sentence_sep a.
Proof.
  intros H. pose proof (split_sentences_pieces a) as F. rewrite H in F.
  inversion F; assumption.
Qed.

(** C4 (as amended). [parseScript] cuts the script at every occurrence of a
    full stop followed by a space, the only boundary it knows (the pieces
    joined by that separator are the script, and no piece contains it),
    drops the pieces that are blank, and makes one scene per remaining
    piece, in order, with its trimmed text and the ids 0, 1, 2, ...; a
    script of three non-blank pieces separated by a full stop and a space
    yields exactly three scenes. *)
Theorem parseScript_segmentation (script : jsstring) (rand : RandomSource) :
  let pieces := split_sentences script in
  let scenes := parseScript script rand in
  join sentence_sep pieces = script
  ∧ Forall (λ p, ¬ occurs sentence_sep p) pieces
  ∧ map Scene.text scenes = map trim (List.filter nonblank pieces)
  ∧ Forall (λ sc, Scene.text sc ≠ []) scenes
  ∧ map Scene.id scenes = seq 0 (length scenes)
  ∧ (∀ a b c,
       ¬ occurs sentence_sep a → ¬ occurs sentence_sep b → ¬ occurs sentence_sep c →
       nonblank a = true → nonblank b = true → nonblank c = true →
       script = a ++ sentence_sep ++ b ++ sentence_sep ++ c →
       scenes =
       [ {| Scene.id := 0; Scene.text := trim a; Scene.duration := (3 + rand 0%nat * 2)%Q |};
         {| Scene.id := 1; Scene.text := trim b; Scene.duration := (3 + rand 1%nat * 2)%Q |};
         {| Scene.id := 2; Scene.text := trim c; Scene.duration := (3 + rand 2%nat * 2)%Q |} ]).
Proof.
  cbv zeta. split_and!.
  - apply join_split_sentences.
  - apply split_sentences_pieces.
  - apply parseScript_texts.
  - apply Forall_forall. intros sc Hsc.
    apply list_elem_of_lookup in Hsc as [i Hi].
    rewrite parseScript_lookup in Hi.
    destruct (sentences script !! i) as [s|] eqn:Hs; [|discriminate].
    injection Hi as <-. simpl. apply nonblank_text.
    apply list_elem_of_lookup_2, list_elem_of_In in Hs.
    unfold sentences in Hs. apply filter_In in Hs. tauto.
  - apply parseScript_ids.
  - intros a b c Ha Hb Hc Na Nb Nc ->.
    unfold parseScript, sentences.
    rewrite (split_sentences_app a _ Ha), (split_sentences_app b _ Hb),
      (split_sentences_whole c Hc).
    simpl. rewrite Na, Nb, Nc. reflexivity.
Qed.

Lemma parseScript_segmentation_witness :
  length (parseScript (lit "One. Two. Three.") (λ _, 1 # 2)%Q) = 3.
Proof.
  destruct (parseScript_segmentation (lit "One. Two. Three.") (λ _, 1 # 2)%Q)
    as (_ & _ & _ & _ & _ & H).
  rewrite (H (lit "One") (lit "Two") (lit "Three."));
    [ reflexivity
    | apply no_separator_check; reflexivity
    | apply no_separator_check; reflexivity
    | apply no_separator_check; reflexivity
    | reflexivity | reflexivity | reflexivity | reflexivity ].
Defined.

(** C4, against the claim as stated: a script of three sentences that end
    in a question mark, an exclamation mark and a full stop gives one
    scene, not three, and a script of one sentence that has an
    abbreviation in it gives two scenes, not one. *)
Lemma sentence_boundaries_missed :
  map Scene.text (parseScript (lit "Is it? Yes! Done.") half) = [lit "Is it? Yes! Done."]
  ∧ length (parseScript (lit "Is it? Yes! Done.") half) ≠ 3
  ∧ map Scene.text (parseScript (lit "Dr. Smith arrived.") half)
    = [lit "Dr"; lit "Smith arrived."]
  ∧ length (parseScript (lit "Dr. Smith arrived.") half) ≠ 1.
Proof. vm_compute. split_and!; [reflexivity|discriminate|reflexivity|discriminate]. Qed.

(** ** Scene durations *)

Lemma scene_duration_range (r : Q) :
  (0 <= r)%Q → (r < 1)%Q → (3 <= 3 + r * 2)%Q ∧ (3 + r * 2 <= 5)%Q.
Proof. intros H0 H1. split; lra. Qed.

Lemma inject_Z_succ (n : nat) :
  (inject_Z (Z.of_nat (S n)) == inject_Z (Z.of_nat n) + 1)%Q.
Proof. rewrite Nat2Z.inj_succ. unfold Z.succ. rewrite inject_Z_plus. reflexivity. Qed.

Lemma total_duration_bounds (scenes : list Scene.t) :
  Forall (λ sc, (3 <= Scene.duration sc)%Q ∧ (Scene.duration sc <= 5)%Q) scenes →
  (3 * inject_Z (Z.of_nat (length scenes)) <= total_duration scenes)%Q
  ∧ (total_duration scenes <= 5 * inject_Z (Z.of_nat (length scenes)))%Q.
Proof.
  induction 1 as [|sc scenes [Hlo Hhi] _ [IHlo IHhi]].
  - split; vm_compute; discriminate.
  - cbn [length total_duration foldr]. fold (total_duration scenes).
    rewrite inject_Z_succ. split; lra.
Qed.

(** C5 (as amended). Every scene gets the duration [3 + 2 r] for a draw
    [0 <= r < 1], hence between 3 and 5 seconds, whatever total duration
    was requested ([parseScript] is not given it); the durations of [n]
    scenes add up to a value between [3 n] and [5 n]. *)
Theorem parseScript_durations (script : jsstring) (rand : RandomSource) :
  unit_interval rand →
  let scenes := parseScript script rand in
  Forall (λ sc, (3 <= Scene.duration sc)%Q ∧ (Scene.duration sc <= 5)%Q) scenes
  ∧ (3 * inject_Z (Z.of_nat (length scenes)) <= total_duration scenes)%Q
  ∧ (total_duration scenes <= 5 * inject_Z (Z.of_nat (length scenes)))%Q.
Proof.
  intros Hrand scenes.
  assert (Hall : Forall (λ sc, (3 <= Scene.duration sc)%Q
                               ∧ (Scene.duration sc <= 5)%Q) scenes).
  { apply Forall_forall. intros sc Hsc.
    apply list_elem_of_lookup in Hsc as [i Hi].
    subst scenes. rewrite parseScript_lookup in Hi.
    destruct (sentences script !! i); [|discriminate].
    injection Hi as <-. simpl.
    destruct (Hrand i). apply scene_duration_range; assumption. }
  split; [exact Hall|]. apply total_duration_bounds. exact Hall.
Qed.

Lemma parseScript_durations_witness :
  let scenes := parseScript (lit "One. Two. Three.") (λ _, 1 # 2)%Q in
  Forall (λ sc, (3 <= Scene.duration sc)%Q ∧ (Scene.duration sc <= 5)%Q) scenes
  ∧ (3 * inject_Z (Z.of_nat (length scenes)) <= total_duration scenes)%Q
  ∧ (total_duration scenes <= 5 * inject_Z (Z.of_nat (length scenes)))%Q.
Proof.
  apply (parseScript_durations (lit "One. Two. Three.") (λ _, 1 # 2)%Q).
  intros k. split; [discriminate|reflexivity].
Defined.

(** ** Runs of the pipeline *)


Lemma scenePath_cons (i : nat) : ∃ c s, scenePath i = c :: s.
Proof.
  unfold scenePath, path_join.
  destruct tempDir as [|c s]; simpl; eauto.
Qed.

Lemma scenePath_truthy (i : nat) : truthy (Some (scenePath i)) = true.
Proof. destruct (scenePath_cons i) as (c & s & ->). reflexivity. Qed.

Lemma createSceneVideo_run (scene : Scene.t) (i : nat) (maxDuration : Q) (w : World) :
  createSceneVideo scene i maxDuration w =
  let job := scene_job scene i maxDuration in
  if ffmpeg_ok (calls w) job
  then (Ret (Some (scenePath i)),
        {| files := <[scenePath i := Media]> (files w);
           calls := calls w ++ [job]; log := log w |})
  else (Ret None,
        {| files := files w; calls := calls w ++ [job];
           log := log w ++ [Handled (scene_context i) (FfmpegError job)] |}).
Proof.
  unfold createSceneVideo, safeExecute, try_catch, bind, ffmpeg_run.
  cbv zeta. fold (scene_job scene i maxDuration).
  destruct (ffmpeg_ok (calls w) (scene_job scene i maxDuration)); reflexivity.
Qed.

Lemma truthy_paths_scene (i : nat) (rest : list (option path)) :
  truthy_paths (Some (scenePath i) :: rest) = scenePath i :: truthy_paths rest.
Proof. apply (truthy_paths_cons_true (Some (scenePath i))), scenePath_truthy. Qed.

(** The render loop: every scene is attempted, in index order; a failed
    scene leaves [null] in the segment list and a line in the log. *)
Lemma render_scenes_run (scenes : list Scene.t) :
  ∀ (i : nat) (maxDuration : Q) (acc : list (option path)) (w : World),
    render_scenes scenes i maxDuration acc w =
    (Ret (acc ++ scene_results (calls w) scenes i maxDuration),
     {| files := create_all
                   (truthy_paths (scene_results (calls w) scenes i maxDuration))
                   (files w);
        calls := calls w ++ scene_jobs scenes i maxDuration;
        log := log w ++ scene_log (calls w) scenes i maxDuration |}).
Proof.
  induction scenes as [|scene rest IH]; intros i maxDuration acc w.
  - simpl. unfold ret. rewrite !app_nil_r. destruct w; reflexivity.
  - cbn [render_scenes]. unfold bind at 1.
    rewrite createSceneVideo_run. cbv zeta.
    cbn [scene_results scene_jobs scene_log].
    destruct (ffmpeg_ok (calls w) (scene_job scene i maxDuration)).
    + rewrite IH. cbn [files calls log].
      rewrite truthy_paths_scene. cbn [create_all foldl].
      rewrite <- !app_assoc. reflexivity.
    + rewrite IH. cbn [files calls log].
      rewrite truthy_paths_cons_false by reflexivity.
      rewrite <- !app_assoc. reflexivity.
Qed.

(** [cleanup] never throws, and afterwards none of the given files exists. *)
Lemma cleanup_run (filePaths : list (option path)) :
  ∀ w : World, ∃ entries,
    cleanup filePaths w =
    (Ret (), {| files := delete_all (truthy_paths filePaths) (files w);
                calls := calls w; log := log w ++ entries |}).
Proof.
  induction filePaths as [|filePath rest IH]; intros w.
  - exists []. simpl. unfold ret. rewrite app_nil_r. destruct w; reflexivity.
  - cbn [cleanup]. unfold bind, try_catch.
    destruct (truthy filePath) eqn:T.
    + rewrite (truthy_paths_cons_true _ _ T). cbn [delete_all foldl].
      unfold unlink.
      destruct (files w !! _) eqn:L.
      * exact (IH {| files := delete (default [] filePath) (files w);
                     calls := calls w; log := log w |}).
      * unfold log_entry. rewrite (delete_id _ _ L).
        destruct (IH {| files := files w; calls := calls w;
                        log := log w ++ [UnlinkFailed (default [] filePath)
                                           (ENOENT (default [] filePath))] |})
          as [entries E].
        exists (UnlinkFailed (default [] filePath) (ENOENT (default [] filePath))
                  :: entries).
        etrans; [exact E|]. cbn [files calls log].
        rewrite <- app_assoc. reflexivity.
    + rewrite (truthy_paths_cons_false _ _ T). unfold ret.
      exact (IH w).
Qed.


(** [concatenateVideos]: writes the list file, runs the concat job on it,
    and turns a failure into a log line and [null]. *)
Lemma concatenateVideos_run (videoPaths : list (option path)) (out : path) (w : World) :
  concatenateVideos videoPaths out w =
  let job := ConcatJob listFile (listContent videoPaths) out in
  let written := <[listFile := Text (listContent videoPaths)]> (files w) in
  if ffmpeg_ok (calls w) job
  then (Ret (Some out),
        {| files := <[out := Media]> written;
           calls := calls w ++ [job]; log := log w |})
  else (Ret None,
        {| files := written; calls := calls w ++ [job];
           log := log w ++ [Handled (lit "concatenateVideos") (FfmpegError job)] |}).
Proof.
  unfold concatenateVideos, safeExecute, try_catch, bind, writeFile, ffmpeg_concat.
  cbn [files calls log]. rewrite lookup_insert_eq.
  unfold ffmpeg_run. cbn [files calls log output_of].
  destruct (ffmpeg_ok (calls w) _); reflexivity.
Qed.

(** The whole of [createVideoFromScript], in one equation: the value it
    returns, the files it leaves, the encoder invocations it makes. *)
Lemma createVideoFromScript_run (scriptData : ScriptData) (options : Options)
    (rand : RandomSource) (w : World) :
  let scenes := parseScript (script scriptData) rand in
  let maxDuration := budget scriptData options rand in
  let jobs := scene_jobs scenes 0 maxDuration in
  let segments := scene_results (calls w) scenes 0 maxDuration in
  let out := outputPath_of (title scriptData) in
  let concat := ConcatJob listFile (listContent segments) out in
  let ok := ffmpeg_ok (calls w ++ jobs) concat in
  let written :=
    <[listFile := Text (listContent segments)]>
      (create_all (truthy_paths segments) (files w)) in
  ∃ entries,
    createVideoFromScript scriptData options rand w =
    (Ret (if ok then Some out else None),
     {| files := delete_all (truthy_paths segments)
                   (if ok then <[out := Media]> written else written);
        calls := calls w ++ jobs ++ [concat];
        log := log w ++ scene_log (calls w) scenes 0 maxDuration
               ++ (if ok then []
                   else [Handled (lit "concatenateVideos") (FfmpegError concat)])
               ++ entries |}).
Proof.
  cbv zeta.
  unfold createVideoFromScript, safeExecute, try_catch, ensureDirectories.
  unfold bind at 1 2 3, ret at 1. cbv zeta. fold (budget scriptData options rand).
  rewrite render_scenes_run. cbn [app].
  rewrite concatenateVideos_run. cbv zeta. cbn [files calls log].
  set (segments := scene_results (calls w) _ 0 _).
  set (jobs := scene_jobs _ 0 _).
  set (concat := ConcatJob listFile (listContent segments) _).
  destruct (ffmpeg_ok (calls w ++ jobs) concat).
  - destruct (cleanup_run segments
                {| files := <[outputPath_of (title scriptData) := Media]>
                              (<[listFile := Text (listContent segments)]>
                                 (create_all (truthy_paths segments) (files w)));
                   calls := (calls w ++ jobs) ++ [concat];
                   log := log w ++ scene_log (calls w)
                            (parseScript (script scriptData) rand) 0
                            (budget scriptData options rand) |})
      as [entries E].
    exists entries. unfold bind. rewrite E. unfold ret. cbn [files calls log].
    rewrite <- !app_assoc. reflexivity.
  - destruct (cleanup_run segments
                {| files := <[listFile := Text (listContent segments)]>
                              (create_all (truthy_paths segments) (files w));
                   calls := (calls w ++ jobs) ++ [concat];
                   log := (log w ++ scene_log (calls w)
                             (parseScript (script scriptData) rand) 0
                             (budget scriptData options rand))
                          ++ [Handled (lit "concatenateVideos") (FfmpegError concat)] |})
      as [entries E].
    exists entries. unfold bind. rewrite E. unfold ret. cbn [files calls log].
    rewrite <- !app_assoc. reflexivity.
Qed.


(** *** Order of the scenes *)

Lemma scene_results_paths (scenes : list Scene.t) :
  ∀ (history : list FfmpegJob) (i : nat) (maxDuration : Q),
    truthy_paths (scene_results history scenes i maxDuration) =
    map scenePath (rendered_indices history scenes i maxDuration).
Proof.
  induction scenes as [|scene rest IH]; intros history i maxDuration; [reflexivity|].
  cbn [scene_results rendered_indices].
  destruct (ffmpeg_ok history (scene_job scene i maxDuration)).
  - rewrite truthy_paths_scene, IH. reflexivity.
  - rewrite truthy_paths_cons_false by reflexivity. apply IH.
Qed.

Lemma rendered_indices_range (scenes : list Scene.t) :
  ∀ (history : list FfmpegJob) (i : nat) (maxDuration : Q),
    Forall (λ k, i ≤ k < i + length scenes)
           (rendered_indices history scenes i maxDuration).
Proof.
  induction scenes as [|scene rest IH]; intros history i maxDuration; [constructor|].
  cbn [rendered_indices length].
  apply Forall_app. split.
  - destruct (ffmpeg_ok history _); repeat constructor; lia.
  - eapply Forall_impl; [apply IH|]. simpl. intros k Hk. lia.
Qed.

Lemma rendered_indices_sorted (scenes : list Scene.t) :
  ∀ (history : list FfmpegJob) (i : nat) (maxDuration : Q),
    StronglySorted lt (rendered_indices history scenes i maxDuration).
Proof.
  induction scenes as [|scene rest IH]; intros history i maxDuration; [constructor|].
  cbn [rendered_indices].
  destruct (ffmpeg_ok history _); [|apply IH].
  simpl. constructor; [apply IH|].
  eapply Forall_impl; [apply rendered_indices_range|]. simpl. intros k Hk. lia.
Qed.

Lemma scene_results_length (scenes : list Scene.t) :
  ∀ (history : list FfmpegJob) (i : nat) (maxDuration : Q),
    length (scene_results history scenes i maxDuration) = length scenes.
Proof.
  induction scenes as [|scene rest IH]; intros history i maxDuration; [reflexivity|].
  cbn [scene_results length]. rewrite IH. reflexivity.
Qed.

(** An index is listed exactly when the segment pushed for it is its file. *)
Lemma rendered_indices_spec (scenes : list Scene.t) :
  ∀ (history : list FfmpegJob) (i : nat) (maxDuration : Q) (k : nat),
    k ∈ rendered_indices history scenes i maxDuration ↔
    i ≤ k ∧ scene_results history scenes i maxDuration !! (k - i)
            = Some (Some (scenePath k)).
Proof.
  induction scenes as [|scene rest IH]; intros history i maxDuration k.
  - simpl. split; [intros H; inversion H|intros [_ H]; discriminate H].
  - cbn [rendered_indices scene_results].
    rewrite elem_of_app, IH.
    destruct (decide (k = i)) as [->|Hne].
    + rewrite Nat.sub_diag. simpl.
      destruct (ffmpeg_ok history _).
      * split; [intros _; split; [lia|reflexivity]|intros _; left; constructor].
      * split; [intros [H|[H _]]; [inversion H|lia]|intros [_ H]; discriminate H].
    + destruct (le_lt_dec (S i) k) as [Hle|Hlt].
      * replace (k - i) with (S (k - S i)) by lia. simpl.
        split.
        -- intros [H|[_ H]]; [|split; [lia|exact H]].
           destruct (ffmpeg_ok history _); inversion H; subst; try lia.
           match goal with H' : _ ∈ [] |- _ => inversion H' end.
        -- intros [_ H]. right. split; [lia|exact H].
      * split.
        -- intros [H|[H _]]; [|lia].
           destruct (ffmpeg_ok history _); inversion H; subst; try lia.
           match goal with H' : _ ∈ [] |- _ => inversion H' end.
        -- intros [H _]. lia.
Qed.

Lemma scene_jobs_imap (scenes : list Scene.t) :
  ∀ (i : nat) (maxDuration : Q),
    scene_jobs scenes i maxDuration =
    imap (λ k scene, scene_job scene (i + k) maxDuration) scenes.
Proof.
  induction scenes as [|scene rest IH]; intros i maxDuration; [reflexivity|].
  cbn [scene_jobs imap]. rewrite Nat.add_0_r. f_equal.
  rewrite IH. apply imap_ext. intros k sc _. simpl. f_equal. lia.
Qed.

(** C3. [concatenateVideos] merges the files it is given in the order of
    the list (dropping [null] entries only), and in a run that list is in
    scene index order: the scene jobs are issued one after the other by
    increasing index, the concat job after all of them, and the list it
    merges names the rendered scene files by strictly increasing scene
    index, exactly the indices whose render succeeded, whatever the
    encoder answered and however long any scene took. *)
Theorem concatenation_in_index_order (scriptData : ScriptData) (options : Options)
    (rand : RandomSource) (w : World) :
  let scenes := parseScript (script scriptData) rand in
  let maxDuration := budget scriptData options rand in
  let indices := rendered_indices (calls w) scenes 0 maxDuration in
  let entry := λ p : path, lit "file '" ++ p ++ lit "'" in
  (∀ videoPaths out w0,
     calls (concatenateVideos videoPaths out w0).2 =
       calls w0
       ++ [ConcatJob listFile (join newline (map entry (truthy_paths videoPaths))) out]
     ∧ sublist (Some <$> truthy_paths videoPaths) videoPaths)
  ∧ calls (createVideoFromScript scriptData options rand w).2 =
      calls w
      ++ imap (λ i scene, scene_job scene i maxDuration) scenes
      ++ [ConcatJob listFile (join newline (map (λ i, entry (scenePath i)) indices))
            (outputPath_of (title scriptData))]
  ∧ StronglySorted lt indices
  ∧ Forall (λ i, i < length scenes) indices
  ∧ ∀ i, i ∈ indices ↔
         scene_results (calls w) scenes 0 maxDuration !! i = Some (Some (scenePath i)).
Proof.
  cbv zeta. split.
  { intros videoPaths out w0. split; [|apply truthy_paths_sublist].
    rewrite concatenateVideos_run. cbv zeta.
    destruct (ffmpeg_ok (calls w0) _); reflexivity. }
  destruct (createVideoFromScript_run scriptData options rand w) as [entries E].
  cbv zeta in E. rewrite E. cbn [snd calls].
  split_and!.
  - unfold listContent. rewrite scene_results_paths, map_map, scene_jobs_imap.
    reflexivity.
  - apply rendered_indices_sorted.
  - eapply Forall_impl; [apply rendered_indices_range|]. simpl. intros k Hk. lia.
  - intros i. rewrite rendered_indices_spec, Nat.sub_0_r.
    split; [tauto|]. intros H. split; [lia|exact H].
Qed.

(** *** Durations handed to the renderer *)

(** C6. The renderer is invoked once per scene, with the duration
    [min(scene.duration, duration / scenes.length)], which never exceeds
    the per-scene budget; for three scenes and a requested duration of 60
    every invocation gets at most [60 / 3], hence at most [60 / 3] plus
    any jitter bound. *)
Theorem render_duration_within_budget (scriptData : ScriptData) (options : Options)
    (rand : RandomSource) (w : World) :
  let scenes := parseScript (script scriptData) rand in
  let requested := requested_duration scriptData options in
  let perScene := (requested / inject_Z (Z.of_nat (length scenes)))%Q in
  (∃ concat,
     calls (createVideoFromScript scriptData options rand w).2 =
     calls w
     ++ imap (λ i scene,
                SceneJob (Scene.text scene)
                         (Qmin (Scene.duration scene) perScene) (scenePath i))
             scenes
     ++ [concat])
  ∧ Forall (λ scene, (Qmin (Scene.duration scene) perScene <= perScene)%Q) scenes
  ∧ (length scenes = 3 → (requested == 60)%Q →
     ∀ jitter, (0 <= jitter)%Q →
       Forall (λ scene, (Qmin (Scene.duration scene) perScene <= 60 / 3 + jitter)%Q)
              scenes).
Proof.
  cbv zeta. split_and!.
  - destruct (createVideoFromScript_run scriptData options rand w) as [entries E].
    cbv zeta in E. rewrite E. cbn [snd calls].
    eexists. rewrite scene_jobs_imap. reflexivity.
  - apply Forall_forall. intros scene _. apply Q.le_min_r.
  - intros Hn Hd jitter Hj. rewrite Hn.
    apply Forall_forall. intros scene _.
    eapply Qle_trans; [apply Q.le_min_r|].
    change (inject_Z (Z.of_nat 3)) with 3%Q. rewrite Hd. lra.
Qed.


(** *** Failures *)

Lemma scene_log_failed (scenes : list Scene.t) :
  ∀ (history : list FfmpegJob) (i : nat) (maxDuration : Q) (k : nat) (scene : Scene.t),
    i ≤ k → scenes !! (k - i) = Some scene →
    k ∉ rendered_indices history scenes i maxDuration →
    Handled (scene_context k) (FfmpegError (scene_job scene k maxDuration))
    ∈ scene_log history scenes i maxDuration.
Proof.
  induction scenes as [|sc rest IH]; intros history i maxDuration k scene Hle Hk Hnot.
  - discriminate Hk.
  - cbn [rendered_indices scene_log] in *.
    rewrite elem_of_app in Hnot. rewrite elem_of_app.
    destruct (decide (k = i)) as [->|Hne].
    + rewrite Nat.sub_diag in Hk. injection Hk as ->.
      destruct (ffmpeg_ok history _).
      * exfalso. apply Hnot. left. constructor.
      * left. constructor.
    + right. apply IH; [lia| |tauto].
      replace (k - i) with (S (k - S i)) in Hk by lia. exact Hk.
Qed.

(** C1 (as amended). [createVideoFromScript] never propagates an error.
    Every scene is attempted and then the concatenation, whatever failed
    before; a scene whose render fails is logged by [ErrorHandler.handle]
    and left out of the list that is concatenated; the call returns the
    output path when the concatenation succeeds and [null], with the error
    logged, when it fails. *)
Theorem createVideoFromScript_swallows_failures (scriptData : ScriptData)
    (options : Options) (rand : RandomSource) (w : World) :
  let scenes := parseScript (script scriptData) rand in
  let maxDuration := budget scriptData options rand in
  let indices := rendered_indices (calls w) scenes 0 maxDuration in
  let jobs := imap (λ i scene, scene_job scene i maxDuration) scenes in
  let out := outputPath_of (title scriptData) in
  let concat :=
    ConcatJob listFile
      (join newline (map (λ i, lit "file '" ++ scenePath i ++ lit "'") indices)) out in
  let run := createVideoFromScript scriptData options rand w in
  run.1 = Ret (if ffmpeg_ok (calls w ++ jobs) concat then Some out else None)
  ∧ calls run.2 = calls w ++ jobs ++ [concat]
  ∧ (∀ i scene, scenes !! i = Some scene → i ∉ indices →
       Handled (scene_context i) (FfmpegError (scene_job scene i maxDuration))
       ∈ log run.2)
  ∧ (ffmpeg_ok (calls w ++ jobs) concat = false →
       Handled (lit "concatenateVideos") (FfmpegError concat) ∈ log run.2).
Proof.
  cbv zeta.
  destruct (createVideoFromScript_run scriptData options rand w) as [entries E].
  cbv zeta in E. rewrite E. cbn [fst snd calls log]. clear E.
  unfold listContent.
  rewrite scene_results_paths, map_map, scene_jobs_imap.
  split_and!; [reflexivity|reflexivity| |].
  - intros i scene Hi Hnot.
    rewrite !elem_of_app. right. left.
    apply scene_log_failed; [lia| |exact Hnot].
    rewrite Nat.sub_0_r. exact Hi.
  - intros Hfail. rewrite !elem_of_app. right. right. left.
    simpl in Hfail |- *. rewrite Hfail. constructor.
Qed.

(** *** Files left behind *)


Lemma lookup_delete_all (ps : list path) :
  ∀ (m : gmap path FileData) (p : path),
    delete_all ps m !! p = if decide (p ∈ ps) then None else m !! p.
Proof.
  induction ps as [|q ps IH]; intros m p.
  - simpl. destruct (decide (p ∈ [])) as [H|_]; [inversion H|reflexivity].
  - cbn [delete_all foldl]. fold (delete_all ps (delete q m)). rewrite IH.
    destruct (decide (p ∈ ps)) as [Hin|Hout].
    + rewrite decide_True by (right; exact Hin). reflexivity.
    + destruct (decide (p = q)) as [->|Hne].
      * rewrite decide_True by left. apply lookup_delete_eq.
      * rewrite lookup_delete_ne by congruence.
        rewrite decide_False; [reflexivity|].
        intros H. inversion H; subst; tauto.
Qed.

Lemma scenePath_inj (i j : nat) : scenePath i = scenePath j → i = j.
Proof.
  unfold scenePath, path_join. intros H.
  repeat apply app_inv_head in H.
  apply app_inv_tail in H. apply of_nat_inj, H.
Qed.



Lemma safe_ffmpeg_run (job : FfmpegJob) (context : jsstring) (w : World) :
  safeExecute (let* p := ffmpeg_run job in ret (Some p)) context None w =
  if ffmpeg_ok (calls w) job
  then (Ret (Some (output_of job)),
        {| files := <[output_of job := Media]> (files w);
           calls := calls w ++ [job]; log := log w |})
  else (Ret None,
        {| files := files w; calls := calls w ++ [job];
           log := log w ++ [Handled context (FfmpegError job)] |}).
Proof.
  unfold safeExecute, try_catch, bind, ffmpeg_run.
  destruct (ffmpeg_ok (calls w) job); reflexivity.
Qed.


(** The settings are missing exactly for the names inherited from
    [Object.prototype]. *)
Lemma platform_settings_None (platform : jsstring) :
  platform_settings platform = None ↔ platform ∈ object_prototype_properties.
Proof.
  unfold platform_settings.
  destruct (decide (platform = lit "youtube")) as [->|_];
    [split; [discriminate|intros H; revert H; compute_done]|].
  destruct (decide (platform = lit "shorts")) as [->|_];
    [split; [discriminate|intros H; revert H; compute_done]|].
  destruct (decide (platform = lit "tiktok")) as [->|_];
    [split; [discriminate|intros H; revert H; compute_done]|].
  destruct (bool_decide_reflect (platform ∈ object_prototype_properties)) as [H|H].
  - split; auto.
  - split; [discriminate|]. intros H'. destruct (H H').
Qed.

(** The two ways [optimizeForPlatform] goes: without a resolution the
    error is handled and no encoder runs; otherwise one encoder job is
    issued. *)
Lemma optimizeForPlatform_run (videoPath platform : jsstring) (w : World) :
  optimizeForPlatform videoPath platform w =
  match platform_settings platform with
  | None =>
      (Ret None,
       {| files := files w; calls := calls w;
          log := log w ++ [Handled (lit "optimizeForPlatform-" ++ platform)
                             size_of_undefined] |})
  | Some settings =>
      safeExecute
        (let* p := ffmpeg_run
                     (OptimizeJob videoPath settings.1 settings.2
                        (replace_expanding (lit ".mp4")
                           (lit "_" ++ platform ++ lit ".mp4") videoPath)) in
         ret (Some p))
        (lit "optimizeForPlatform-" ++ platform) None w
  end.
Proof.
  unfold optimizeForPlatform. cbv zeta.
  destruct (platform_settings platform) as [[resolution bitrate]|]; reflexivity.
Qed.

(** For the platform of [createAndPublishVideo] the replacement has no
    pattern to expand. *)
Lemma optimizeForPlatform_shorts (videoPath : jsstring) (w : World) :
  optimizeForPlatform videoPath (lit "shorts") w =
  safeExecute
    (let* p := ffmpeg_run
                 (OptimizeJob videoPath (lit "1080x1920") (lit "6000k")
                    (replace_first (lit ".mp4")
                       (lit "_" ++ lit "shorts" ++ lit ".mp4") videoPath)) in
     ret (Some p))
    (lit "optimizeForPlatform-" ++ lit "shorts") None w.
Proof.
  rewrite optimizeForPlatform_run.
  change (platform_settings (lit "shorts")) with (Some (lit "1080x1920", lit "6000k")).
  cbn [fst snd].
  rewrite replace_expanding_plain by compute_done. reflexivity.
Qed.






(** The value of a run is [null] or the output path derived from the title. *)
Lemma createVideoFromScript_result (scriptData : ScriptData) (options : Options)
    (rand : RandomSource) (w : World) (p : path) :
  (createVideoFromScript scriptData options rand w).1 = Ret (Some p) →
  p = outputPath_of (title scriptData).
Proof.
  destruct (createVideoFromScript_run scriptData options rand w) as [entries E].
  cbv zeta in E. rewrite E. cbn [fst].
  destruct (ffmpeg_ok _ _); intros H; [|discriminate H].
  injection H as <-. reflexivity.
Qed.

End VideoEditor.

(** ** The paths of the pipeline and [path.join] *)










(** ** The pipeline on concrete runs *)

(** C1, against the claim as stated: with an encoder that fails on the
    second of three scenes the run does not fail; it returns the output
    path, and the list that was concatenated names scenes 0 and 2 only.
    With an encoder that fails on the concatenation the run returns
    [null]; nothing is thrown to the caller in either case. *)
Lemma scene_failure_does_not_abort :
  let run := createVideoFromScript temp videos_output scene_1_fails demo sixty half
               empty_world in
  let failed := createVideoFromScript temp videos_output concat_fails demo sixty half
                  empty_world in
  length (parseScript (script demo) half) = 3
  ∧ scene_1_fails [] (SceneJob (lit "Two") (8 # 2)%Q (lit "temp/video/scene_1.mp4")) = false
  ∧ calls run.2 !! 1 = Some (SceneJob (lit "Two") (8 # 2)%Q (lit "temp/video/scene_1.mp4"))
  ∧ run.1 = Ret (Some (lit "videos/output/Demo_video.mp4"))
  ∧ calls run.2 !! 3 =
      Some (ConcatJob (lit "temp/concat_list.txt")
              (lit "file 'temp/video/scene_0.mp4'" ++ newline
               ++ lit "file 'temp/video/scene_2.mp4'")
              (lit "videos/output/Demo_video.mp4"))
  ∧ failed.1 = Ret None.
Proof. vm_compute. repeat split. Qed.

Lemma createVideoFromScript_swallows_failures_witness :
  let run := createVideoFromScript temp videos_output scene_1_fails demo sixty half
               empty_world in
  Handled (scene_context 1)
    (FfmpegError
       (scene_job temp
          {| Scene.id := 1; Scene.text := lit "Two"; Scene.duration := (3 + half 1%nat * 2)%Q |}
          1 (budget demo sixty half)))
  ∈ log run.2.
Proof.
  destruct (createVideoFromScript_swallows_failures temp videos_output scene_1_fails
              demo sixty half empty_world) as (_ & _ & H & _).
  apply H; [reflexivity|].
  compute_done.
Defined.



(** C5, against the claim as stated: for a one-sentence script and a
    requested duration of 60 the per-scene share is 60, yet the only scene
    lasts 8/2 = 4 seconds (draw 1/2), far outside a range of +-2 (the span
    of [Math.random() * 2]) around 60, and the durations add up to 4, not
    to about 60.  No other bound would do either: whatever the jitter, a
    large enough request leaves the scene duration outside the range. *)
Lemma scene_duration_ignores_request :
  let scenes := parseScript (script hello) half in
  let share := budget hello sixty half in
  map Scene.duration scenes = [(8 # 2)%Q]
  ∧ (share == 60)%Q
  ∧ ¬ Forall (λ sc, (share - 2 <= Scene.duration sc)%Q
                    ∧ (Scene.duration sc <= share + 2)%Q) scenes
  ∧ (total_duration scenes == 4)%Q
  ∧ ¬ ∃ jitter : Q, ∀ sd opts rand, unit_interval rand →
        Forall (λ sc, (budget sd opts rand - jitter <= Scene.duration sc)%Q
                      ∧ (Scene.duration sc <= budget sd opts rand + jitter)%Q)
               (parseScript (script sd) rand).
Proof.
  cbv zeta. split_and!.
  - reflexivity.
  - reflexivity.
  - intros H. apply Forall_inv in H as [H _]. vm_compute in H. apply H. reflexivity.
  - reflexivity.
  - intros [j H].
    specialize (H hello {| opt_duration := Some (j + 10)%Q |} half).
    assert (U : unit_interval half) by (intros k; split; [discriminate|reflexivity]).
    apply H in U. apply Forall_inv in U as [U _].
    change (Scene.duration _) with (3 + (1 # 2) * 2)%Q in U.
    unfold budget in U.
    change (requested_duration _ _) with (j + 10)%Q in U.
    change (inject_Z _) with 1%Q in U.
    assert (E : ((j + 10) / 1 == j + 10)%Q) by field.
    rewrite E in U. lra.
Qed.

Lemma render_duration_within_budget_witness :
  Forall (λ scene, (Qmin (Scene.duration scene)
                         (requested_duration demo sixty
                          / inject_Z (Z.of_nat (length (parseScript (script demo) half))))
                    <= 60 / 3 + 2)%Q)
         (parseScript (script demo) half).
Proof.
  destruct (render_duration_within_budget temp videos_output always_ok demo sixty half
              empty_world) as (_ & _ & H).
  apply H; [reflexivity|reflexivity|discriminate].
Defined.

(** C7. The output path is a function of the title alone: two runs with
    the same title that produce a video return the same path, whatever the
    scripts, options, draws, file tables and encoders are, so the second
    run overwrites the file of the first.  The sanitized name has at most
    100 code units, each an ASCII letter or digit, a CJK character of
    U+4E00..U+9FFF, or an underscore. *)
Theorem output_name_from_title (tempDir outputDir : path) (t : jsstring) :
  length (sanitizeFilename t) ≤ 100
  ∧ Forall safe_char (sanitizeFilename t)
  ∧ ∀ ok1 ok2 sd1 sd2 o1 o2 rand1 rand2 w1 w2 p1 p2,
      title sd1 = t → title sd2 = t →
      (createVideoFromScript tempDir outputDir ok1 sd1 o1 rand1 w1).1 = Ret (Some p1) →
      (createVideoFromScript tempDir outputDir ok2 sd2 o2 rand2 w2).1 = Ret (Some p2) →
      p1 = p2 ∧ p1 = outputDir ++ lit "/" ++ sanitizeFilename t ++ lit ".mp4".
Proof.
  split_and!.
  - apply sanitizeFilename_length.
  - apply sanitizeFilename_safe.
  - intros ok1 ok2 sd1 sd2 o1 o2 rand1 rand2 w1 w2 p1 p2 H1 H2 R1 R2.
    apply createVideoFromScript_result in R1, R2. subst p1 p2.
    rewrite H1, H2. split; reflexivity.
Qed.

Lemma output_name_from_title_witness :
  let other := {| title := lit "Demo video"; script := lit "Other text";
                  sd_duration := None |} in
  let first := createVideoFromScript temp videos_output always_ok demo sixty half
                 empty_world in
  let second := createVideoFromScript temp videos_output scene_1_fails other
                  {| opt_duration := None |} (λ _, 0%Q) first.2 in
  first.1 = Ret (Some (lit "videos/output/Demo_video.mp4"))
  ∧ second.1 = Ret (Some (lit "videos/output/Demo_video.mp4"))
  ∧ lit "videos/output/Demo_video.mp4"
    = videos_output ++ lit "/" ++ sanitizeFilename (lit "Demo video") ++ lit ".mp4"
  ∧ dom (files second.2) = dom (files first.2).
Proof.
  intros other first second.
  assert (R1 : first.1 = Ret (Some (lit "videos/output/Demo_video.mp4")))
    by (vm_compute; reflexivity).
  assert (R2 : second.1 = Ret (Some (lit "videos/output/Demo_video.mp4")))
    by (vm_compute; reflexivity).
  destruct (output_name_from_title temp videos_output (lit "Demo video")) as (_ & _ & H).
  destruct (H always_ok scene_1_fails demo other sixty {| opt_duration := None |}
              half (λ _, 0%Q) empty_world first.2 _ _ eq_refl eq_refl R1 R2)
    as [_ Hpath].
  split_and!; [exact R1|exact R2|exact Hpath|vm_compute; reflexivity].
Defined.

(** ** The queue service *)

Lemma get_queue_unknown (svc : QueueService) (queueName : jsstring) :
  ¬ registered svc queueName → queueName ∉ object_prototype_properties →
  get_queue svc queueName = Undefined.
Proof.
  intros Hreg Hproto. unfold get_queue, registered in *.
  destruct (queues svc !! queueName) as [q|]; [exfalso; eauto|].
  rewrite bool_decide_eq_false_2 by exact Hproto. reflexivity.
Qed.

(** Away from the names every object inherits, the guard works: each
    operation on a queue that is not registered ends in the unknown-queue
    error and leaves the service as it was. *)
Lemma unknown_queue_rejected (svc : QueueService) (queueName jobId : jsstring) :
  ¬ registered svc queueName → queueName ∉ object_prototype_properties →
  getJobStatus svc queueName jobId = Throw (unknown_queue queueName)
  ∧ getQueueStats svc queueName = Throw (unknown_queue queueName)
  ∧ clearQueue svc queueName = (Throw (unknown_queue queueName), svc)
  ∧ pauseQueue svc queueName = (Throw (unknown_queue queueName), svc)
  ∧ resumeQueue svc queueName = (Throw (unknown_queue queueName), svc).
Proof.
  intros Hreg Hproto.
  unfold getJobStatus, getQueueStats, clearQueue, pauseQueue, resumeQueue, queue_command.
  rewrite (get_queue_unknown _ _ Hreg Hproto). repeat split.
Qed.

(** On a registered queue a job id that is not in the queue gives [null]. *)
Lemma missing_job_is_null (svc : QueueService) (queueName jobId : jsstring)
    (q : Bull.Queue) :
  queues svc !! queueName = Some q → Bull.getJob q jobId = None →
  getJobStatus svc queueName jobId = Ret None.
Proof.
  intros Hq Hjob. unfold getJobStatus, get_queue. rewrite Hq, Hjob. reflexivity.
Qed.

(** C8, at the input where the code departs from it: ["constructor"] is
    not a registered queue, yet the guard [!this.queues[queueName]] lets it
    pass, because the lookup finds the property inherited from
    [Object.prototype]; each of the five operations then fails with a
    [TypeError] for the missing method instead of the unknown-queue error.
    A job id that does not exist in a registered queue gives [null]. *)
Theorem inherited_name_passes_guard :
  ¬ registered init (lit "constructor")
  ∧ getJobStatus init (lit "constructor") (lit "1") = Throw (not_a_function "getJob")
  ∧ getQueueStats init (lit "constructor") = Throw (queue_not_a_function "getWaiting")
  ∧ (clearQueue init (lit "constructor")).1 = Throw (not_a_function "empty")
  ∧ (pauseQueue init (lit "constructor")).1 = Throw (not_a_function "pause")
  ∧ (resumeQueue init (lit "constructor")).1 = Throw (not_a_function "resume")
  ∧ not_a_function "getJob" ≠ unknown_queue (lit "constructor")
  ∧ getJobStatus init (lit "videoGeneration") (lit "1") = Ret None.
Proof.
  split_and!; try (vm_compute; reflexivity).
  - unfold registered. intros [q Hq]. vm_compute in Hq. discriminate Hq.
  - discriminate.
Qed.

(** The retry policy handed to the queue library with each job (C9 reads
    the delays off this policy; computing them is the library's part). *)
Lemma retry_policy_configuration (scriptData : ScriptData) (options : Options)
    (priority : Z) (now : N) :
  let video := (addVideoGenerationJob init scriptData options priority now).1 in
  let trend := (addTrendAnalysisJob init priority now).1 in
  (∃ job, video = Ret job
          ∧ Bull.attempts (Bull.opts job) = 3
          ∧ Bull.backoff_type (Bull.opts job) = Bull.exponential
          ∧ Bull.backoff_delay (Bull.opts job) = 2000%N)
  ∧ (∃ job, trend = Ret job
            ∧ Bull.attempts (Bull.opts job) = 2
            ∧ Bull.backoff_type (Bull.opts job) = Bull.fixed
            ∧ Bull.backoff_delay (Bull.opts job) = 5000%N).
Proof.
  cbv zeta. split; eexists; (split; [vm_compute; reflexivity|repeat split]).
Qed.

(** * Further properties of the code *)

(** ** More on [cleanup] *)

Lemma delete_all_cons (p : path) (ps : list path) (m : gmap path FileData) :
  delete_all (p :: ps) m = delete_all ps (delete p m).
Proof. reflexivity. Qed.

Lemma cleanup_accounting (filePaths : list (option path)) :
  ∀ w : World, ∃ warnings,
    cleanup filePaths w =
    (Ret (), {| files := delete_all (truthy_paths filePaths) (files w);
                calls := calls w; log := log w ++ warnings |})
    ∧ length warnings + size (files w)
      = length (truthy_paths filePaths)
        + size (delete_all (truthy_paths filePaths) (files w)).
Proof.
  induction filePaths as [|filePath rest IH]; intros w.
  - exists []. split; [|reflexivity].
    simpl. unfold ret. rewrite app_nil_r. destruct w; reflexivity.
  - cbn [cleanup]. unfold bind, try_catch.
    destruct (truthy filePath) eqn:T.
    + rewrite (truthy_paths_cons_true _ _ T), delete_all_cons. cbn [length].
      unfold unlink.
      destruct (files w !! _) eqn:L.
      * destruct (IH {| files := delete (default [] filePath) (files w);
                        calls := calls w; log := log w |}) as (warnings & E & N).
        exists warnings. split; [exact E|].
        cbn [files] in N. rewrite map_size_delete_Some in N by eauto.
        assert (size (files w) ≠ 0).
        { intros Z. apply map_size_empty_inv in Z. rewrite Z in L.
          rewrite lookup_empty in L. discriminate L. }
        unfold path, jsstring in *. lia.
      * unfold log_entry. rewrite (delete_id _ _ L).
        destruct (IH {| files := files w; calls := calls w;
                        log := log w ++ [UnlinkFailed (default [] filePath)
                                           (ENOENT (default [] filePath))] |})
          as (warnings & E & N).
        exists (UnlinkFailed (default [] filePath) (ENOENT (default [] filePath))
                  :: warnings).
        split.
        -- etrans; [exact E|]. cbn [files calls log].
           rewrite <- app_assoc. reflexivity.
        -- cbn [files length] in N |- *. unfold path, jsstring in *. lia.
    + rewrite (truthy_paths_cons_false _ _ T). unfold ret.
      exact (IH w).
Qed.

(** X1. [cleanup] never throws and invokes no encoder.  Afterwards none of
    the listed files exists and every other file is as before; each listed
    path was either removed or, when it did not exist at its turn, reported
    by one warning. *)
Theorem cleanup_removes_listed_files (filePaths : list (option path)) (w : World) :
  ∃ w' warnings,
    cleanup filePaths w = (Ret (), w')
    ∧ calls w' = calls w
    ∧ log w' = log w ++ warnings
    ∧ (∀ p, p ∈ truthy_paths filePaths → files w' !! p = None)
    ∧ (∀ p, p ∉ truthy_paths filePaths → files w' !! p = files w !! p)
    ∧ length warnings + size (files w)
      = length (truthy_paths filePaths) + size (files w').
Proof.
  destruct (cleanup_accounting filePaths w) as (warnings & E & N).
  eexists _, warnings. split; [exact E|]. cbn [files calls log].
  split_and!; [reflexivity|reflexivity| | |exact N].
  - intros p Hp. rewrite lookup_delete_all, decide_True by exact Hp. reflexivity.
  - intros p Hp. rewrite lookup_delete_all, decide_False by exact Hp. reflexivity.
Qed.

(** ** More on segmentation *)

Lemma trim_start_split (s : jsstring) :
  ∃ l, s = l ++ trim_start s ∧ Forall (λ c, is_space c = true) l.
Proof.
  induction s as [|c s (l & E & F)].
  - exists []. split; [reflexivity|constructor].
  - simpl. destruct (is_space c) eqn:S.
    + exists (c :: l). split; [simpl; congruence|constructor; assumption].
    + exists []. split; [reflexivity|constructor].
Qed.

Lemma trim_start_head (s : jsstring) (c : code_unit) :
  head (trim_start s) = Some c → is_space c = false.
Proof.
  induction s as [|a s IH]; [discriminate|].
  simpl. destruct (is_space a) eqn:S; [exact IH|].
  simpl. intros [= <-]. exact S.
Qed.

(** [trim] cuts white space off both ends and nothing else. *)
Lemma trim_split (s : jsstring) :
  ∃ l r, s = l ++ trim s ++ r
         ∧ Forall (λ c, is_space c = true) l ∧ Forall (λ c, is_space c = true) r.
Proof.
  destruct (trim_start_split s) as (l & El & Fl).
  destruct (trim_start_split (rev (trim_start s))) as (r & Er & Fr).
  exists l, (rev r). split_and!.
  - unfold trim. rewrite <- rev_app_distr, <- Er, rev_involutive. exact El.
  - exact Fl.
  - apply Forall_rev. exact Fr.
Qed.

Lemma last_rev_head {A} (l : list A) : last (rev l) = head l.
Proof. destruct l as [|a l]; [reflexivity|]. simpl. apply last_snoc. Qed.

Lemma trim_last (s : jsstring) (c : code_unit) :
  last (trim s) = Some c → is_space c = false.
Proof.
  unfold trim. rewrite last_rev_head. apply trim_start_head.
Qed.

Lemma trim_head (s : jsstring) (c : code_unit) :
  head (trim s) = Some c → is_space c = false.
Proof.
  intros H. destruct (trim_start_split (rev (trim_start s))) as (r & Er & Fr).
  assert (E : trim_start s = trim s ++ rev r).
  { unfold trim. rewrite <- rev_app_distr, <- Er, rev_involutive. reflexivity. }
  apply (trim_start_head s). rewrite E.
  destruct (trim s); [discriminate H|exact H].
Qed.

Lemma occurs_inside (sub l s r : jsstring) :
  occurs sub s → occurs sub (l ++ s ++ r).
Proof.
  intros (a & b & ->). exists (l ++ a), (b ++ r).
  rewrite <- !app_assoc. reflexivity.
Qed.

(** X2. Every scene text is a sentence piece with the white space at both
    ends removed: it neither starts nor ends with white space and does not
    contain the separator; there are never more scenes than pieces. *)
Theorem scene_text_is_trimmed_piece (script : jsstring) (rand : RandomSource) :
  Forall (λ sc,
            ¬ occurs sentence_sep (Scene.text sc)
            ∧ (∀ c, head (Scene.text sc) = Some c → is_space c = false)
            ∧ (∀ c, last (Scene.text sc) = Some c → is_space c = false)
            ∧ ∃ piece l r,
                piece ∈ split_sentences script
                ∧ piece = l ++ Scene.text sc ++ r
                ∧ Forall (λ c, is_space c = true) l
                ∧ Forall (λ c, is_space c = true) r)
         (parseScript script rand)
  ∧ length (parseScript script rand) ≤ length (split_sentences script).
Proof.
  split.
  - apply Forall_forall. intros sc Hsc.
    apply list_elem_of_lookup in Hsc as [i Hi].
    rewrite parseScript_lookup in Hi.
    destruct (sentences script !! i) as [p|] eqn:Hp; [|discriminate].
    injection Hi as <-. cbn [Scene.text].
    apply list_elem_of_lookup_2, list_elem_of_In in Hp.
    unfold sentences in Hp. apply filter_In in Hp as [Hp _].
    destruct (trim_split p) as (l & r & E & Fl & Fr).
    split_and!.
    + intros Hocc.
      pose proof (split_sentences_pieces script) as F.
      rewrite Forall_forall in F. apply (F p); [apply list_elem_of_In, Hp|].
      rewrite E. apply occurs_inside. exact Hocc.
    + apply trim_head.
    + apply trim_last.
    + exists p, l, r. split_and!; [apply list_elem_of_In, Hp|exact E|exact Fl|exact Fr].
  - rewrite parseScript_length. unfold sentences. apply filter_length_le.
Qed.

(** X3. Round trip: when every piece of the script is non-empty and has no
    white space at its ends, joining the scene texts with the separator
    gives the script back. *)
Theorem parseScript_join_round_trip (script : jsstring) (rand : RandomSource) :
  Forall (λ p, p ≠ [] ∧ trim p = p) (split_sentences script) →
  join sentence_sep (map Scene.text (parseScript script rand)) = script.
Proof.
  intros H. rewrite parseScript_texts. unfold sentences.
  rewrite <- (join_split_sentences script) at 2. f_equal.
  induction H as [|p ps [Hne Ht] _ IH]; [reflexivity|].
  simpl. unfold nonblank at 1. rewrite Ht.
  rewrite bool_decide_eq_true_2 by (destruct p; [easy|simpl; lia]).
  simpl. rewrite Ht, IH. reflexivity.
Qed.

Lemma parseScript_join_round_trip_witness :
  join sentence_sep (map Scene.text (parseScript (lit "One. Two. Three.") half))
  = lit "One. Two. Three.".
Proof.
  apply parseScript_join_round_trip.
  repeat (constructor; [split; [discriminate|reflexivity]|]). constructor.
Defined.

(** ** More on the sanitizer *)

Lemma sanitize_char_fixed (c : code_unit) :
  sanitize_char c = c ↔ class_matches c = true ∨ c = underscore.
Proof.
  unfold sanitize_char. destruct (class_matches c) eqn:H.
  - split; [auto|reflexivity].
  - split; [intros <-; auto|intros [?| ->]; [discriminate|reflexivity]].
Qed.

Lemma sanitize_char_outside (c : code_unit) :
  class_matches c = false → sanitize_char c = underscore.
Proof. unfold sanitize_char. intros ->. reflexivity. Qed.

(** X4. The sanitized name has [min(100, length)] code units, and the
    titles [sanitizeFilename] leaves unchanged are exactly those of at most
    100 code units that consist of class characters and underscores. *)
Theorem sanitizeFilename_fixed_points (s : jsstring) :
  length (sanitizeFilename s) = Nat.min 100 (length s)
  ∧ (sanitizeFilename s = s ↔
     length s ≤ 100 ∧ Forall (λ c, class_matches c = true ∨ c = underscore) s).
Proof.
  assert (L : length (sanitizeFilename s) = Nat.min 100 (length s)).
  { rewrite sanitizeFilename_unfold, length_take, length_map. lia. }
  split; [exact L|]. split.
  - intros E. assert (Hlen : length s ≤ 100) by (rewrite E in L; lia).
    split; [exact Hlen|].
    rewrite sanitizeFilename_unfold, take_ge in E by (rewrite length_map; lia).
    clear L Hlen. induction s as [|c s IH]; [constructor|].
    simpl in E. injection E as Ec Es.
    constructor; [apply sanitize_char_fixed, Ec|apply IH, Es].
  - intros [Hlen F].
    rewrite sanitizeFilename_unfold, take_ge by (rewrite length_map; lia).
    clear L Hlen. induction F as [|c s Hc _ IH]; [reflexivity|].
    simpl. rewrite (proj2 (sanitize_char_fixed c) Hc), IH. reflexivity.
Qed.

Lemma sanitizeFilename_fixed_points_witness :
  sanitizeFilename (lit "Demo_video") = lit "Demo_video".
Proof.
  apply (sanitizeFilename_fixed_points (lit "Demo_video")).
  split; [simpl; lia|].
  repeat (constructor; [first [left; reflexivity|right; reflexivity]|]). constructor.
Defined.

(** X5. The sanitizer is not injective: titles that differ only in a
    character outside the class, or only after the first 100 code units,
    get the same name, hence the same output path. *)
Theorem sanitizeFilename_collisions (outputDir : path) :
  (∀ a b c1 c2,
     class_matches c1 = false → class_matches c2 = false →
     sanitizeFilename (a ++ c1 :: b) = sanitizeFilename (a ++ c2 :: b)
     ∧ outputPath_of outputDir (a ++ c1 :: b) = outputPath_of outputDir (a ++ c2 :: b))
  ∧ (∀ s t u,
       length s = 100 →
       sanitizeFilename (s ++ t) = sanitizeFilename (s ++ u)
       ∧ outputPath_of outputDir (s ++ t) = outputPath_of outputDir (s ++ u)).
Proof.
  split.
  - intros a b c1 c2 H1 H2.
    assert (E : sanitizeFilename (a ++ c1 :: b) = sanitizeFilename (a ++ c2 :: b)).
    { rewrite !sanitizeFilename_unfold, !map_app. cbn [map].
      rewrite (sanitize_char_outside c1 H1), (sanitize_char_outside c2 H2).
      reflexivity. }
    split; [exact E|]. unfold outputPath_of. rewrite E. reflexivity.
  - intros s t u Hlen.
    assert (E : sanitizeFilename (s ++ t) = sanitizeFilename (s ++ u)).
    { rewrite !sanitizeFilename_unfold, !map_app.
      rewrite !take_app_le by (rewrite length_map; lia). reflexivity. }
    split; [exact E|]. unfold outputPath_of. rewrite E. reflexivity.
Qed.

Lemma sanitizeFilename_collisions_witness :
  sanitizeFilename (lit "a b") = sanitizeFilename (lit "a/b")
  ∧ outputPath_of videos_output (lit "a b") = outputPath_of videos_output (lit "a/b").
Proof.
  destruct (sanitizeFilename_collisions videos_output) as [H _].
  apply (H (lit "a") (lit "b") 32%N 47%N); reflexivity.
Defined.

(** ** Scene files *)

Section SceneFiles.

Variables tempDir outputDir : path.
Variable ffmpeg_ok : list FfmpegJob → FfmpegJob → bool.

Lemma scene_accounting (scenes : list Scene.t) :
  ∀ (history : list FfmpegJob) (i : nat) (maxDuration : Q),
    length (rendered_indices tempDir ffmpeg_ok history scenes i maxDuration)
    + length (scene_log tempDir ffmpeg_ok history scenes i maxDuration)
    = length scenes.
Proof.
  induction scenes as [|scene rest IH]; intros history i maxDuration; [reflexivity|].
  cbn [rendered_indices scene_log length]. rewrite !length_app.
  specialize (IH (history ++ [scene_job tempDir scene i maxDuration]) (S i) maxDuration).
  destruct (ffmpeg_ok history _); simpl; lia.
Qed.

Lemma sorted_lt_NoDup (l : list nat) : StronglySorted lt l → NoDup l.
Proof.
  induction 1 as [|a l _ IH Ha]; constructor; [|exact IH].
  intros Hin. rewrite Forall_forall in Ha. specialize (Ha a Hin). lia.
Qed.

(** X6. Distinct scene indices have distinct files, so within a run no
    scene overwrites the file of another: the files named in the concat
    list are pairwise different. *)
Theorem scene_files_distinct (scriptData : ScriptData) (options : Options)
    (rand : RandomSource) (w : World) :
  (∀ i j, scenePath tempDir i = scenePath tempDir j → i = j)
  ∧ NoDup (truthy_paths
             (scene_results tempDir ffmpeg_ok (calls w)
                (parseScript (script scriptData) rand) 0
                (budget scriptData options rand))).
Proof.
  split; [apply scenePath_inj|].
  rewrite scene_results_paths.
  apply NoDup_fmap_2_strong.
  - intros i j _ _. apply scenePath_inj.
  - apply sorted_lt_NoDup, rendered_indices_sorted.
Qed.

Lemma scene_log_shape (scenes : list Scene.t) :
  ∀ (history : list FfmpegJob) (i : nat) (maxDuration : Q),
    Forall (λ e, ∃ k scene,
              i ≤ k ∧ scenes !! (k - i) = Some scene
              ∧ (k ∉ rendered_indices tempDir ffmpeg_ok history scenes i maxDuration)
              ∧ e = Handled (scene_context k)
                      (FfmpegError (scene_job tempDir scene k maxDuration)))
           (scene_log tempDir ffmpeg_ok history scenes i maxDuration).
Proof.
  induction scenes as [|scene rest IH]; intros history i maxDuration; [constructor|].
  cbn [scene_log rendered_indices]. apply Forall_app. split.
  - destruct (ffmpeg_ok history _); [constructor|].
    constructor; [|constructor]. exists i, scene.
    rewrite Nat.sub_diag. split_and!; [lia|reflexivity| |reflexivity].
    simpl. intros Hin.
    pose proof (rendered_indices_range tempDir ffmpeg_ok rest
                  (history ++ [scene_job tempDir scene i maxDuration]) (S i) maxDuration)
      as R.
    rewrite Forall_forall in R. specialize (R i Hin). lia.
  - eapply Forall_impl; [apply IH|]. cbv beta.
    intros e (k & sc & Hk & Hsc & Hnot & ->). exists k, sc.
    split_and!; [lia| | |reflexivity].
    + replace (k - i) with (S (k - S i)) by lia. exact Hsc.
    + rewrite elem_of_app. intros [Hin|Hin]; [|exact (Hnot Hin)].
      destruct (ffmpeg_ok history _); inversion Hin; subst; try lia.
      match goal with H' : _ ∈ [] |- _ => inversion H' end.
Qed.

(** X7. Every scene is accounted for: the rendered scenes and the handled
    scene errors of the log together make up the number of scenes, and
    every such log entry carries the index and the encoder job of a scene
    that was not rendered. *)
Theorem every_scene_rendered_or_logged (scriptData : ScriptData) (options : Options)
    (rand : RandomSource) (w : World) :
  let scenes := parseScript (script scriptData) rand in
  let maxDuration := budget scriptData options rand in
  let indices := rendered_indices tempDir ffmpeg_ok (calls w) scenes 0 maxDuration in
  let failures := scene_log tempDir ffmpeg_ok (calls w) scenes 0 maxDuration in
  let run := createVideoFromScript tempDir outputDir ffmpeg_ok scriptData options rand w in
  (∃ rest, log run.2 = log w ++ failures ++ rest)
  ∧ length indices + length failures = length scenes
  ∧ Forall (λ e, ∃ i scene,
              scenes !! i = Some scene ∧ (i ∉ indices)
              ∧ e = Handled (scene_context i)
                      (FfmpegError (scene_job tempDir scene i maxDuration)))
           failures.
Proof.
  cbv zeta. split_and!.
  - destruct (createVideoFromScript_run tempDir outputDir ffmpeg_ok scriptData options
                rand w) as [entries E].
    cbv zeta in E. rewrite E. cbn [snd log]. eexists. reflexivity.
  - apply scene_accounting.
  - eapply Forall_impl; [apply scene_log_shape|]. cbv beta.
    intros e (k & sc & _ & Hsc & Hnot & ->). exists k, sc.
    rewrite Nat.sub_0_r in Hsc. split_and!; [exact Hsc|exact Hnot|reflexivity].
Qed.

End SceneFiles.

(** ** Derived file names *)

Lemma strip_prefix_Some (p s r : jsstring) :
  strip_prefix p s = Some r ↔ s = p ++ r.
Proof.
  revert s. induction p as [|a p IH]; intros s.
  - simpl. split; [intros [= ->]; reflexivity|intros ->; reflexivity].
  - destruct s as [|b s]; simpl.
    + split; discriminate.
    + unfold code_eqb. destruct (N.eqb_spec a b) as [->|Hne].
      * rewrite IH. split; [intros ->; reflexivity|intros [= ->]; reflexivity].
      * split; [discriminate|intros [= ? _]; congruence].
Qed.

Lemma strip_prefix_None (p s : jsstring) :
  strip_prefix p s = None ↔ ¬ ∃ r, s = p ++ r.
Proof.
  destruct (strip_prefix p s) as [r|] eqn:E.
  - apply strip_prefix_Some in E. split; [discriminate|intros H; exfalso; eauto].
  - split; [|reflexivity]. intros _ [r Hr].
    apply strip_prefix_Some in Hr. congruence.
Qed.

(** [replace] leaves a string without the pattern as it is. *)
Lemma replace_first_absent (pat rep s : jsstring) :
  ¬ occurs pat s → replace_first pat rep s = s.
Proof.
  induction s as [|c s IH]; intros Hno.
  - simpl. destruct (strip_prefix pat []) as [r|] eqn:E; [|reflexivity].
    apply strip_prefix_Some in E. exfalso. apply Hno. exists [], r. exact E.
  - cbn [replace_first].
    destruct (strip_prefix pat (c :: s)) as [r|] eqn:E.
    + apply strip_prefix_Some in E. exfalso. apply Hno. exists [], r. exact E.
    + f_equal. apply IH. intros (l & r & ->). apply Hno.
      exists (c :: l), r. reflexivity.
Qed.

(** [replace] rewrites the first occurrence: a pattern that does not occur
    before position [length a] and starts there is the one replaced. *)
Lemma replace_first_at (pat rep a b : jsstring) :
  (∀ l r, a ++ pat ++ b = l ++ pat ++ r → length a ≤ length l) →
  replace_first pat rep (a ++ pat ++ b) = a ++ rep ++ b.
Proof.
  induction a as [|c a IH]; intros Hfirst.
  - simpl. destruct (pat ++ b) as [|x xs] eqn:Epb.
    + destruct pat; [|discriminate Epb]. simpl in Epb. subst b.
      simpl. rewrite app_nil_r. reflexivity.
    + cbn [replace_first].
      rewrite (proj2 (strip_prefix_Some pat (x :: xs) b)) by (symmetry; exact Epb).
      reflexivity.
  - change ((c :: a) ++ pat ++ b) with (c :: (a ++ pat ++ b)).
    cbn [replace_first].
    destruct (strip_prefix pat (c :: a ++ pat ++ b)) as [r|] eqn:E.
    + apply strip_prefix_Some in E.
      specialize (Hfirst [] r E). simpl in Hfirst. lia.
    + simpl. f_equal. apply IH. intros l r Hl.
      specialize (Hfirst (c :: l) r). simpl in Hfirst.
      rewrite Hl in Hfirst. specialize (Hfirst eq_refl). lia.
Qed.

Lemma replace_mp4_after_name (rep name b : jsstring) :
  Forall (λ c, c ≠ full_stop) name →
  replace_first mp4 rep (name ++ mp4 ++ b) = name ++ rep ++ b.
Proof.
  induction 1 as [|c name Hc _ IH].
  - reflexivity.
  - change ((c :: name) ++ mp4 ++ b) with (c :: (name ++ mp4 ++ b)).
    cbn [replace_first].
    destruct (strip_prefix mp4 (c :: name ++ mp4 ++ b)) as [r|] eqn:E.
    + apply strip_prefix_Some in E. injection E as -> _. contradiction.
    + simpl. f_equal. exact IH.
Qed.

Lemma replace_mp4_after_dir (rep dir rest : jsstring) :
  ¬ occurs mp4 dir →
  replace_first mp4 rep (dir ++ lit "/" ++ rest)
  = dir ++ lit "/" ++ replace_first mp4 rep rest.
Proof.
  induction dir as [|c dir IH]; intros Hno.
  - reflexivity.
  - change ((c :: dir) ++ lit "/" ++ rest) with (c :: (dir ++ lit "/" ++ rest)).
    cbn [replace_first].
    destruct (strip_prefix mp4 (c :: dir ++ lit "/" ++ rest)) as [r|] eqn:E.
    + apply strip_prefix_Some in E. exfalso.
      destruct dir as [|d1 [|d2 [|d3 dir]]]; try discriminate E.
      injection E as -> -> -> -> _. apply Hno. exists [], dir. reflexivity.
    + simpl. f_equal. apply IH. intros (l & r & ->). apply Hno.
      exists (c :: l), r. reflexivity.
Qed.

Lemma safe_char_not_dot (c : code_unit) : safe_char c → c ≠ full_stop.
Proof.
  intros [H|[H|H]] ->; [discriminate H|discriminate H|discriminate H].
Qed.

Lemma sanitized_no_dot (t : jsstring) :
  Forall (λ c, c ≠ full_stop) (sanitizeFilename t).
Proof.
  eapply Forall_impl; [apply sanitizeFilename_safe|]. apply safe_char_not_dot.
Qed.

Lemma replace_first_length (pat rep s : jsstring) :
  occurs pat s →
  length (replace_first pat rep s) + length pat = length s + length rep.
Proof.
  induction s as [|c s IH]; intros Hocc.
  - destruct Hocc as (l & r & E). destruct l; [|discriminate E].
    destruct pat; [|discriminate E]. destruct r; [|discriminate E].
    simpl. rewrite app_nil_r. lia.
  - cbn [replace_first].
    destruct (strip_prefix pat (c :: s)) as [r|] eqn:E.
    + apply strip_prefix_Some in E. rewrite E, !length_app. lia.
    + simpl. rewrite <- IH; [lia|].
      destruct Hocc as (l & r & H). destruct l as [|a l].
      * exfalso. apply strip_prefix_None in E. apply E. exists r. exact H.
      * injection H as _ ->. exists l, r. reflexivity.
Qed.

(** A test for the absence of a pattern that can be run. *)
Lemma absent_check (pat s : jsstring) :
  replace_first pat (pat ++ pat ++ [0%N]) s = s → ¬ occurs pat s.
Proof.
  intros E Hocc.
  pose proof (replace_first_length pat (pat ++ pat ++ [0%N]) s Hocc) as L.
  rewrite E, !length_app in L. simpl in L. lia.
Qed.

Section DerivedNames.

Variables tempDir outputDir : path.
Variable ffmpeg_ok : list FfmpegJob → FfmpegJob → bool.

(** The name [optimizeForPlatform] and [createThumbnail] derive from a
    file directly under the output directory. *)
Lemma replace_mp4_in_output (rep name : jsstring) :
  ¬ occurs mp4 outputDir → Forall (λ c, c ≠ full_stop) name →
  replace_first mp4 rep (path_join outputDir (name ++ lit ".mp4"))
  = path_join outputDir (name ++ rep).
Proof.
  intros Hdir Hname. unfold path_join.
  rewrite replace_mp4_after_dir by exact Hdir.
  change (lit ".mp4") with (mp4 ++ []).
  rewrite replace_mp4_after_name by exact Hname.
  rewrite app_nil_r. reflexivity.
Qed.

(** X8. When the output directory does not contain [.mp4], the files of the
    video stage are named after the sanitized title: the concatenated
    video [<dir>/<name>.mp4], the optimized one [<dir>/<name>_shorts.mp4],
    and the thumbnail after the file it was taken from. *)
Theorem video_stage_file_names (scriptData : ScriptData) (rand : RandomSource)
    (w w' : World) (v : path) (o t : option path) :
  ¬ occurs mp4 outputDir →
  createAndPublishVideo_video tempDir outputDir ffmpeg_ok scriptData rand w
  = (Ret (v, o, t), w') →
  let name := sanitizeFilename (title scriptData) in
  v = path_join outputDir (name ++ lit ".mp4")
  ∧ (o = None ∨ o = Some (path_join outputDir (name ++ lit "_shorts.mp4")))
  ∧ (t = None
     ∨ (o ≠ None ∧ t = Some (path_join outputDir (name ++ lit "_shorts_thumbnail.jpg")))
     ∨ (o = None ∧ t = Some (path_join outputDir (name ++ lit "_thumbnail.jpg")))).
Proof.
  intros Hdir. unfold createAndPublishVideo_video. unfold bind at 1.
  destruct (createVideoFromScript tempDir outputDir ffmpeg_ok scriptData _ rand w)
    as [[r|e] w1] eqn:E1; [|discriminate].
  destruct r as [p|]; [|discriminate].
  assert (Hp : p = outputPath_of outputDir (title scriptData)).
  { eapply createVideoFromScript_result. rewrite E1. reflexivity. }
  subst p. unfold outputPath_of.
  assert (Ht : truthy (Some (path_join outputDir
                               (sanitizeFilename (title scriptData) ++ lit ".mp4")))
               = true).
  { unfold path_join. destruct outputDir; reflexivity. }
  rewrite Ht. cbn [negb default from_option id].
  unfold bind at 1. rewrite optimizeForPlatform_shorts.
  rewrite safe_ffmpeg_run, (replace_mp4_in_output _ _ Hdir (sanitized_no_dot _)).
  cbn [output_of].
  assert (Hs : Forall (λ c, c ≠ full_stop)
                      (sanitizeFilename (title scriptData) ++ lit "_shorts")).
  { apply Forall_app. split; [apply sanitized_no_dot|].
    repeat (constructor; [discriminate|]). constructor. }
  destruct (ffmpeg_ok (calls w1) _).
  - unfold bind at 1, createThumbnail. cbv zeta.
    assert (Ho : truthy (Some (path_join outputDir
                  (sanitizeFilename (title scriptData)
                   ++ lit "_" ++ lit "shorts" ++ lit ".mp4"))) = true).
    { unfold path_join. destruct outputDir; reflexivity. }
    rewrite Ho. cbn [default from_option id].
    rewrite safe_ffmpeg_run.
    change (sanitizeFilename (title scriptData) ++ lit "_" ++ lit "shorts" ++ lit ".mp4")
      with (sanitizeFilename (title scriptData) ++ lit "_shorts" ++ lit ".mp4").
    rewrite app_assoc, (replace_mp4_in_output _ _ Hdir Hs).
    cbn [output_of].
    destruct (ffmpeg_ok _ _); intros [= <- <- <- _]; cbv zeta;
      (split; [reflexivity|]); (split; [right; rewrite <- app_assoc; reflexivity|]).
    + right. left. split; [discriminate|]. rewrite <- app_assoc. reflexivity.
    + left. reflexivity.
  - unfold bind at 1, createThumbnail. cbv zeta. cbn [truthy default from_option id].
    rewrite safe_ffmpeg_run, (replace_mp4_in_output _ _ Hdir (sanitized_no_dot _)).
    cbn [output_of].
    destruct (ffmpeg_ok _ _); intros [= <- <- <- _]; cbv zeta;
      (split; [reflexivity|]); (split; [left; reflexivity|]).
    + right. right. split; reflexivity.
    + left. reflexivity.
Qed.

End DerivedNames.

Lemma video_stage_file_names_witness :
  ∃ v o t,
    (createAndPublishVideo_video temp videos_output always_ok demo half empty_world).1
    = Ret (v, o, t)
    ∧ v = lit "videos/output/Demo_video.mp4"
    ∧ (o = None ∨ o = Some (lit "videos/output/Demo_video_shorts.mp4")).
Proof.
  destruct (createAndPublishVideo_video temp videos_output always_ok demo half empty_world)
    as [[[[v o] t]|e] w'] eqn:E.
  - exists v, o, t. split; [reflexivity|].
    destruct (video_stage_file_names temp videos_output always_ok demo half
                empty_world w' v o t) as (Hv & Ho & _).
    + apply absent_check. reflexivity.
    + exact E.
    + split; [exact Hv|exact Ho].
  - exfalso. vm_compute in E. discriminate E.
Defined.

Section Stages.

Variables tempDir outputDir : path.
Variable ffmpeg_ok : list FfmpegJob → FfmpegJob → bool.

Lemma replace_expanding_absent (pat rep s : jsstring) :
  ¬ occurs pat s → replace_expanding pat rep s = s.
Proof.
  unfold replace_expanding. generalize (@nil code_unit) as before.
  induction s as [|c s IH]; intros before Hno.
  - cbn [replace_from]. destruct (strip_prefix pat []) as [r|] eqn:E; [|reflexivity].
    apply strip_prefix_Some in E. exfalso. apply Hno. exists [], r. exact E.
  - cbn [replace_from].
    destruct (strip_prefix pat (c :: s)) as [r|] eqn:E.
    + apply strip_prefix_Some in E. exfalso. apply Hno. exists [], r. exact E.
    + f_equal. apply IH. intros (l & r & ->). apply Hno.
      exists (c :: l), r. reflexivity.
Qed.

(** X9. For a path that does not contain [.mp4] (another container, or an
    upper-case extension) [optimizeForPlatform] and [createThumbnail] derive
    no new name.  The settings of a platform have a resolution unless its
    name is inherited from [Object.prototype] ([constructor], [toString],
    ...).  With a resolution the encoder is asked to write onto the input
    file itself, and no file is added beyond the input path; without one
    the error is handled, no encoder job is issued, no file changes and
    [null] is returned. *)
Theorem stage_output_is_input_without_mp4 (videoPath platform : jsstring) (w : World) :
  ¬ occurs mp4 videoPath →
  let optimized := optimizeForPlatform ffmpeg_ok videoPath platform w in
  let thumbnail := createThumbnail ffmpeg_ok videoPath w in
  (platform_settings platform = None ↔ platform ∈ object_prototype_properties)
  ∧ (∀ resolution bitrate,
       platform_settings platform = Some (resolution, bitrate) →
       calls optimized.2 = calls w ++ [OptimizeJob videoPath resolution bitrate videoPath]
       ∧ (optimized.1 = Ret (Some videoPath) ∨ optimized.1 = Ret None)
       ∧ dom (files optimized.2) ⊆ dom (files w) ∪ {[videoPath]})
  ∧ (platform_settings platform = None →
     optimized.1 = Ret None
     ∧ calls optimized.2 = calls w
     ∧ files optimized.2 = files w
     ∧ log optimized.2 = log w ++ [Handled (lit "optimizeForPlatform-" ++ platform)
                                     size_of_undefined])
  ∧ calls thumbnail.2 =
      calls w ++ [ThumbnailJob videoPath (lit "00:00:01") videoPath]
  ∧ (thumbnail.1 = Ret (Some videoPath) ∨ thumbnail.1 = Ret None)
  ∧ dom (files thumbnail.2) ⊆ dom (files w) ∪ {[videoPath]}.
Proof.
  intros Hno. cbv zeta. rewrite optimizeForPlatform_run.
  unfold createThumbnail. cbv zeta.
  rewrite safe_ffmpeg_run.
  change (lit ".mp4") with mp4.
  rewrite (replace_first_absent mp4 _ videoPath Hno).
  rewrite (replace_expanding_absent mp4 _ videoPath Hno).
  cbn [output_of].
  split_and!.
  - apply platform_settings_None.
  - intros resolution bitrate ->. rewrite safe_ffmpeg_run. cbn [fst snd output_of].
    split_and!.
    + destruct (ffmpeg_ok _ _); reflexivity.
    + destruct (ffmpeg_ok _ _); [left|right]; reflexivity.
    + destruct (ffmpeg_ok _ _); cbn [snd files].
      * rewrite dom_insert_L, (comm_L (∪)). reflexivity.
      * apply union_subseteq_l.
  - intros ->. split_and!; reflexivity.
  - destruct (ffmpeg_ok _ (ThumbnailJob _ _ _)); reflexivity.
  - destruct (ffmpeg_ok _ (ThumbnailJob _ _ _)); [left|right]; reflexivity.
  - destruct (ffmpeg_ok _ (ThumbnailJob _ _ _)); cbn [snd files].
    + rewrite dom_insert_L, (comm_L (∪)). reflexivity.
    + apply union_subseteq_l.
Qed.

Lemma sentences_blank (script : jsstring) :
  Forall (λ p, nonblank p = false) (split_sentences script) → sentences script = [].
Proof.
  unfold sentences. induction 1 as [|p ps Hp _ IH]; [reflexivity|].
  simpl. rewrite Hp. exact IH.
Qed.

(** X10. A script without a single non-blank piece (the empty script, white
    space, bare separators) gives no scene; the run then renders nothing,
    still writes an empty concat list and asks the encoder to concatenate
    it, and its result is that of this one invocation. *)
Theorem blank_script_run (scriptData : ScriptData) (options : Options)
    (rand : RandomSource) (w : World) :
  Forall (λ p, nonblank p = false) (split_sentences (script scriptData)) →
  let out := outputPath_of outputDir (title scriptData) in
  let concat := ConcatJob (listFile tempDir) [] out in
  let ok := ffmpeg_ok (calls w) concat in
  let run := createVideoFromScript tempDir outputDir ffmpeg_ok scriptData options rand w in
  parseScript (script scriptData) rand = []
  ∧ run.1 = Ret (if ok then Some out else None)
  ∧ calls run.2 = calls w ++ [concat]
  ∧ files run.2 = (if ok then <[out := Media]> else id)
                    (<[listFile tempDir := Text []]> (files w)).
Proof.
  intros Hblank. cbv zeta.
  assert (Hs : parseScript (script scriptData) rand = []).
  { unfold parseScript. rewrite (sentences_blank _ Hblank). reflexivity. }
  split; [exact Hs|].
  destruct (createVideoFromScript_run tempDir outputDir ffmpeg_ok scriptData options
              rand w) as [entries E].
  cbv zeta in E. rewrite E. clear E. rewrite Hs.
  cbn [scene_jobs scene_results truthy_paths omap listContent map join
       create_all delete_all foldl fst snd files calls app].
  rewrite app_nil_r.
  split_and!; [reflexivity|reflexivity|].
  destruct (ffmpeg_ok _ _); reflexivity.
Qed.

End Stages.

Lemma blank_script_run_witness :
  (createVideoFromScript temp videos_output always_ok
     {| title := lit "Empty"; script := lit " . "; sd_duration := None |}
     sixty half empty_world).1
  = Ret (Some (lit "videos/output/Empty.mp4")).
Proof.
  destruct (blank_script_run temp videos_output always_ok
              {| title := lit "Empty"; script := lit " . "; sd_duration := None |}
              sixty half empty_world) as (_ & H & _).
  - repeat (constructor; [reflexivity|]). constructor.
  - exact H.
Defined.

Lemma stage_output_is_input_without_mp4_witness :
  (optimizeForPlatform always_ok (lit "clips/final.MP4") (lit "shorts") empty_world).1
  = Ret (Some (lit "clips/final.MP4"))
  ∧ (optimizeForPlatform always_ok (lit "clips/final.MP4") (lit "constructor")
       empty_world).1 = Ret None.
Proof.
  split.
  - destruct (stage_output_is_input_without_mp4 always_ok (lit "clips/final.MP4")
                (lit "shorts") empty_world) as (_ & H & _).
    + apply absent_check. reflexivity.
    + destruct (H (lit "1080x1920") (lit "6000k")) as (_ & [H'|H'] & _);
        [reflexivity|exact H'|].
      exfalso. vm_compute in H'. discriminate H'.
  - destruct (stage_output_is_input_without_mp4 always_ok (lit "clips/final.MP4")
                (lit "constructor") empty_world) as (Hi & _ & H & _).
    + apply absent_check. reflexivity.
    + apply H, Hi. compute_done.
Defined.

(** ** The output file and the scene files *)

Section OutputFile.

Variables tempDir outputDir : path.
Variable ffmpeg_ok : list FfmpegJob → FfmpegJob → bool.


End OutputFile.


Section DeletedOutput.

Variables tempDir outputDir : path.
Variable ffmpeg_ok : list FfmpegJob → FfmpegJob → bool.

(** X12. When the output directory is the scene directory and the sanitized
    title is the name of a rendered scene, [createVideoFromScript] returns
    the path of a file that its own [cleanup] has deleted. *)
Theorem final_video_deleted_as_scene (scriptData : ScriptData) (options : Options)
    (rand : RandomSource) (w : World) (p : path) (i : nat) :
  outputDir = tempDir ++ lit "/video" →
  sanitizeFilename (title scriptData) = lit "scene_" ++ of_nat i →
  i ∈ rendered_indices tempDir ffmpeg_ok (calls w)
        (parseScript (script scriptData) rand) 0
        (budget scriptData options rand) →
  let run := createVideoFromScript tempDir outputDir ffmpeg_ok scriptData options rand w in
  run.1 = Ret (Some p) →
  p = scenePath tempDir i ∧ files run.2 !! p = None.
Proof.
  intros Hdir Hname Hin. cbv zeta.
  destruct (createVideoFromScript_run tempDir outputDir ffmpeg_ok scriptData options rand w)
    as [entries E].
  cbv zeta in E. rewrite E. cbn [fst snd files].
  destruct (ffmpeg_ok _ _); intros H; [|discriminate H].
  injection H as <-.
  assert (Hp : outputPath_of outputDir (title scriptData) = scenePath tempDir i).
  { unfold outputPath_of, scenePath, path_join. rewrite Hname, Hdir.
    rewrite <- !app_assoc. reflexivity. }
  split; [exact Hp|].
  rewrite lookup_delete_all, scene_results_paths, Hp.
  rewrite decide_True; [reflexivity|].
  apply list_elem_of_fmap. exists i. split; [reflexivity|exact Hin].
Qed.

End DeletedOutput.


Lemma final_video_deleted_as_scene_witness :
  let scriptData := {| title := lit "scene 0"; script := lit "One. Two.";
                       sd_duration := None |} in
  let run := createVideoFromScript temp (lit "temp/video") always_ok scriptData sixty half
               empty_world in
  run.1 = Ret (Some (lit "temp/video/scene_0.mp4"))
  ∧ files run.2 !! lit "temp/video/scene_0.mp4" = None.
Proof.
  cbv zeta.
  assert (R : (createVideoFromScript temp (lit "temp/video") always_ok
                 {| title := lit "scene 0"; script := lit "One. Two.";
                    sd_duration := None |} sixty half empty_world).1
              = Ret (Some (lit "temp/video/scene_0.mp4")))
    by (vm_compute; reflexivity).
  split; [exact R|].
  apply (final_video_deleted_as_scene temp (lit "temp/video") always_ok _ sixty half
           empty_world (lit "temp/video/scene_0.mp4") 0).
  - reflexivity.
  - reflexivity.
  - compute_done.
  - exact R.
Defined.

Section AutomationCounter.

Variables tempDir outputDir : path.
Variable ffmpeg_ok : list FfmpegJob → FfmpegJob → bool.

(** The outcome a completion carries is the one of [uploadVideo] on the
    call it carries. *)
Lemma body_upload_outcome (c : Collaborators) (rand : RandomSource) (w w' : World)
    (call : UploadCall) (outcome : UploadOutcome) :
  createAndPublishVideo_body tempDir outputDir ffmpeg_ok c rand w
  = (UploadSettled call outcome, w') →
  outcome = uploadVideo c call.
Proof.
  unfold createAndPublishVideo_body.
  destruct (content_ideas c) as [[|idea ideas]|]; try discriminate.
  destruct (idea_scriptData c idea) as [scriptData|e]; try discriminate.
  destruct (createAndPublishVideo_video tempDir outputDir ffmpeg_ok scriptData rand w)
    as [[[[v o] t]|e] w1]; try discriminate.
  destruct (optimizeVideoMetadata c scriptData) as [reply|e]; try discriminate.
  destruct (upload_metadata c reply scriptData) as [ot|]; try discriminate.
  cbv zeta. intros [= <- <- _]. reflexivity.
Qed.

(** X13. The daily counter and the result of a call of
    [createAndPublishVideo] that no other call overlaps (X17 is about calls
    that overlap).  At the cap nothing happens at all.  Otherwise at most
    one upload is requested; the result is a video exactly when that upload
    returned one, while the counter goes up by one exactly when the upload
    call returned, also when it returned [null] for a failed upload.  Such
    a call does not take the counter past a cap it was under, and the cap
    itself never changes.  The counters after the call are those of the
    two events, the call starts and the call settles, with no event in
    between. *)
Theorem createAndPublishVideo_counter (c : Collaborators) (a : Automation)
    (rand : RandomSource) (w : World) :
  let run := createAndPublishVideo tempDir outputDir ffmpeg_ok c a rand w in
  let a' := run.1.2 in
  let k := (createAndPublishVideo_body tempDir outputDir ffmpeg_ok c rand w).1 in
  ((maxVideosPerDay a <= videoCount a)%Z → run = (None, a, w))
  ∧ maxVideosPerDay a' = maxVideosPerDay a
  ∧ ((videoCount a <= maxVideosPerDay a)%Z → (videoCount a' <= maxVideosPerDay a')%Z)
  ∧ (uploads a' = uploads a ∨ ∃ call, uploads a' = uploads a ++ [call])
  ∧ (∀ r, run.1.1 = Some r ↔
          ∃ call, uploads a' = uploads a ++ [call] ∧ uploadVideo c call = Uploaded r)
  ∧ ((videoCount a' = videoCount a + 1)%Z ↔
     ∃ call, uploads a' = uploads a ++ [call] ∧ ∀ e, uploadVideo c call ≠ UploadThrows e)
  ∧ (videoCount a' = videoCount a ∨ videoCount a' = videoCount a + 1)%Z
  ∧ automation (call_events (idle a) [CallStarts; CallSettles k]) = a'.
Proof.
  cbv zeta. unfold createAndPublishVideo, call_events, idle, cap_reached.
  cbn [foldl call_event automation in_flight]. unfold cap_reached.
  assert (Hneq : ∀ (l : list UploadCall) x, l ≠ l ++ [x]).
  { intros l x E. apply (f_equal length) in E. rewrite length_app in E.
    simpl in E. lia. }
  destruct (Z.leb_spec (maxVideosPerDay a) (videoCount a)) as [Hcap|Hcap].
  { cbn [fst snd automation in_flight]. split_and!; auto; try lia.
    - intros r. split; [discriminate|]. intros (x & E & _). destruct (Hneq _ _ E).
    - split; [lia|]. intros (x & E & _). destruct (Hneq _ _ E). }
  split; [lia|].
  destruct (createAndPublishVideo_body tempDir outputDir ffmpeg_ok c rand w)
    as [[e|call outcome] w'] eqn:B; cbn [fst snd settle automation in_flight].
  { split_and!; auto; try lia.
    - intros r. split; [discriminate|]. intros (x & E & _). destruct (Hneq _ _ E).
    - split; [lia|]. intros (x & E & _). destruct (Hneq _ _ E). }
  apply body_upload_outcome in B.
  destruct outcome as [e| |res]; cbn [fst snd videoCount maxVideosPerDay uploads].
  - split_and!; [reflexivity|lia|right; eauto| | |left; reflexivity|reflexivity].
    + intros r. split; [discriminate|]. intros (x & E & Hx).
      apply app_inv_head in E. injection E as <-. congruence.
    + split; [lia|]. intros (x & E & Hx).
      apply app_inv_head in E. injection E as <-. destruct (Hx e). congruence.
  - split_and!; [reflexivity|lia|right; eauto| | |right; reflexivity|reflexivity].
    + intros r. split; [discriminate|]. intros (x & E & Hx).
      apply app_inv_head in E. injection E as <-. congruence.
    + split; [|reflexivity]. intros _. exists call. split; [reflexivity|].
      intros e. congruence.
  - split_and!; [reflexivity|lia|right; eauto| | |right; reflexivity|reflexivity].
    + intros r. split.
      * intros [= <-]. exists call. split; [reflexivity|congruence].
      * intros (x & E & Hx). apply app_inv_head in E. injection E as <-. congruence.
    + split; [|reflexivity]. intros _. exists call. split; [reflexivity|].
      intros e. congruence.
Qed.

End AutomationCounter.

Lemma createAndPublishVideo_counter_witness :
  createAndPublishVideo temp videos_output always_ok upload_returns_null at_cap half
    empty_world
  = (None, at_cap, empty_world)
  ∧ videoCount
      (createAndPublishVideo temp videos_output always_ok upload_returns_null new_day half
         empty_world).1.2
    = 1%Z.
Proof.
  split.
  - apply (createAndPublishVideo_counter temp videos_output always_ok
             upload_returns_null at_cap half empty_world).
    vm_compute. discriminate.
  - destruct (createAndPublishVideo_counter temp videos_output always_ok
                upload_returns_null new_day half empty_world)
      as (_ & _ & _ & _ & _ & H & _).
    apply H.
    exists {| upload_file := lit "videos/output/Demo_video_shorts.mp4";
              upload_title := lit "Demo video";
              upload_thumbnail :=
                Some (lit "videos/output/Demo_video_shorts_thumbnail.jpg") |}.
    split; [vm_compute; reflexivity|]. intros e. discriminate.
Defined.

Section Upload.

Variables tempDir outputDir : path.
Variable ffmpeg_ok : list FfmpegJob → FfmpegJob → bool.



End Upload.



(** ** The queue service and the job route *)

Lemma get_queue_own (svc : QueueService) (queueName : jsstring) (q : Bull.Queue) :
  queues svc !! queueName = Some q → get_queue svc queueName = OwnQueue q.
Proof. unfold get_queue. intros ->. reflexivity. Qed.

Lemma get_queue_not_own (svc : QueueService) (queueName : jsstring) :
  queues svc !! queueName = None → ∀ q, get_queue svc queueName ≠ OwnQueue q.
Proof.
  unfold get_queue. intros -> q. destruct (bool_decide _); discriminate.
Qed.

Lemma getQueueStats_own (svc : QueueService) (queueName : jsstring) (q : Bull.Queue) :
  queues svc !! queueName = Some q → getQueueStats svc queueName = Ret (stats_of q).
Proof. intros H. unfold getQueueStats. rewrite (get_queue_own _ _ _ H). reflexivity. Qed.

Lemma getQueueStats_reading_own (reads : jsstring → option JsError)
    (svc : QueueService) (queueName : jsstring) (q : Bull.Queue) :
  queues svc !! queueName = Some q →
  getQueueStats_reading reads svc queueName
  = match reads queueName with Some e => Throw e | None => Ret (stats_of q) end.
Proof.
  intros H. unfold getQueueStats_reading. rewrite (getQueueStats_own _ _ _ H).
  destruct (reads queueName); reflexivity.
Qed.

Lemma getAllStats_loop_thrown (reads : jsstring → option JsError) (svc : QueueService)
    (entries : list (jsstring * Bull.Queue)) (e : JsError) :
  foldl (getAllStats_step reads svc) (Throw e) entries = Throw e.
Proof. induction entries as [|entry entries IH]; [reflexivity|exact IH]. Qed.

(** The loop over own entries: it returns the table of their counts when
    every read answers, and throws the error of a read otherwise. *)
Lemma getAllStats_loop_own (reads : jsstring → option JsError) (svc : QueueService)
    (entries : list (jsstring * Bull.Queue)) :
  ∀ stats,
    Forall (λ entry, queues svc !! entry.1 = Some entry.2) entries →
    (Forall (λ entry, reads entry.1 = None) entries
     ∧ getAllStats_loop reads svc entries stats
       = Ret (foldl (λ m entry, <[entry.1 := stats_of entry.2]> m) stats entries))
    ∨ (∃ entry e, entry ∈ entries ∧ reads entry.1 = Some e
                  ∧ getAllStats_loop reads svc entries stats = Throw e).
Proof.
  unfold getAllStats_loop.
  induction entries as [|[name q] entries IH]; intros stats F.
  { left. split; [constructor|reflexivity]. }
  inversion F as [|? ? Hq F']; subst. cbn [foldl fst snd] in *.
  assert (S : getAllStats_step reads svc (Ret stats) (name, q)
              = match reads name with
                | Some e => Throw e
                | None => Ret (<[name := stats_of q]> stats)
                end).
  { unfold getAllStats_step. cbn [fst snd].
    rewrite (getQueueStats_reading_own reads _ _ _ Hq).
    destruct (reads name); reflexivity. }
  rewrite S. clear S.
  destruct (reads name) as [e|] eqn:R.
  - right. exists (name, q), e. split_and!; [left|exact R|].
    apply getAllStats_loop_thrown.
  - destruct (IH (<[name := stats_of q]> stats) F') as [[Hall E]|(entry & e & Hin & Hr & E)].
    + left. split; [constructor; [exact R|exact Hall]|exact E].
    + right. exists entry, e. split_and!; [right; exact Hin|exact Hr|exact E].
Qed.

Lemma foldl_insert_stats (entries : list (jsstring * Bull.Queue)) :
  ∀ stats : gmap jsstring QueueStats,
    NoDup entries.*1 →
    ∀ name,
      foldl (λ m entry, <[entry.1 := stats_of entry.2]> m) stats entries !! name
      = match list_to_map (M := gmap jsstring Bull.Queue) entries !! name with
        | Some q => Some (stats_of q)
        | None => stats !! name
        end.
Proof.
  induction entries as [|[k q] entries IH]; intros stats ND name; [reflexivity|].
  cbn [foldl fst snd fmap list_fmap] in *. apply NoDup_cons in ND as [Hk ND].
  rewrite (IH _ ND).
  change (list_to_map ((k, q) :: entries))
    with (<[k := q]> (list_to_map (M := gmap jsstring Bull.Queue) entries)).
  destruct (decide (name = k)) as [->|Hne].
  - rewrite (not_elem_of_list_to_map_1 _ _ Hk). rewrite !lookup_insert_eq. reflexivity.
  - rewrite (lookup_insert_ne (list_to_map entries)) by congruence.
    destruct (list_to_map entries !! name); [reflexivity|].
    rewrite lookup_insert_ne by congruence. reflexivity.
Qed.

(** X15. [getAllStats] visits exactly the registered queues, whatever
    their names are.  It has no [try]: it returns exactly when the reads
    of every registered queue answer, and then reports each registered
    queue, and nothing else, with the counts [getQueueStats] gives for it;
    when it throws, the error is the one of the reads of a registered
    queue, never the error of the guard of [getQueueStats]. *)
Theorem getAllStats_reports_registered (reads : jsstring → option JsError)
    (svc : QueueService) :
  let result := getAllStats reads svc in
  ((∃ stats, result = Ret stats) ↔ ∀ name, registered svc name → reads name = None)
  ∧ (∀ stats, result = Ret stats →
       dom stats = dom (queues svc)
       ∧ (∀ name q, queues svc !! name = Some q → stats !! name = Some (stats_of q))
       ∧ (∀ name s, stats !! name = Some s ↔
                    registered svc name ∧ getQueueStats svc name = Ret s))
  ∧ (∀ e, result = Throw e → ∃ name, registered svc name ∧ reads name = Some e).
Proof.
  cbv zeta. unfold getAllStats.
  assert (Hown : Forall (λ entry, queues svc !! entry.1 = Some entry.2)
                   (map_to_list (queues svc))).
  { apply Forall_forall. intros [name q] H. apply elem_of_map_to_list in H. exact H. }
  assert (L : ∀ name,
             foldl (λ m entry, <[entry.1 := stats_of entry.2]> m)
                   (∅ : gmap jsstring QueueStats)
                   (map_to_list (queues svc)) !! name
             = stats_of <$> (queues svc !! name)).
  { intros name. rewrite foldl_insert_stats by apply NoDup_fst_map_to_list.
    rewrite list_to_map_to_list, lookup_empty.
    destruct (queues svc !! name); reflexivity. }
  destruct (getAllStats_loop_own reads svc _ ∅ Hown)
    as [[Hall E]|((name & q) & e & Hin & Hr & E)]; rewrite E; clear E.
  - rewrite Forall_forall in Hall. split_and!.
    + split; [|eauto]. intros _ name [q Hq].
      apply (Hall (name, q)), elem_of_map_to_list, Hq.
    + intros stats [= <-]. split_and!.
      * apply set_eq. intros name. rewrite !elem_of_dom, L.
        destruct (queues svc !! name); simpl; split; intros [x Hx]; eauto; discriminate.
      * intros name q Hq. rewrite L, Hq. reflexivity.
      * intros name s. rewrite L. unfold registered. split.
        -- destruct (queues svc !! name) as [q|] eqn:Hq; [|discriminate].
           simpl. intros [= <-]. split; [eauto|]. apply getQueueStats_own, Hq.
        -- intros [[q Hq] Hs]. rewrite (getQueueStats_own _ _ _ Hq) in Hs.
           injection Hs as <-. rewrite Hq. reflexivity.
    + discriminate.
  - apply elem_of_map_to_list in Hin. cbn [fst] in Hr. split_and!.
    + split; [intros [stats H]; discriminate H|].
      intros H. rewrite (H name) in Hr by (eexists; exact Hin). discriminate Hr.
    + discriminate.
    + intros e' [= <-]. exists name. split; [eexists; exact Hin|exact Hr].
Qed.

Lemma add_to_dom (svc : QueueService) (key name : jsstring) (data : Bull.JobData)
    (opts : Bull.JobOptions) (now : N) :
  dom (queues (add_to svc key name data opts now).2) = dom (queues svc).
Proof.
  unfold add_to, get_queue.
  destruct (queues svc !! key) as [q|] eqn:Hq.
  - unfold Bull.add. cbn [snd queues]. rewrite dom_insert_L.
    apply (elem_of_dom_2 (D := gset jsstring)) in Hq.
    apply subseteq_union_1_L, singleton_subseteq_l, Hq.
  - destruct (bool_decide _); reflexivity.
Qed.

Lemma queue_command_dom (method : string) (f : Bull.Queue → Bull.Queue)
    (svc : QueueService) (queueName : jsstring) :
  dom (queues (queue_command method f svc queueName).2) = dom (queues svc).
Proof.
  unfold queue_command, get_queue.
  destruct (queues svc !! queueName) as [q|] eqn:Hq.
  - cbn [snd queues]. rewrite dom_insert_L.
    apply (elem_of_dom_2 (D := gset jsstring)) in Hq.
    apply subseteq_union_1_L, singleton_subseteq_l, Hq.
  - destruct (bool_decide _); reflexivity.
Qed.

Lemma service_step_dom (svc svc' : QueueService) :
  service_step svc svc' → dom (queues svc') = dom (queues svc).
Proof.
  destruct 1; try apply add_to_dom; try apply queue_command_dom; [|reflexivity].
  cbn [queues]. rewrite dom_insert_L.
  match goal with H : _ !! _ = Some _ |- _ =>
    apply (elem_of_dom_2 (D := gset jsstring)) in H;
    apply subseteq_union_1_L, singleton_subseteq_l, H end.
Qed.

Lemma reachable_dom (svc : QueueService) :
  reachable svc → dom (queues svc) = dom (queues init).
Proof.
  induction 1 as [|svc svc' _ IH Hstep]; [reflexivity|].
  rewrite (service_step_dom _ _ Hstep). exact IH.
Qed.

(** X16. No method of the service, and no work of Bull on a queue, adds or
    removes a queue: in every state the service can reach after its
    constructor exactly the four queues are registered, so each of the
    four [add] methods finds the queue it adds to (the property read
    yields a queue, neither [undefined] nor an inherited member).  Whether
    [queue.add] then succeeds is up to Bull and its store. *)
Theorem registered_queues_invariant (svc : QueueService) :
  reachable svc →
  (∀ queueName,
     registered svc queueName ↔
     queueName ∈ [lit "videoGeneration"; lit "trendAnalysis"; lit "videoUpload";
                  lit "aiProcessing"])
  ∧ (∀ key,
       key ∈ [lit "videoGeneration"; lit "trendAnalysis"; lit "videoUpload";
              lit "aiProcessing"] →
       ∃ q, get_queue svc key = OwnQueue q)
  ∧ dom (queues svc) = dom (queues init).
Proof.
  intros Hreach. apply reachable_dom in Hreach.
  assert (Hreg : ∀ queueName,
             registered svc queueName ↔
             queueName ∈ [lit "videoGeneration"; lit "trendAnalysis"; lit "videoUpload";
                          lit "aiProcessing"]).
  { intros queueName. unfold registered. rewrite <- elem_of_dom, Hreach.
    unfold init. cbn [queues]. rewrite !dom_insert_L, dom_empty_L.
    rewrite !elem_of_union, !elem_of_singleton, elem_of_empty.
    rewrite !elem_of_cons, elem_of_nil. tauto. }
  split_and!; [exact Hreg| |exact Hreach].
  intros key Hkey. apply Hreg in Hkey as [q Hq].
  exists q. apply get_queue_own, Hq.
Qed.

Lemma registered_queues_invariant_witness :
  let svc := (pauseQueue (addVideoGenerationJob init demo sixty 0 0).2
                (lit "videoUpload")).2 in
  registered svc (lit "trendAnalysis") ∧ ¬ registered svc (lit "constructor").
Proof.
  cbv zeta.
  destruct (registered_queues_invariant
              (pauseQueue (addVideoGenerationJob init demo sixty 0 0).2
                 (lit "videoUpload")).2) as [H _].
  - eapply reachable_step; [eapply reachable_step; [apply reachable_init|]|].
    + apply step_addVideoGenerationJob.
    + apply step_pauseQueue.
  - split.
    + apply H. right. left.
    + intros Hc. apply H in Hc. revert Hc. compute_done.
Defined.

(** ** Calls that overlap *)

Lemma in_flight_le_peak (s : Calls) (events : list CallEvent) :
  in_flight s ≤ peak s events.
Proof. destruct events; simpl; lia. Qed.

Lemma settle_counters (a : Automation) (k : Completion) :
  maxVideosPerDay (settle a k).2 = maxVideosPerDay a
  ∧ (videoCount (settle a k).2 = videoCount a
     ∨ videoCount (settle a k).2 = videoCount a + 1)%Z.
Proof.
  destruct k as [e|call [e| |r]]; simpl; auto.
Qed.

(** With at most [P] calls in flight, the counter and the calls in flight
    together stay within [P - 1] of the cap. *)
Lemma call_events_bound (P : nat) (events : list CallEvent) :
  ∀ s : Calls,
    peak s events ≤ P →
    (0 < maxVideosPerDay (automation s))%Z →
    (videoCount (automation s) + Z.of_nat (in_flight s)
     <= maxVideosPerDay (automation s) + Z.of_nat (Nat.pred P))%Z →
    maxVideosPerDay (automation (call_events s events)) = maxVideosPerDay (automation s)
    ∧ (videoCount (automation (call_events s events))
       + Z.of_nat (in_flight (call_events s events))
       <= maxVideosPerDay (automation s) + Z.of_nat (Nat.pred P))%Z.
Proof.
  induction events as [|e events IH]; intros s Hpeak Hmax Hsum; [auto|].
  cbn [peak] in Hpeak.
  pose proof (in_flight_le_peak (call_event s e) events) as Hnext.
  assert (Hp : peak (call_event s e) events ≤ P) by lia.
  assert (Hs : in_flight s ≤ P) by lia.
  change (call_events s (e :: events)) with (call_events (call_event s e) events).
  destruct e as [|k|].
  - unfold call_event in *. unfold cap_reached in *.
    destruct (Z.leb_spec (maxVideosPerDay (automation s)) (videoCount (automation s))).
    + apply IH; assumption.
    + cbn [automation in_flight] in Hnext.
      destruct (IH {| automation := automation s; in_flight := S (in_flight s) |})
        as [H1 H2]; cbn [automation in_flight]; try assumption; try lia.
      split; assumption.
  - unfold call_event in *. destruct (in_flight s) as [|n] eqn:En.
    + apply IH; try assumption. rewrite En. exact Hsum.
    + destruct (settle_counters (automation s) k) as [Hm Hv].
      destruct (IH {| automation := (settle (automation s) k).2; in_flight := n |})
        as [H1 H2]; cbn [automation in_flight]; try assumption; try lia.
      cbn [automation in_flight] in H1, H2.
      split; [congruence|]. rewrite Hm in H2. exact H2.
  - unfold call_event in *. cbn [automation in_flight] in Hnext.
    destruct (IH {| automation := {| videoCount := 0;
                                     maxVideosPerDay := maxVideosPerDay (automation s);
                                     uploads := uploads (automation s) |};
                    in_flight := in_flight s |})
      as [H1 H2]; cbn [automation in_flight videoCount maxVideosPerDay];
      try assumption; try lia.
    split; assumption.
Qed.

Lemma call_events_app (s : Calls) (l1 l2 : list CallEvent) :
  call_events s (l1 ++ l2) = call_events (call_events s l1) l2.
Proof. apply foldl_app. Qed.

Lemma peak_app (l1 l2 : list CallEvent) :
  ∀ s, peak s (l1 ++ l2) = Nat.max (peak s l1) (peak (call_events s l1) l2).
Proof.
  induction l1 as [|e l1 IH]; intros s.
  - cbn [app peak call_events foldl].
    pose proof (in_flight_le_peak s l2). lia.
  - cbn [app peak]. rewrite IH.
    change (call_events s (e :: l1)) with (call_events (call_event s e) l1). lia.
Qed.

(** [m] calls that start under the cap all pass the guard. *)
Lemma starts_under_cap (a : Automation) (m : nat) :
  (videoCount a < maxVideosPerDay a)%Z →
  ∀ n, call_events {| automation := a; in_flight := n |} (replicate m CallStarts)
       = {| automation := a; in_flight := n + m |}
       ∧ peak {| automation := a; in_flight := n |} (replicate m CallStarts) = n + m.
Proof.
  intros Hcap. induction m as [|m IH]; intros n.
  - cbn. rewrite Nat.add_0_r. auto.
  - cbn [replicate peak].
    change (call_events ?s (CallStarts :: ?l)) with (call_events (call_event s CallStarts) l).
    unfold call_event, cap_reached. cbn [automation in_flight].
    destruct (Z.leb_spec (maxVideosPerDay a) (videoCount a)); [lia|].
    destruct (IH (S n)) as [E P]. rewrite E, P.
    split; [f_equal; lia|lia].
Qed.

(** [m] calls in flight whose upload returned settle one after the other. *)
Lemma settles_count (call : UploadCall) (outcome : UploadOutcome) (m : nat) :
  (∀ e, outcome ≠ UploadThrows e) →
  ∀ a n,
    let s := {| automation := a; in_flight := m + n |} in
    let events := replicate m (CallSettles (UploadSettled call outcome)) in
    videoCount (automation (call_events s events)) = (videoCount a + Z.of_nat m)%Z
    ∧ peak s events = m + n.
Proof.
  intros Hout. induction m as [|m IH]; intros a n; cbv zeta.
  - cbn. split; [lia|reflexivity].
  - cbn [replicate peak].
    change (call_events ?s (?e :: ?l)) with (call_events (call_event s e) l).
    cbn [call_event in_flight automation plus].
    destruct (IH (settle a (UploadSettled call outcome)).2 n) as [E P].
    cbv zeta in E, P. rewrite E, P.
    split; [|lia].
    destruct outcome as [e| |r]; [destruct (Hout e eq_refl)| |];
      cbn [settle snd videoCount]; lia.
Qed.

(** X17. Calls of [createAndPublishVideo] that overlap.  The guard is
    evaluated when a call starts and the counter goes up when its upload
    has returned, with the awaits of the whole pipeline in between, so the
    cap bounds the counter only for calls that run one after the other.
    With a cap of at least one and a counter that starts within it, after
    any sequence of calls starting, calls settling and midnight resets the
    counter is at most the cap plus the largest number of calls that were
    in flight together, minus one; with at most one call in flight it
    stays within the cap.  The bound is reached: [m] calls that start
    under the cap and whose uploads return take the counter up by [m],
    past the cap when it was one below and [m] is at least two. *)
Theorem overlapping_calls_pass_cap (a : Automation) (events : list CallEvent) (m : nat)
    (call : UploadCall) (outcome : UploadOutcome) :
  (0 < maxVideosPerDay a)%Z → (videoCount a <= maxVideosPerDay a)%Z →
  let final := automation (call_events (idle a) events) in
  let burst := replicate m CallStarts
               ++ replicate m (CallSettles (UploadSettled call outcome)) in
  maxVideosPerDay final = maxVideosPerDay a
  ∧ (videoCount final
     <= maxVideosPerDay a + Z.of_nat (Nat.pred (peak (idle a) events)))%Z
  ∧ (peak (idle a) events ≤ 1 → (videoCount final <= maxVideosPerDay a)%Z)
  ∧ ((videoCount a < maxVideosPerDay a)%Z → (∀ e, outcome ≠ UploadThrows e) →
     peak (idle a) burst = m
     ∧ videoCount (automation (call_events (idle a) burst))
       = (videoCount a + Z.of_nat m)%Z).
Proof.
  intros Hmax Hvc. cbv zeta. unfold idle.
  set (start := {| automation := a; in_flight := 0 |}).
  destruct (call_events_bound (peak start events) events start)
    as [H1 H2]; cbn [start automation in_flight]; try lia.
  cbn [start automation in_flight] in H1, H2. fold start in H1, H2.
  split_and!.
  - exact H1.
  - lia.
  - intros Hp. lia.
  - intros Hcap Hout. unfold start.
    destruct (starts_under_cap a m Hcap 0) as [E P]. cbn [plus] in E, P.
    destruct (settles_count call outcome m Hout a 0) as [E' P']. cbv zeta in E', P'.
    rewrite Nat.add_0_r in E', P'.
    rewrite peak_app, call_events_app, E, P, P', E'. split; [lia|reflexivity].
Qed.

Lemma overlapping_calls_pass_cap_witness :
  let a := {| videoCount := 4; maxVideosPerDay := 5; uploads := [] |} in
  let call := {| upload_file := lit "videos/output/Demo_video_shorts.mp4";
                 upload_title := lit "Demo video"; upload_thumbnail := None |} in
  let settled := CallSettles (UploadSettled call UploadNull) in
  videoCount (automation (call_events (idle a) [CallStarts; CallStarts; settled; settled]))
  = 6%Z.
Proof.
  cbv zeta.
  destruct (overlapping_calls_pass_cap
              {| videoCount := 4; maxVideosPerDay := 5; uploads := [] |} [] 2
              {| upload_file := lit "videos/output/Demo_video_shorts.mp4";
                 upload_title := lit "Demo video"; upload_thumbnail := None |}
              UploadNull) as (_ & _ & _ & H); [reflexivity|discriminate|].
  destruct H as [_ H]; [reflexivity|discriminate|exact H].
Defined.


(** X19. The data of an AI job is [{ type, ...data }], so the processor
    dispatches on the [type] property of [data] when there is one and on
    the [type] argument only otherwise, while the job is named after the
    argument.  A type that is none of the three known ones makes the
    processor throw; the progress reaches 100 exactly when the processor
    returns. *)
Theorem ai_job_dispatch {R} (openai : AITask → Outcome R) (svc svc' : QueueService)
    (type : jsstring) (data_type : option jsstring) (priority : Z) (now : N)
    (job : Bull.Job) :
  addAIProcessingJob svc type data_type priority now = (Ret job, svc') →
  let effective := default type data_type in
  let run := aiProcessing_processor openai job in
  Bull.name job = type
  ∧ job_type job = Some effective
  ∧ (effective ∉ [lit "generateScript"; lit "optimizeMetadata"; lit "analyzeTrends"]
     → run = (Throw (unknown_ai_task (Some effective)), 10))
  ∧ (∀ task, ai_task effective = Some task →
             run = match openai task with
                   | Ret result => (Ret result, 100)
                   | Throw e => (Throw e, 10)
                   end)
  ∧ (run.2 = 100 ↔ ∃ result, run.1 = Ret result)
  ∧ (run.2 = 100 ∨ run.2 = 10).
Proof.
  unfold addAIProcessingJob, add_to.
  destruct (get_queue svc (lit "aiProcessing")) as [q| |]; try discriminate.
  cbn [Bull.add]. intros [= <- <-]. cbv zeta.
  unfold aiProcessing_processor, job_type. cbn [Bull.name Bull.data mbind option_bind].
  split_and!; [reflexivity|reflexivity| | | |].
  - intros Hnot. rewrite !not_elem_of_cons in Hnot. destruct Hnot as (H1 & H2 & H3 & _).
    unfold ai_task.
    rewrite !bool_decide_eq_false_2 by assumption. reflexivity.
  - intros task ->. reflexivity.
  - destruct (ai_task _) as [task|]; [destruct (openai task)|]; cbn [fst snd];
      split; try discriminate; eauto; intros [r H]; discriminate.
  - destruct (ai_task _) as [task|]; [destruct (openai task)|]; cbn [snd]; auto.
Qed.

Lemma ai_job_dispatch_witness :
  ∃ job svc',
    addAIProcessingJob init (lit "generateScript") (Some (lit "summarize")) 0 0
    = (Ret job, svc')
    ∧ Bull.name job = lit "generateScript"
    ∧ aiProcessing_processor (λ _, Ret (lit "text")) job
      = (Throw (unknown_ai_task (Some (lit "summarize"))), 10).
Proof.
  destruct (addAIProcessingJob init (lit "generateScript") (Some (lit "summarize")) 0 0)
    as [[job|e] svc'] eqn:E.
  - exists job, svc'. split; [reflexivity|].
    destruct (ai_job_dispatch (λ _, Ret (lit "text")) init svc' (lit "generateScript")
                (Some (lit "summarize")) 0 0 job E) as (Hn & _ & Hu & _).
    split; [exact Hn|]. apply Hu. compute_done.
  - exfalso. vm_compute in E. discriminate E.
Defined.

(** ** The hash of the cache keys *)

Lemma to_int32_spec (z : Z) :
  ∃ k : Z, (to_int32 z = z + k * 2 ^ 32 ∧ - 2 ^ 31 <= to_int32 z < 2 ^ 31)%Z.
Proof.
  unfold to_int32.
  pose proof (Z.div_mod (z + 2 ^ 31) (2 ^ 32) ltac:(lia)) as D.
  pose proof (Z.mod_pos_bound (z + 2 ^ 31) (2 ^ 32) ltac:(lia)) as B.
  exists (- ((z + 2 ^ 31) / 2 ^ 32))%Z. lia.
Qed.

Lemma int32_unique (a b k : Z) :
  (- 2 ^ 31 <= a < 2 ^ 31 → - 2 ^ 31 <= b < 2 ^ 31 → a = b + k * 2 ^ 32 → a = b)%Z.
Proof. lia. Qed.

Lemma hash_round_spec (z : Z) (char : code_unit) :
  hash_round (to_int32 z) char = to_int32 (31 * z + Z.of_N char).
Proof.
  unfold hash_round. rewrite Z.shiftl_mul_pow2 by lia.
  destruct (to_int32_spec z) as (k1 & E1 & B1).
  destruct (to_int32_spec (to_int32 z)) as (k2 & E2 & B2).
  destruct (to_int32_spec (to_int32 (to_int32 z) * 2 ^ 5)) as (k3 & E3 & B3).
  destruct (to_int32_spec (to_int32 (to_int32 (to_int32 z) * 2 ^ 5) - to_int32 z
                           + Z.of_N char)) as (k4 & E4 & B4).
  destruct (to_int32_spec (31 * z + Z.of_N char)) as (k5 & E5 & B5).
  apply (int32_unique _ _ (k4 + k3 + 32 * k2 + 31 * k1 - k5)); [exact B4|exact B5|].
  lia.
Qed.

Lemma hash_fold (str : jsstring) :
  ∀ z, foldl hash_round (to_int32 z) str
       = to_int32 (foldl (λ h char, 31 * h + Z.of_N char)%Z z str).
Proof.
  induction str as [|c str IH]; intros z; [reflexivity|].
  cbn [foldl]. rewrite hash_round_spec. apply IH.
Qed.

Lemma hash_value_polynomial (str : jsstring) :
  hash_value str = to_int32 (polynomial str).
Proof.
  unfold hash_value, polynomial. change 0%Z with (to_int32 0) at 1. apply hash_fold.
Qed.

Lemma hash_text_polynomial (str : jsstring) :
  hash_text (hashString str) = of_Z (to_int32 (polynomial str)).
Proof.
  rewrite <- hash_value_polynomial. destruct str; reflexivity.
Qed.

(** X20. [hashString] is the polynomial hash with base 31 over the UTF-16
    code units, reduced to a signed 32-bit integer: the same function as
    Java's [String.hashCode].  The hash always lies in the 32-bit range. *)
Theorem hashString_polynomial (str : jsstring) :
  hash_value str = to_int32 (polynomial str)
  ∧ (- 2 ^ 31 <= hash_value str < 2 ^ 31)%Z
  ∧ hash_text (hashString str) = of_Z (to_int32 (polynomial str)).
Proof.
  split; [apply hash_value_polynomial|]. split.
  - rewrite hash_value_polynomial.
    destruct (to_int32_spec (polynomial str)) as (k & _ & B). exact B.
  - apply hash_text_polynomial.
Qed.

Lemma polynomial_collision (p s : jsstring) :
  polynomial (p ++ lit "Aa" ++ s) = polynomial (p ++ lit "BB" ++ s).
Proof.
  unfold polynomial. rewrite !foldl_app. f_equal. cbn [foldl lit]. simpl. lia.
Qed.

Lemma hashString_eq (x y : jsstring) :
  polynomial x = polynomial y →
  hash_text (hashString x) = hash_text (hashString y).
Proof.
  intros E. rewrite !hash_text_polynomial, E. reflexivity.
Qed.

(** X21. Distinct requests share a cache key.  The key of the metadata
    cache hashes [title + '_' + description], so moving a part across the
    underscore keeps the key; and the hash itself collides: replacing [Aa]
    by [BB] anywhere in a title or a topic keeps the key of the metadata
    cache and of the script cache. *)
Theorem cache_key_collisions :
  (∀ a b c, metadata_cache_key (a ++ lit "_" ++ b) c
            = metadata_cache_key a (b ++ lit "_" ++ c))
  ∧ (∀ p s description,
       metadata_cache_key (p ++ lit "Aa" ++ s) description
       = metadata_cache_key (p ++ lit "BB" ++ s) description)
  ∧ (∀ p s duration,
       script_cache_key (p ++ lit "Aa" ++ s) duration
       = script_cache_key (p ++ lit "BB" ++ s) duration)
  ∧ lit "Aa" ≠ lit "BB".
Proof.
  split_and!.
  - intros a b c. unfold metadata_cache_key. rewrite <- !app_assoc. reflexivity.
  - intros p s d. unfold metadata_cache_key. do 2 f_equal.
    rewrite <- !app_assoc. apply hashString_eq, polynomial_collision.
  - intros p s n. unfold script_cache_key. do 2 f_equal.
    rewrite <- !app_assoc. apply hashString_eq, polynomial_collision.
  - discriminate.
Qed.

(** ** Retrying a request *)

Section SmartRetryProperties.

Variables (A E : Type).
Variable response_status : E → option Z.

Lemma retry_loop_spec (fn : nat → A + E) (remaining : nat) :
  ∀ (i : nat) (lastError : option E) (waits : list Z),
    let run := retry_loop response_status fn i remaining lastError waits in
    i ≤ retry_calls run ≤ i + remaining
    ∧ (∀ k, i ≤ k → S k < retry_calls run → retried response_status fn k)
    ∧ (∃ more, retry_waits run = waits ++ more
               ∧ (∀ j delay, more !! j = Some delay →
                    ∃ error, fn (i + j) = inr error
                             ∧ retry_delay response_status (i + j) error = Some delay)
               ∧ match retry_result run with
                 | Returned value =>
                     fn (retry_calls run - 1) = inl value
                     ∧ i < retry_calls run
                     ∧ length more = retry_calls run - 1 - i
                 | Rethrown None => lastError = None ∧ remaining = 0
                 | Rethrown (Some error) =>
                     (retry_calls run = i ∧ remaining = 0 ∧ lastError = Some error
                      ∧ more = [])
                     ∨ (i < retry_calls run
                        ∧ fn (retry_calls run - 1) = inr error
                        ∧ ((retry_delay response_status (retry_calls run - 1) error = None
                            ∧ length more = retry_calls run - 1 - i)
                           ∨ (retry_delay response_status (retry_calls run - 1) error ≠ None
                              ∧ retry_calls run = i + remaining
                              ∧ length more = remaining)))
                 end).
Proof.
  induction remaining as [|remaining IH]; intros i lastError waits; cbv zeta.
  - cbn [retry_loop retry_result retry_calls retry_waits].
    split; [lia|]. split; [intros k H1 H2; lia|].
    exists []. rewrite app_nil_r. split; [reflexivity|].
    split; [intros j delay H; discriminate H|].
    destruct lastError; [left|]; repeat split.
  - cbn [retry_loop]. destruct (fn i) as [value|error] eqn:Fi.
    + cbn [retry_result retry_calls retry_waits].
      split; [lia|]. split; [intros k H1 H2; lia|].
      exists []. rewrite app_nil_r. split; [reflexivity|].
      split; [intros j delay H; discriminate H|].
      replace (S i - 1) with i by lia. split_and!; [exact Fi|lia|simpl; lia].
    + destruct (retry_delay response_status i error) as [delay|] eqn:Di.
      * specialize (IH (S i) (Some error) (waits ++ [delay])). cbv zeta in IH.
        destruct IH as (Hc & Hk & more & Hw & Hm & Hr).
        split; [lia|]. split.
        { intros k H1 H2. destruct (decide (k = i)) as [->|Hne].
          - exists error, delay. split; assumption.
          - apply Hk; lia. }
        exists (delay :: more). split; [rewrite Hw, <- app_assoc; reflexivity|].
        split.
        { intros [|j] d H.
          - injection H as <-. rewrite Nat.add_0_r. eauto.
          - replace (i + S j) with (S i + j) by lia. apply Hm, H. }
        destruct (retry_result _) as [value|[e|]].
        -- destruct Hr as (H1 & H2 & H3). split_and!; [exact H1|lia|simpl; lia].
        -- right. destruct Hr as [(H1 & H2 & H3 & H4)|(H1 & H2 & H3)].
           ++ injection H3 as <-. subst remaining more.
              split; [lia|]. rewrite H1. replace (S i - 1) with i by lia.
              split; [exact Fi|]. right. rewrite Di.
              split; [discriminate|]. split; [lia|reflexivity].
           ++ split; [lia|]. split; [exact H2|].
              destruct H3 as [[H3 H4]|(H3 & H4 & H5)].
              ** left. split; [exact H3|simpl; lia].
              ** right. split; [exact H3|]. split; [lia|simpl; lia].
        -- destruct Hr as [Hr _]. discriminate Hr.
      * cbn [retry_result retry_calls retry_waits].
        split; [lia|]. split; [intros k H1 H2; lia|].
        exists []. rewrite app_nil_r. split; [reflexivity|].
        split; [intros j d H; discriminate H|].
        right. replace (S i - 1) with i by lia.
        split; [lia|]. split; [exact Fi|]. left. split; [exact Di|simpl; lia].
Qed.

Lemma retry_loop_first_success (fn : nat → A + E) (k : nat) (value : A) :
  fn k = inl value →
  ∀ (remaining i : nat) (lastError : option E) (waits : list Z),
    i ≤ k < i + remaining →
    (∀ j, i ≤ j < k → retried response_status fn j) →
    retry_result (retry_loop response_status fn i remaining lastError waits) = Returned value
    ∧ retry_calls (retry_loop response_status fn i remaining lastError waits) = S k.
Proof.
  intros Fk. induction remaining as [|remaining IH]; intros i lastError waits Hk Hj.
  - lia.
  - cbn [retry_loop]. destruct (decide (i = k)) as [->|Hne].
    + rewrite Fk. split; reflexivity.
    + destruct (Hj i ltac:(lia)) as (error & delay & -> & ->).
      apply IH; [lia|]. intros j Hij. apply Hj. lia.
Qed.

Lemma retry_delay_bounds (i : nat) (error : E) (delay : Z) :
  retry_delay response_status i error = Some delay →
  (1000 <= delay)%Z ∧ (delay <= Z.max 10000 (1000 * (Z.of_nat i + 1)))%Z.
Proof.
  unfold retry_delay. destruct (response_status error) as [status|]; [|discriminate].
  destruct (status =? 429)%Z.
  - intros [= <-].
    assert (1 <= 2 ^ Z.of_nat i)%Z by (apply Z.pow_le_mono_r with (b := 0%Z); lia).
    lia.
  - destruct (500 <=? status)%Z; [|discriminate]. intros [= <-]. lia.
Qed.

(** X22. [smartRetry] calls [fn] at most [maxRetries] times, one attempt
    after the other, and stops at the first attempt that succeeds or fails
    with an error that is not retried (no response status, or a status
    below 500 other than 429): it returns a value exactly when such a first
    success exists, else it throws the error of its last attempt, and with
    [maxRetries = 0] it throws [undefined].  It waits after every retried
    failure, also after the last permitted attempt, before it throws; each
    wait is at least one second and at most [max(10, maxRetries)] seconds. *)
Theorem smartRetry_behaviour (fn : nat → A + E) (maxRetries : nat) :
  let run := smartRetry response_status fn maxRetries in
  let calls := retry_calls run in
  calls ≤ maxRetries
  ∧ (∀ k, S k < calls → retried response_status fn k)
  ∧ (∀ value,
       retry_result run = Returned value ↔
       ∃ k, k < maxRetries ∧ fn k = inl value ∧ ∀ j, j < k → retried response_status fn j)
  ∧ (∀ value, retry_result run = Returned value →
              0 < calls ∧ fn (calls - 1) = inl value ∧ length (retry_waits run) = calls - 1)
  ∧ (retry_result run = Rethrown None ↔ maxRetries = 0)
  ∧ (∀ error,
       retry_result run = Rethrown (Some error) →
       0 < calls ∧ fn (calls - 1) = inr error
       ∧ ((retry_delay response_status (calls - 1) error = None
           ∧ length (retry_waits run) = calls - 1)
          ∨ (retry_delay response_status (calls - 1) error ≠ None
             ∧ calls = maxRetries ∧ length (retry_waits run) = maxRetries)))
  ∧ (∀ j delay, retry_waits run !! j = Some delay →
                ∃ error, fn j = inr error ∧ retry_delay response_status j error = Some delay)
  ∧ Forall (λ delay, (1000 <= delay <= Z.max 10000 (1000 * Z.of_nat maxRetries))%Z)
           (retry_waits run).
Proof.
  cbv zeta. unfold smartRetry.
  pose proof (retry_loop_spec fn maxRetries 0 None []) as S. cbv zeta in S.
  destruct S as (Hc & Hk & more & Hw & Hm & Hr).
  simpl in Hw. subst more.
  split; [lia|]. split; [intros k H; apply Hk; lia|].
  split_and!.
  - intros value. split.
    + intros R. rewrite R in Hr. destruct Hr as (H1 & H2 & H3).
      exists (retry_calls (retry_loop response_status fn 0 maxRetries None []) - 1).
      split; [lia|]. split; [exact H1|]. intros j Hj. apply Hk; lia.
    + intros (k & Hlt & Fk & Hj).
      apply (retry_loop_first_success fn k value Fk maxRetries 0 None []); [lia|].
      intros j Hj'. apply Hj. lia.
  - intros value R. rewrite R in Hr. destruct Hr as (H1 & H2 & H3).
    split_and!; [lia|exact H1|lia].
  - split.
    + intros R. rewrite R in Hr. tauto.
    + intros ->. reflexivity.
  - intros error R. rewrite R in Hr.
    destruct Hr as [(_ & _ & H & _)|(H1 & H2 & H3)]; [discriminate H|].
    split; [exact H1|]. split; [exact H2|].
    destruct H3 as [[H3 H4]|(H3 & H4 & H5)]; [left|right].
    * split; [exact H3|lia].
    * split; [exact H3|]. split; [lia|exact H5].
  - intros j delay H. exact (Hm j delay H).
  - apply Forall_forall. intros delay Hin.
    apply list_elem_of_lookup in Hin as [j Hj].
    pose proof (lookup_lt_Some _ _ _ Hj) as Hlen.
    destruct (Hm j delay Hj) as (error & Fj & Dj). simpl in Dj.
    apply retry_delay_bounds in Dj.
    assert (j < maxRetries).
    { destruct (retry_result _) as [value|[e|]].
      - destruct Hr as (_ & _ & H3). lia.
      - destruct Hr as [(_ & _ & _ & H)|(H1 & _ & [[_ H]|(_ & _ & H)])].
        + rewrite H in Hlen. simpl in Hlen. lia.
        + lia.
        + lia.
      - destruct Hr as [_ ->]. simpl in Hlen. lia. }
    lia.
Qed.

End SmartRetryProperties.

(** ** Account names *)

Lemma token_file_accepted (name : jsstring) :
  startsWith token_prefix (token_file name) && endsWith token_suffix (token_file name)
  = true
  ∧ slice (length token_prefix) (length token_suffix) (token_file name) = name.
Proof.
  unfold startsWith, endsWith, slice, token_file. split.
  - apply andb_true_iff. split; apply bool_decide_eq_true.
    + rewrite take_app_length. reflexivity.
    + rewrite app_assoc.
      replace (length ((token_prefix ++ name) ++ token_suffix) - length token_suffix)
        with (length (token_prefix ++ name)) by (rewrite !length_app; lia).
      rewrite drop_app_length. reflexivity.
  - rewrite drop_app_length.
    replace (length (token_prefix ++ name ++ token_suffix) - length token_suffix
             - length token_prefix) with (length name) by (rewrite !length_app; lia).
    rewrite take_app_length. reflexivity.
Qed.

Lemma accepted_is_token_file (f : jsstring) :
  startsWith token_prefix f && endsWith token_suffix f = true →
  f = token_file (slice (length token_prefix) (length token_suffix) f).
Proof.
  intros H. apply andb_true_iff in H as [Hs He].
  unfold startsWith in Hs. unfold endsWith in He.
  apply bool_decide_eq_true in Hs. apply bool_decide_eq_true in He.
  assert (Hlen : length token_prefix + length token_suffix ≤ length f).
  { destruct (decide (length token_prefix + length token_suffix ≤ length f)) as [?|Hn];
      [assumption|exfalso].
    assert (L5 : length token_suffix ≤ length f).
    { apply (f_equal length) in He. rewrite length_drop in He. lia. }
    assert (Hd : f !! (length f - length token_suffix) = Some full_stop).
    { pose proof (lookup_drop f (length f - length token_suffix) 0) as Hd.
      rewrite He, Nat.add_0_r in Hd. symmetry. exact Hd. }
    assert (Hp : take (length token_prefix) f !! (length f - length token_suffix)
                 = Some full_stop).
    { rewrite lookup_take_lt by lia. exact Hd. }
    rewrite Hs in Hp.
    apply list_elem_of_lookup_2 in Hp. revert Hp. compute_done. }
  unfold token_file, slice.
  rewrite <- (take_drop (length token_prefix) f) at 1. rewrite Hs. f_equal.
  rewrite <- (take_drop (length f - length token_suffix - length token_prefix)
                (drop (length token_prefix) f)) at 1.
  f_equal. rewrite drop_drop.
  replace (length token_prefix + (length f - length token_suffix - length token_prefix))
    with (length f - length token_suffix) by lia.
  exact He.
Qed.

(** X23. Round trip of the account names: the accounts [listAccounts]
    reports are exactly the names whose token file, as named by
    [getTokenPath], is in the directory; every other file is ignored, and
    a directory with the token file of one account lists that account. *)
Theorem account_names_round_trip :
  (∀ name, listAccounts [token_file name] = [name])
  ∧ (∀ name other, token_file name = token_file other → name = other)
  ∧ (∀ files name, name ∈ listAccounts files ↔ token_file name ∈ files)
  ∧ (∀ files, length (listAccounts files) ≤ length files).
Proof.
  split_and!.
  - intros name. unfold listAccounts.
    destruct (token_file_accepted name) as [Ha Hs].
    cbn [filter list_filter]. rewrite decide_True by exact Ha.
    cbn [filter list_filter map]. rewrite Hs. reflexivity.
  - intros name other H. unfold token_file in H.
    apply app_inv_head in H. apply app_inv_tail in H. exact H.
  - intros files name. unfold listAccounts. rewrite list_elem_of_fmap. split.
    + intros (f & -> & Hf). apply list_elem_of_filter in Hf as [Ha Hin].
      rewrite <- (accepted_is_token_file f Ha). exact Hin.
    + intros Hin. exists (token_file name).
      destruct (token_file_accepted name) as [Ha Hs].
      split; [symmetry; exact Hs|]. apply list_elem_of_filter. split; assumption.
  - intros files. unfold listAccounts. rewrite length_map. apply length_filter.
Qed.

(** ** The configuration *)

(** X24. Validation of the configuration.  With [NODE_ENV] unset or empty
    the environment counts as production.  The constructor throws exactly
    when the environment is production and one of the three required
    variables is unset or empty, and the message names the missing ones in
    the order of the list.  When it does not throw in production, all three
    are set and both web secrets are non-empty; outside production it never
    throws and leaves the secrets as they are in the environment. *)
Theorem config_validation (env : Env) :
  let production := config_env env = lit "production" in
  (truthy (env !! lit "NODE_ENV") = false → production)
  ∧ ((∃ e, validate env = Throw e) ↔
     production ∧ ∃ key, key ∈ required_variables ∧ truthy (env !! key) = false)
  ∧ (∀ e, validate env = Throw e →
          e = Error (lit "Missing required environment variables: "
                     ++ join (lit ", ") (missing_variables env))
          ∧ missing_variables env ≠ []
          ∧ sublist (missing_variables env) required_variables
          ∧ ∀ key, key ∈ missing_variables env ↔
                   key ∈ required_variables ∧ truthy (env !! key) = false)
  ∧ (∀ secrets, validate env = Ret secrets → production →
                Forall (λ key, truthy (env !! key) = true) required_variables
                ∧ truthy (sessionSecret secrets) = true
                ∧ truthy (jwtSecret secrets) = true)
  ∧ (¬ production →
     validate env = Ret {| sessionSecret := env !! lit "SESSION_SECRET";
                           jwtSecret := env !! lit "JWT_SECRET" |}).
Proof.
  cbv zeta.
  assert (Hmiss : ∀ key, key ∈ missing_variables env ↔
                         key ∈ required_variables ∧ truthy (env !! key) = false).
  { intros key. unfold missing_variables. rewrite list_elem_of_filter. tauto. }
  assert (Hlen : 0 < length (missing_variables env) ↔
                 ∃ key, key ∈ required_variables ∧ truthy (env !! key) = false).
  { split.
    - destruct (missing_variables env) as [|key l] eqn:E; [simpl; lia|].
      intros _. exists key. apply Hmiss. left.
    - intros (key & Hk). apply Hmiss in Hk.
      destruct (missing_variables env); [inversion Hk|simpl; lia]. }
  split_and!.
  - unfold config_env, truthy.
    destruct (env !! lit "NODE_ENV") as [[|c s]|]; [reflexivity|discriminate|reflexivity].
  - unfold validate. cbv zeta.
    destruct (Nat.ltb_spec 0 (length (missing_variables env))) as [Hl|Hl];
      destruct (bool_decide_reflect (config_env env = lit "production")) as [Hp|Hp];
      cbn [andb].
    + split; [intros _; split; [exact Hp|apply Hlen, Hl]|eauto].
    + split; [intros [e H]; discriminate H|tauto].
    + split; [intros [e H]; discriminate H|]. intros [_ H]. apply Hlen in H. lia.
    + split; [intros [e H]; discriminate H|tauto].
  - intros e. unfold validate. cbv zeta.
    destruct (Nat.ltb_spec 0 (length (missing_variables env))) as [Hl|Hl];
      destruct (bool_decide_reflect (config_env env = lit "production")) as [Hp|Hp];
      cbn [andb]; try discriminate.
    intros [= <-]. split_and!; [reflexivity| | |exact Hmiss].
    + destruct (missing_variables env); [simpl in Hl; lia|discriminate].
    + apply sublist_filter.
  - intros secrets. unfold validate. cbv zeta.
    destruct (Nat.ltb_spec 0 (length (missing_variables env))) as [Hl|Hl];
      destruct (bool_decide_reflect (config_env env = lit "production")) as [Hp|Hp];
      cbn [andb]; try discriminate; intros [= <-] Hprod; try contradiction.
    cbn [sessionSecret jwtSecret]. split_and!.
    + apply Forall_forall. intros key Hk.
      destruct (truthy (env !! key)) eqn:T; [reflexivity|exfalso].
      assert (0 < length (missing_variables env)) by (apply Hlen; eauto). lia.
    + rewrite andb_true_r.
      destruct (truthy (env !! lit "SESSION_SECRET")) eqn:T; [exact T|reflexivity].
    + rewrite andb_true_r.
      destruct (truthy (env !! lit "JWT_SECRET")) eqn:T; [exact T|reflexivity].
  - intros Hn. unfold validate. cbv zeta.
    rewrite (bool_decide_eq_false_2 _ Hn), !andb_false_r. reflexivity.
Qed.

(** ** The cache *)

Section CacheProperties.

Variable V : Type.
Variable JSON_parse : jsstring → Outcome (option V).
Variable JSON_stringify : option V → Outcome jsstring.

Lemma cache_get_never_throws (r : Redis) (key : jsstring) :
  ∃ value, cache_get JSON_parse r key = Ret value.
Proof.
  unfold cache_get, attempt, redis_get.
  destruct (online r); [|eauto].
  destruct (truthy _); [|eauto].
  destruct (JSON_parse _); eauto.
Qed.

Lemma cache_set_never_throws (r : Redis) (key : jsstring) (value : option V) :
  ∃ done r', cache_set JSON_stringify r key value = (Ret done, r')
             ∧ online r' = online r
             ∧ (done = true → online r = true ∧ ∃ serialized,
                  JSON_stringify value = Ret serialized
                  ∧ store r' = <[key := serialized]> (store r))
             ∧ (done = false → r' = r).
Proof.
  unfold cache_set, redis_set.
  destruct (JSON_stringify value) as [serialized|e].
  - destruct (online r) eqn:O.
    + eexists _, _. split; [reflexivity|]. cbn [online store].
      split_and!; [congruence| |discriminate]. eauto.
    + eexists _, _. split; [reflexivity|].
      split_and!; [exact O|discriminate|reflexivity].
  - eexists _, _. split; [reflexivity|].
    split_and!; [reflexivity|discriminate|reflexivity].
Qed.

(** X25. [getOrSet] calls [fetchFunction] at most twice.  [get] and [set]
    swallow their own errors, so the [catch] branch is entered only when
    [fetchFunction] itself throws: it is then called a second time, nothing
    is stored, and the outcome of that second call, value or error, is the
    outcome of [getOrSet].  It is not called at all exactly on a hit, a
    stored text that parses to a value other than [null]; a value fetched
    in one call is returned whether or not it could be stored. *)
Theorem getOrSet_fetches (r : Redis) (key : jsstring) (fetch : nat → Outcome (option V)) :
  let run := getOrSet JSON_parse JSON_stringify r key fetch in
  cache_fetches run ≤ 2
  ∧ online (cache_redis run) = online r
  ∧ (cache_fetches run = 0 ↔ ∃ value, cache_get JSON_parse r key = Ret (Some value))
  ∧ (∀ value, cache_get JSON_parse r key = Ret (Some value) →
              cache_result run = Ret (Some value) ∧ cache_redis run = r)
  ∧ (cache_fetches run = 2 ↔ cache_get JSON_parse r key = Ret None ∧ ∃ e, fetch 0 = Throw e)
  ∧ (cache_fetches run = 2 → cache_result run = fetch 1 ∧ cache_redis run = r)
  ∧ (cache_fetches run = 1 →
     ∃ value, fetch 0 = Ret value ∧ cache_result run = Ret value
              ∧ (cache_redis run = r
                 ∨ ∃ serialized, JSON_stringify value = Ret serialized
                                 ∧ online r = true
                                 ∧ store (cache_redis run) = <[key := serialized]> (store r)))
  ∧ ((∃ e, cache_result run = Throw e) → ∃ e0, fetch 0 = Throw e0 ∧ cache_fetches run = 2).
Proof.
  cbv zeta. unfold getOrSet.
  destruct (cache_get_never_throws r key) as [cached ->].
  destruct cached as [value|].
  - cbn [cache_fetches cache_result cache_redis]. split_and!.
    + lia.
    + reflexivity.
    + split; [eauto|reflexivity].
    + intros v [= <-]. split; reflexivity.
    + split; [discriminate|]. intros [H _]. discriminate H.
    + discriminate.
    + discriminate.
    + intros [e H]. discriminate H.
  - destruct (fetch 0) as [value|e0] eqn:F0.
    + destruct (cache_set_never_throws r key value)
        as (done & r' & -> & Ho & Ht & Hf).
      cbn [cache_fetches cache_result cache_redis]. split_and!.
      * lia.
      * exact Ho.
      * split; [discriminate|]. intros [v H]. discriminate H.
      * intros v H. discriminate H.
      * split; [discriminate|]. intros [_ [e H]]. discriminate H.
      * discriminate.
      * intros _. exists value. split; [reflexivity|]. split; [reflexivity|].
        destruct done.
        -- right. destruct (Ht eq_refl) as (Hon & serialized & Hs & Hst). eauto.
        -- left. apply Hf. reflexivity.
      * intros [e H]. discriminate H.
    + cbn [cache_fetches cache_result cache_redis]. split_and!.
      * lia.
      * reflexivity.
      * split; [discriminate|]. intros [v H]. discriminate H.
      * intros v H. discriminate H.
      * split; [eauto|reflexivity].
      * intros _. split; reflexivity.
      * discriminate.
      * intros _. eauto.
Qed.

End CacheProperties.

(** ** The scheduler *)

Lemma scheduler_commands_spec (cs : list SchedulerCommand) :
  ∀ s, reset_tasks s = publish_tasks s →
       (isRunning s = true → 1 ≤ publish_tasks s) →
       let s' := scheduler_commands s cs in
       reset_tasks s' = publish_tasks s'
       ∧ publish_tasks s ≤ publish_tasks s'
       ∧ (isRunning s' = true → 1 ≤ publish_tasks s')
       ∧ (Start ∈ cs → 1 ≤ publish_tasks s').
Proof.
  induction cs as [|c cs IH]; intros s Hr Hrun; cbv zeta.
  - simpl. split_and!; [exact Hr|lia|exact Hrun|]. intros H. inversion H.
  - cbn [scheduler_commands foldl].
    fold (scheduler_commands (scheduler_command s c) cs).
    destruct c; cbn [scheduler_command].
    + unfold startAutomation. destruct (isRunning s) eqn:R.
      * assert (Hone : 1 ≤ publish_tasks s) by (apply Hrun; reflexivity).
        destruct (IH s Hr (λ _, Hone)) as (H1 & H2 & H3 & H4).
        split_and!; [exact H1|exact H2|exact H3|]. intros _. lia.
      * destruct (IH {| isRunning := true; publish_tasks := S (publish_tasks s);
                        reset_tasks := S (reset_tasks s) |}) as (H1 & H2 & H3 & H4).
        { simpl. congruence. }
        { simpl. lia. }
        simpl in H2. split_and!; [exact H1|lia|exact H3|lia].
    + destruct (IH (stopAutomation s)) as (H1 & H2 & H3 & H4).
      { exact Hr. }
      { discriminate. }
      simpl in H2. split_and!; [exact H1|exact H2|exact H3|].
      intros H. apply H4. inversion H; subst; assumption.
Qed.

(** X26. [stopAutomation] cancels nothing.  Whatever sequence of start and
    stop calls the automation receives, the number of registered publishing
    tasks never goes down, and once it was started at least one task stays
    registered and keeps calling [createAndPublishVideo] at every two-hour
    mark, also while [isRunning] is false; a start after a stop registers
    one more task, so that the publishing runs twice per mark. *)
Theorem stopAutomation_cancels_nothing (cs more : list SchedulerCommand) :
  let s := scheduler_commands new_scheduler cs in
  publications_per_tick (stopAutomation s) = publications_per_tick s
  ∧ (Start ∈ cs → 1 ≤ publications_per_tick (stopAutomation s))
  ∧ publications_per_tick s ≤ publications_per_tick (scheduler_commands s more)
  ∧ (isRunning s = false →
     publications_per_tick (startAutomation s) = S (publications_per_tick s))
  ∧ (isRunning s = true → startAutomation s = s)
  ∧ reset_tasks s = publish_tasks s.
Proof.
  cbv zeta.
  destruct (scheduler_commands_spec cs new_scheduler eq_refl ltac:(discriminate))
    as (H1 & H2 & H3 & H4).
  destruct (scheduler_commands_spec more (scheduler_commands new_scheduler cs) H1 H3)
    as (_ & H5 & _).
  unfold publications_per_tick. split_and!.
  - reflexivity.
  - exact H4.
  - exact H5.
  - intros R. unfold startAutomation. rewrite R. reflexivity.
  - intros R. unfold startAutomation. rewrite R. reflexivity.
  - exact H1.
Qed.

Lemma stopAutomation_cancels_nothing_witness :
  publications_per_tick (scheduler_commands new_scheduler [Start; Stop; Start; Stop]) = 2.
Proof.
  destruct (stopAutomation_cancels_nothing [Start; Stop] []) as (_ & _ & _ & H & _).
  change (scheduler_commands new_scheduler [Start; Stop; Start; Stop])
    with (stopAutomation (startAutomation (scheduler_commands new_scheduler [Start; Stop]))).
  unfold publications_per_tick at 1. cbn [stopAutomation publish_tasks].
  fold (publications_per_tick (startAutomation (scheduler_commands new_scheduler [Start; Stop]))).
  rewrite H; reflexivity.
Defined.

(** ** The metrics tables *)

Lemma record_hourly_fold (samples : list (Q * Z)) :
  ∀ (stats : HourStats) (total : Q),
    (averageResponseTime stats * inject_Z (Z.of_nat (h_requests stats)) == total)%Q →
    h_errors stats ≤ h_requests stats →
    let stats' := foldl (λ st sample, record_hourly st sample.1 sample.2) stats samples in
    h_requests stats' = h_requests stats + length samples
    ∧ h_errors stats'
      = h_errors stats + length (filter (λ sample, (400 <= sample.2)%Z) samples)
    ∧ h_errors stats' ≤ h_requests stats'
    ∧ (averageResponseTime stats' * inject_Z (Z.of_nat (h_requests stats'))
       == total + foldr (λ sample sum, sample.1 + sum) 0 samples)%Q.
Proof.
  induction samples as [|[t code] samples IH]; intros stats total Havg Herr; cbv zeta.
  - cbn [foldl length foldr filter list_filter]. split_and!; [lia|lia|exact Herr|].
    rewrite Havg. ring.
  - cbn [foldl fst snd].
    specialize (IH (record_hourly stats t code) (total + t)%Q).
    cbv zeta in IH. destruct IH as (H1 & H2 & H3 & H4).
    + unfold record_hourly. cbn [averageResponseTime h_requests].
      replace (S (h_requests stats) - 1) with (h_requests stats) by lia.
      rewrite <- Havg. field.
      intros H. unfold Qeq, inject_Z in H. cbn [Qnum Qden] in H. lia.
    + unfold record_hourly. cbn [h_errors h_requests].
      destruct (400 <=? code)%Z; lia.
    + split_and!.
      * rewrite H1. unfold record_hourly. cbn [h_requests length]. lia.
      * rewrite H2. unfold record_hourly. cbn [h_errors].
        rewrite filter_cons. cbn [snd].
        destruct (Z.leb_spec 400 code) as [Hc|Hc].
        -- rewrite decide_True by exact Hc. cbn [length]. lia.
        -- rewrite decide_False by lia. lia.
      * exact H3.
      * rewrite H4. cbn [foldr fst]. ring.
Qed.

(** X27. The hourly average is the mean.  After any number of requests
    recorded into the entry of an hour, the entry counts them all, counts
    as errors exactly those with a status of 400 or more, and its
    incrementally updated [averageResponseTime] times the number of
    requests is the sum of the recorded response times. *)
Theorem hourly_average_is_mean (samples : list (Q * Z)) :
  let stats := foldl (λ st sample, record_hourly st sample.1 sample.2) new_hour samples in
  h_requests stats = length samples
  ∧ h_errors stats = length (filter (λ sample, (400 <= sample.2)%Z) samples)
  ∧ h_errors stats ≤ h_requests stats
  ∧ (averageResponseTime stats * inject_Z (Z.of_nat (length samples))
     == foldr (λ sample sum, sample.1 + sum) 0 samples)%Q.
Proof.
  cbv zeta.
  destruct (record_hourly_fold samples new_hour 0%Q) as (H1 & H2 & H3 & H4).
  - reflexivity.
  - simpl. lia.
  - cbn [new_hour h_requests h_errors] in *.
    split_and!; [exact H1|exact H2|exact H3|].
    rewrite H1 in H4. simpl in H4. rewrite H4. ring.
Qed.

Section MetricsTime.

Variable offset : Z.
Variable month_day_year : Z → jsstring.

Lemma getHours_day_before (t : Z) :
  getHours offset (t - ms_per_day) = getHours offset t.
Proof.
  unfold getHours, ms_per_day, ms_per_hour.
  replace (t - 24 * 60 * 60 * 1000 + offset)%Z
    with (t + offset + (-24) * 3600000)%Z by lia.
  rewrite Z.div_add by lia.
  replace ((t + offset) / 3600000 + -24)%Z
    with ((t + offset) / 3600000 + (-1) * 24)%Z by lia.
  apply Z.mod_add. lia.
Qed.

(** X28. The hourly cleanup goes by the hour of day, not by age: the cutoff
    is the current hour, so the cleanup removes exactly the entries of the
    hours of day before the current one, among them the entry of the hour
    just past, and keeps all others. *)
Theorem hourly_cleanup_by_hour_of_day {A} (now : Z) (hourly : gmap Z A) :
  getHours offset (now - ms_per_day) = getHours offset now
  ∧ (0 <= getHours offset now < 24)%Z
  ∧ (∀ hour, cleanup_hourly offset now hourly !! hour
             = if decide (hour < getHours offset now)%Z then None else hourly !! hour)
  ∧ (∀ t, (getHours offset t < getHours offset now)%Z →
          cleanup_hourly offset now hourly !! getHours offset t = None)
  ∧ ((1 <= getHours offset now)%Z →
     getHours offset (now - ms_per_hour) = (getHours offset now - 1)%Z
     ∧ cleanup_hourly offset now hourly !! getHours offset (now - ms_per_hour) = None).
Proof.
  assert (L : ∀ hour, cleanup_hourly offset now hourly !! hour
                      = if decide (hour < getHours offset now)%Z then None
                        else hourly !! hour).
  { intros hour. unfold cleanup_hourly. cbv zeta. rewrite getHours_day_before.
    destruct (decide (hour < getHours offset now)%Z) as [Hlt|Hge].
    - apply map_lookup_filter_None. right. intros x _ H. apply H. exact Hlt.
    - destruct (hourly !! hour) as [x|] eqn:Hx.
      + apply map_lookup_filter_Some. split; [exact Hx|exact Hge].
      + apply map_lookup_filter_None. left. exact Hx. }
  assert (P : (1 <= getHours offset now)%Z →
              getHours offset (now - ms_per_hour) = (getHours offset now - 1)%Z).
  { unfold getHours, ms_per_hour. intros H.
    replace (now - 3600000 + offset)%Z with (now + offset + (-1) * 3600000)%Z by lia.
    rewrite Z.div_add by lia.
    set (h := ((now + offset) / 3600000)%Z) in *.
    pose proof (Z.div_mod h 24 ltac:(lia)) as D.
    pose proof (Z.mod_pos_bound h 24 ltac:(lia)) as B.
    symmetry. apply (Z.mod_unique_pos _ _ (h / 24)); lia. }
  split; [apply getHours_day_before|].
  split; [unfold getHours; apply Z.mod_pos_bound; lia|].
  split; [exact L|]. split.
  - intros t Ht. rewrite L, decide_True by exact Ht. reflexivity.
  - intros H. split; [exact (P H)|].
    rewrite L, decide_True; [reflexivity|]. rewrite (P H). lia.
Qed.

Lemma getDay_range (t : Z) : (0 <= getDay offset t < 7)%Z.
Proof. unfold getDay. apply Z.mod_pos_bound. lia. Qed.

Lemma weekday_cases (d : Z) :
  (0 <= d < 7)%Z → d = 0%Z ∨ d = 1%Z ∨ d = 2%Z ∨ d = 3%Z ∨ d = 4%Z ∨ d = 5%Z ∨ d = 6%Z.
Proof. lia. Qed.

Lemma date_string_order (d1 d2 : Z) (rest1 rest2 : jsstring) :
  (0 <= d1 < 7)%Z → (0 <= d2 < 7)%Z → d1 ≠ d2 →
  string_lt (weekday_name d1 ++ lit " " ++ rest1) (weekday_name d2 ++ lit " " ++ rest2)
  = string_lt (weekday_name d1) (weekday_name d2).
Proof.
  intros H1 H2 Hne.
  destruct (weekday_cases d1 H1) as [->|[->|[->|[->|[->|[->| ->]]]]]];
    destruct (weekday_cases d2 H2) as [->|[->|[->|[->|[->|[->| ->]]]]]];
    try (exfalso; apply Hne; reflexivity); reflexivity.
Qed.

Lemma getDay_thirty_days (now : Z) :
  getDay offset now = ((getDay offset (now - 30 * ms_per_day) + 2) mod 7)%Z.
Proof.
  unfold getDay, local_day, ms_per_day.
  replace (now - 30 * (24 * 60 * 60 * 1000) + offset)%Z
    with (now + offset + (-30) * (24 * 60 * 60 * 1000))%Z by lia.
  rewrite Z.div_add by lia.
  set (d := ((now + offset) / (24 * 60 * 60 * 1000))%Z).
  rewrite Zplus_mod_idemp_l.
  replace (d + -30 + 4 + 2)%Z with (d + 4 + (-4) * 7)%Z by lia.
  rewrite Z.mod_add by lia. reflexivity.
Qed.

(** X29. The daily cleanup compares date strings as text.  An entry is
    removed exactly when its key is alphabetically before the date string
    of thirty days ago, and between days of different weekdays that order
    is the alphabetical order of the weekday names, whatever the dates are.
    Thirty days ago was the weekday two before today, so whenever the
    cleanup runs on a Monday, Thursday, Friday or Saturday it removes the
    entry of the current day. *)
Theorem daily_cleanup_by_weekday_name {A} (now : Z) (daily : gmap jsstring A) :
  let date := toDateString offset month_day_year in
  let cutoff := (now - 30 * ms_per_day)%Z in
  let cleaned := cleanup_daily offset month_day_year now daily in
  (∀ day, cleaned !! day = if string_lt day (date cutoff) then None else daily !! day)
  ∧ (∀ t, getDay offset t ≠ getDay offset cutoff →
          string_lt (date t) (date cutoff)
          = string_lt (weekday_name (getDay offset t))
                      (weekday_name (getDay offset cutoff)))
  ∧ getDay offset now = ((getDay offset cutoff + 2) mod 7)%Z
  ∧ (getDay offset now ∈ [1; 4; 5; 6]%Z → cleaned !! date now = None).
Proof.
  cbv zeta.
  assert (L : ∀ day, cleanup_daily offset month_day_year now daily !! day
                     = if string_lt day (toDateString offset month_day_year
                                           (now - 30 * ms_per_day))
                       then None else daily !! day).
  { intros day. unfold cleanup_daily. cbv zeta.
    destruct (string_lt day _) eqn:Hlt.
    - apply map_lookup_filter_None. right. intros x _ H. cbn [fst] in H. congruence.
    - destruct (daily !! day) as [x|] eqn:Hx.
      + apply map_lookup_filter_Some. split; [exact Hx|exact Hlt].
      + apply map_lookup_filter_None. left. exact Hx. }
  assert (O : ∀ t, getDay offset t ≠ getDay offset (now - 30 * ms_per_day) →
                   string_lt (toDateString offset month_day_year t)
                             (toDateString offset month_day_year (now - 30 * ms_per_day))
                   = string_lt (weekday_name (getDay offset t))
                               (weekday_name (getDay offset (now - 30 * ms_per_day)))).
  { intros t Hne. unfold toDateString.
    apply date_string_order; [apply getDay_range|apply getDay_range|exact Hne]. }
  split_and!; [exact L|exact O|apply getDay_thirty_days|].
  intros Hday. rewrite L.
  pose proof (getDay_thirty_days now) as T.
  pose proof (getDay_range (now - 30 * ms_per_day)) as R.
  assert (Hne : getDay offset now ≠ getDay offset (now - 30 * ms_per_day)).
  { rewrite T. intros E.
    destruct (weekday_cases _ R) as [H|[H|[H|[H|[H|[H|H]]]]]];
      rewrite H in E; vm_compute in E; discriminate E. }
  rewrite (O now Hne). clear O L Hne.
  destruct (weekday_cases _ R) as [H|[H|[H|[H|[H|[H|H]]]]]];
    rewrite H in T |- *; clear H R;
    match type of T with
    | _ = ?rhs => let v := eval vm_compute in rhs in change rhs with v in T
    end;
    rewrite T in Hday |- *; clear T;
    match goal with
    | |- context [string_lt ?a ?b] =>
        let v := eval vm_compute in (string_lt a b) in change (string_lt a b) with v
    end;
    first [reflexivity | exfalso; revert Hday; clear; compute_done].
Qed.

End MetricsTime.
